(** * Tool extraction from an OpenAPI document

    A shallow embedding of [src/parser/extract-tools.ts] and of the inclusion
    filter of [src/utils/helpers.ts] (functions [normalizeBoolean] and
    [shouldIncludeOperationForMcp]), with the properties of the extraction
    pipeline: the inclusion filter, the parameter merger, the request body
    handler, the schema mapper and the tool extractor.  The string helpers
    of [src/utils/helpers.ts] ([sanitizeForTemplate], [toCamelCase],
    [toPascalCase], [toValidVariableName], [isValidIdentifier],
    [formatComment]) and the selection of tools by [getToolsFromOpenApi]
    of [src/api.ts] follow.

    Conventions of the embedding.
    - A JavaScript string is a Rocq [string]; every character is one code
      unit in the range U+0000..U+00FF (Latin-1).
    - An untyped JavaScript value is a [value]; numbers are integers;
      objects and arrays live in a [heap] and are denoted by their identity
      [VRef l], so that sharing, cycles and writes are what they are in the
      program.
    - An object is the list of its own enumerable properties in enumeration
      order: the keys that are array indices first, in ascending order, then
      the other keys in the order of their creation.  An assignment
      [obj[k] = x] to a new key puts it at its place in that order.  Every
      object inherits from [Object.prototype]; the prototype itself is not
      part of the model, so an assignment to the key [__proto__] of an
      object that has no own property of that name, which replaces the
      prototype, shows as an assignment that creates no property.
    - A number compared with a length is a [number]: an exact rational, an
      infinity or NaN.
    - The objects and arrays the mapper creates are referenced once, by
      their creator, and form a tree [JSONSchema]; its leaves are the values
      copied from the source.
    - The parts of the document that [openapi-types] types (operations,
      parameters, request bodies) are records; fields that TypeScript
      declares optional are [option]s, or [bool]s and lists when only their
      truthiness or their elements are read.  The [x-mcp] extension is an
      untyped [value].
    - [console.warn] appends a [diagnostic] to a log.
    - Recursion through the schema graph and the search for an unused name
      are bounded by a fuel; the bounds used by the program's entry points
      are proved sufficient, so these always return. *)

From stdpp Require Import gmap strings list fin_maps pretty.
From Stdlib Require Import Ascii String.
From Stdlib Require QArith.

Local Open Scope stdpp_scope.
Local Set Warnings "-register-all".

(** ** JavaScript values *)

(** Identity of a heap-allocated object (what a [WeakSet] compares). *)
Definition loc := nat.

Inductive value : Type :=
  | VUndefined
  | VNull
  | VBool (b : bool)
  | VNum (n : Z)
  | VStr (s : string)
  | VRef (l : loc).

Global Instance value_eq_dec : EqDecision value.
Proof. solve_decision. Defined.

(** [ToBoolean]: what [if (v)], [!v] and [v || w] test. *)
Definition truthy (v : value) : bool :=
  match v with
  | VUndefined | VNull => false
  | VBool b => b
  | VNum n => negb (n =? 0)%Z
  | VStr s => negb (bool_decide (s = ""))
  | VRef _ => true
  end.

(** Truthiness of an optional string field ([undefined] and [''] are falsy). *)
Definition truthy_str (o : option string) : bool :=
  match o with
  | Some s => negb (bool_decide (s = ""))
  | None => false
  end.

Definition value_of_opt_str (o : option string) : value :=
  match o with Some s => VStr s | None => VUndefined end.

(** ** Strings: [trim], [toLowerCase] *)

Fixpoint string_map (f : ascii -> ascii) (s : string) : string :=
  match s with
  | EmptyString => EmptyString
  | String c s' => String (f c) (string_map f s')
  end.

(** White space and line terminators of ECMAScript below U+0100:
    TAB, LF, VT, FF, CR, SP and NBSP. *)
Definition is_js_space (c : ascii) : bool :=
  match N_of_ascii c with
  | 9 | 10 | 11 | 12 | 13 | 32 | 160 => true
  | _ => false
  end%N.

Fixpoint trimStart (s : string) : string :=
  match s with
  | EmptyString => EmptyString
  | String c s' => if is_js_space c then trimStart s' else s
  end.

Definition trimEnd (s : string) : string :=
  String.rev (trimStart (String.rev s)).

Definition trim (s : string) : string := trimEnd (trimStart s).

(** Lower-case mapping of one code unit below U+0100: A-Z and the
    upper-case letters U+00C0..U+00DE (U+00D7, the multiplication sign,
    excepted) move up by 32. *)
Definition lower_char (c : ascii) : ascii :=
  let n := N_of_ascii c in
  if ((65 <=? n) && (n <=? 90) ||
      (192 <=? n) && (n <=? 222) && negb (n =? 215))%N
  then ascii_of_N (n + 32) else c.

Definition toLowerCase (s : string) : string := string_map lower_char s.

(** Upper-case mapping restricted to a-z, all that the HTTP method names
    need. *)
Definition upper_char (c : ascii) : ascii :=
  let n := N_of_ascii c in
  if ((97 <=? n) && (n <=? 122))%N then ascii_of_N (n - 32) else c.

Definition toUpperCase (s : string) : string := string_map upper_char s.

(** ** Diagnostics *)

Inductive diagnostic : Type :=
  | InvalidXMcpOperation (opId : string) (raw : value)
  | InvalidXMcpPath (raw : value)
  | InvalidXMcpRoot (raw : value) (defaultInclude : bool)
  | XMcpEvaluationError (where_ : string) (ext : value)
  | UnresolvedRef (ref : value)
  | CycleDetected (title : value).

(** ** The OpenAPI document, as typed by [openapi-types] *)

Inductive HttpMethods : Type :=
  | GET | PUT | POST | DELETE | OPTIONS | HEAD | PATCH | TRACE.

Global Instance HttpMethods_eq_dec : EqDecision HttpMethods.
Proof. solve_decision. Defined.

(** [Object.values(OpenAPIV3.HttpMethods)], in the enum's declaration order. *)
Definition http_methods : list HttpMethods :=
  [GET; PUT; POST; DELETE; OPTIONS; HEAD; PATCH; TRACE].

Definition method_name (m : HttpMethods) : string :=
  match m with
  | GET => "get" | PUT => "put" | POST => "post" | DELETE => "delete"
  | OPTIONS => "options" | HEAD => "head" | PATCH => "patch" | TRACE => "trace"
  end.

Record ParameterObject : Type := {
  p_name : string;
  p_in : string;
  p_description : option string;
  p_required : bool;
  p_schema : option loc
}.

Record MediaTypeObject : Type := {
  mt_schema : option loc
}.

Record RequestBodyObject : Type := {
  rb_description : option string;
  rb_required : bool;
  (** [content], a map in declaration order; [None] when absent. *)
  rb_content : option (list (string * MediaTypeObject))
}.

(** One security requirement: scheme name to scopes. *)
Definition SecurityRequirementObject : Type := list (string * list string).

(** The [security] field of an operation: absent, [null], or an array. *)
Inductive SecurityField : Type :=
  | SecurityAbsent
  | SecurityNull
  | SecurityArray (reqs : list SecurityRequirementObject).

Record OperationObject : Type := {
  op_operationId : option string;
  op_description : option string;
  op_summary : option string;
  (** [parameters]; the empty list when the field is not an array. *)
  op_parameters : list ParameterObject;
  op_requestBody : option RequestBodyObject;
  op_security : SecurityField;
  op_x_mcp : value
}.

Record PathItemObject : Type := {
  pi_parameters : list ParameterObject;
  pi_operation : HttpMethods -> option OperationObject;
  pi_x_mcp : value
}.

Record Document : Type := {
  api_paths : option (list (string * option PathItemObject));
  api_security : SecurityField;
  api_x_mcp : value
}.

(** ** The inclusion filter ([utils/helpers.ts]) *)

Definition normalizeBoolean (v : value) : option bool :=
  match v with
  | VBool b => Some b
  | VStr s =>
      let normalized := toLowerCase (trim s) in
      if bool_decide (normalized ∈ ["true"; "1"; "yes"; "on"]) then Some true
      else if bool_decide (normalized ∈ ["false"; "0"; "no"; "off"]) then Some false
      else None
  | _ => None
  end.

(** [operation.operationId ?? '[no operationId]'] *)
Definition opId_or_placeholder (op : OperationObject) : string :=
  match op_operationId op with
  | Some s => s
  | None => "[no operationId]"
  end.

(** The warning emitted for a raw value that is present but not recognised. *)
Definition warn_if_defined (raw : value) (d : diagnostic) : list diagnostic :=
  if bool_decide (raw = VUndefined) then [] else [d].

(** Returns the decision and the warnings written on the way to it. *)
Definition shouldIncludeOperationForMcp
    (api : Document) (pathItem : PathItemObject) (operation : OperationObject)
    (defaultInclude : bool) : bool * list diagnostic :=
  let opRaw := op_x_mcp operation in
  match normalizeBoolean opRaw with
  | Some opVal => (opVal, [])
  | None =>
    let w1 := warn_if_defined opRaw
                (InvalidXMcpOperation (opId_or_placeholder operation) opRaw) in
    let pathRaw := pi_x_mcp pathItem in
    match normalizeBoolean pathRaw with
    | Some pathVal => (pathVal, w1)
    | None =>
      let w2 := w1 ++ warn_if_defined pathRaw (InvalidXMcpPath pathRaw) in
      let rootRaw := api_x_mcp api in
      match normalizeBoolean rootRaw with
      | Some rootVal => (rootVal, w2)
      | None =>
        (defaultInclude,
         w2 ++ warn_if_defined rootRaw (InvalidXMcpRoot rootRaw defaultInclude))
      end
    end
  end.

(** *** The filter as the specification words it *)

Definition true_like : list string := ["true"; "1"; "yes"; "on"].
Definition false_like : list string := ["false"; "0"; "no"; "off"].

(** Equality of two strings up to letter case. *)
Definition eq_ignore_case (a b : string) : bool :=
  bool_decide (toLowerCase a = toLowerCase b).

(** Well-formedness by the words of the specification: a boolean, or a
    string equal, case-insensitively, to one of the eight keywords. *)
Definition spec_normalize (v : value) : option bool :=
  match v with
  | VBool b => Some b
  | VStr s =>
      if existsb (eq_ignore_case s) true_like then Some true
      else if existsb (eq_ignore_case s) false_like then Some false
      else None
  | _ => None
  end.

(** A string is a keyword of [ks] up to case and surrounding white space. *)
Definition keyword_up_to_case_and_space (ks : list string) (s : string) : Prop :=
  exists k, k ∈ ks /\ eq_ignore_case (trim s) k = true.

(** Strict precedence: operation, then path, then root, then the default. *)
Definition resolve_by_precedence (wf : value -> option bool)
    (opRaw pathRaw rootRaw : value) (defaultInclude : bool) : bool :=
  match wf opRaw, wf pathRaw, wf rootRaw with
  | Some b, _, _ => b
  | None, Some b, _ => b
  | None, None, Some b => b
  | None, None, None => defaultInclude
  end.

(** ** The heap of schema objects *)

(** A heap object is a plain object, given by its own enumerable properties
    in enumeration order (keys pairwise distinct), or an array. *)
Inductive object : Type :=
  | OObject (fields : list (string * value))
  | OArray (elems : list value).

Abbreviation heap := (gmap loc object).

(** An identity the heap does not hold reads as the empty object. *)
Definition heap_get (h : heap) (l : loc) : object :=
  default (OObject []) (h !! l).

Fixpoint assoc_get {A : Type} (k : string) (fs : list (string * A)) : option A :=
  match fs with
  | [] => None
  | (k', x) :: fs' => if decide (k' = k) then Some x else assoc_get k fs'
  end.

(** Binding [k] to [x] in a list of entries kept in insertion order: in
    place when the key is there, at the end otherwise. *)
Fixpoint assoc_set {A : Type} (k : string) (x : A) (fs : list (string * A))
    : list (string * A) :=
  match fs with
  | [] => [(k, x)]
  | (k', y) :: fs' =>
      if decide (k' = k) then (k, x) :: fs' else (k', y) :: assoc_set k x fs'
  end.

(** The value of a string of decimal digits read after [acc]; [None] when
    a character is no digit. *)
Fixpoint digits_value (acc : N) (s : string) : option N :=
  match s with
  | EmptyString => Some acc
  | String c rest =>
      let d := N_of_ascii c in
      if ((48 <=? d) && (d <=? 57))%N
      then digits_value (10 * acc + (d - 48)) rest
      else None
  end.

(** The array index a property key denotes: the key is the decimal form,
    without a leading zero, of an integer below 2^32 - 1. *)
Definition array_index (k : string) : option N :=
  match k with
  | EmptyString => None
  | String c rest =>
      if bool_decide (c = "0"%char) && negb (bool_decide (rest = EmptyString))
      then None
      else
        match digits_value 0 k with
        | Some n => if (n <? 4294967295)%N then Some n else None
        | None => None
        end
  end.

(** The place of a new key [k] among the own keys of an object: array
    indices come first, in ascending order, and the other keys follow in
    the order of their creation.  [true] when [k] goes before [k']. *)
Definition enumerated_before (k k' : string) : bool :=
  match array_index k, array_index k' with
  | Some n, Some n' => (n <? n')%N
  | Some _, None => true
  | None, _ => false
  end.

(** A new own property [k] put at its place in the enumeration order. *)
Fixpoint fields_add {A : Type} (k : string) (x : A) (fs : list (string * A))
    : list (string * A) :=
  match fs with
  | [] => [(k, x)]
  | (k', y) :: fs' =>
      if enumerated_before k k' then (k, x) :: fs else (k', y) :: fields_add k x fs'
  end.

(** [obj[k] = x] on a plain object.  An own property is written in place.
    A new key becomes an own property, except [__proto__]: that key is
    inherited from [Object.prototype] as a setter, which replaces the
    prototype of [obj] (when [x] is an object) and creates no property. *)
Definition fields_set {A : Type} (k : string) (x : A) (fs : list (string * A))
    : list (string * A) :=
  match assoc_get k fs with
  | Some _ => assoc_set k x fs
  | None => if bool_decide (k = "__proto__") then fs else fields_add k x fs
  end.

(** [delete obj[k]] *)
Fixpoint fields_delete {A : Type} (k : string) (fs : list (string * A))
    : list (string * A) :=
  match fs with
  | [] => []
  | (k', y) :: fs' =>
      if decide (k' = k) then fields_delete k fs' else (k', y) :: fields_delete k fs'
  end.

Fixpoint chars_of (s : string) : list value :=
  match s with
  | EmptyString => []
  | String c s' => VStr (String c EmptyString) :: chars_of s'
  end.

Definition indexed (vs : list value) : list (string * value) :=
  imap (fun (i : nat) v => (pretty i, v)) vs.

(** The own enumerable properties that [{...o}] copies and
    [Object.entries(o)] lists. *)
Definition own_entries (o : object) : list (string * value) :=
  match o with
  | OObject fields => fields
  | OArray elems => indexed elems
  end.

(** [Object.entries(v)] for an arbitrary truthy value. *)
Definition entries_of_value (h : heap) (v : value) : list (string * value) :=
  match v with
  | VRef l => own_entries (heap_get h l)
  | VStr s => indexed (chars_of s)
  | _ => []
  end.

(** [o[k]], [undefined] when [o] has no such property. *)
Definition get_prop (o : object) (k : string) : value :=
  default VUndefined (assoc_get k (own_entries o)).

(** [arr.includes(x)] *)
Definition includes (x : value) (elems : list value) : bool :=
  existsb (fun v => bool_decide (v = x)) elems.

(** ** Values built by the mapper

    Every object or array the mapper creates is referenced exactly once, by
    the object that holds it, so the result is a tree.  A leaf [JRaw v] is a
    value copied from the source as it is: a primitive, or a reference
    [VRef l] shared with the source document. *)
Inductive JSONSchema : Type :=
  | JRaw (v : value)
  | JArray (elems : list value)
  | JObject (fields : list (string * JSONSchema)).

Definition js_get (k : string) (js : list (string * JSONSchema)) : JSONSchema :=
  default (JRaw VUndefined) (assoc_get k js).

Definition js_truthy (j : JSONSchema) : bool :=
  match j with
  | JRaw v => truthy v
  | JArray _ | JObject _ => true
  end.

(** [{ type: 'object' }] *)
Definition generic_object : JSONSchema :=
  JObject [("type", JRaw (VStr "object"))].

(** ** The schema mapper *)

(** What a traversal reads and writes: the heap, the [WeakSet] of schema
    objects on the active recursion path, and the diagnostics. *)
Record mstate : Type := {
  st_heap : heap;
  st_seen : gset loc;
  st_log : list diagnostic
}.

Definition warn (d : diagnostic) (st : mstate) : mstate :=
  {| st_heap := st_heap st; st_seen := st_seen st; st_log := st_log st ++ [d] |}.

Definition seen_add (l : loc) (st : mstate) : mstate :=
  {| st_heap := st_heap st; st_seen := {[l]} ∪ st_seen st; st_log := st_log st |}.

Definition seen_delete (l : loc) (st : mstate) : mstate :=
  {| st_heap := st_heap st; st_seen := st_seen st ∖ {[l]}; st_log := st_log st |}.

Definition set_heap (h : heap) (st : mstate) : mstate :=
  {| st_heap := h; st_seen := st_seen st; st_log := st_log st |}.

(** [const jsonSchema = { ...schema }] *)
Definition spread (o : object) : list (string * JSONSchema) :=
  map (fun kv => (kv.1, JRaw kv.2)) (own_entries o).

Definition openapi_only : list string :=
  ["nullable"; "example"; "xml"; "externalDocs"; "deprecated"; "readOnly";
   "writeOnly"].

Definition delete_openapi_only (js : list (string * JSONSchema))
    : list (string * JSONSchema) :=
  foldl (fun acc k => fields_delete k acc) js openapi_only.

(** The body of [if (schema.nullable) { ... }]: fold [null] into the type of
    the copy.  When the copy's type is an array of the source, the array is
    the source's own (the copy is shallow) and [push] writes to the heap. *)
Definition add_null_type (js : list (string * JSONSchema)) (h : heap)
    : list (string * JSONSchema) * heap :=
  match js_get "type" js with
  | JArray elems =>
      if includes (VStr "null") elems then (js, h)
      else (fields_set "type" (JArray (elems ++ [VStr "null"])) js, h)
  | JObject _ => (js, h)
  | JRaw (VRef lt) =>
      match h !! lt with
      | Some (OArray elems) =>
          if includes (VStr "null") elems then (js, h)
          else (js, <[lt := OArray (elems ++ [VStr "null"])]> h)
      | _ => (js, h)
      end
  | JRaw (VStr t) => (fields_set "type" (JArray [VStr t; VStr "null"]) js, h)
  | JRaw v =>
      if truthy v then (js, h) else (fields_set "type" (JRaw (VStr "null")) js, h)
  end.

(** The loop over [Object.entries(jsonSchema.properties)]; [rec] is the
    recursive call of the mapper. *)
Fixpoint map_properties (rec : loc -> mstate -> option (JSONSchema * mstate))
    (entries : list (string * value)) (mappedProps : list (string * JSONSchema))
    (st : mstate) : option (list (string * JSONSchema) * mstate) :=
  match entries with
  | [] => Some (mappedProps, st)
  | (key, propSchema) :: rest =>
      match propSchema with
      | VRef l =>
          match rec l st with
          | Some (r, st') => map_properties rec rest (fields_set key r mappedProps) st'
          | None => None
          end
      | VBool b =>
          map_properties rec rest (fields_set key (JRaw (VBool b)) mappedProps) st
      | _ => map_properties rec rest mappedProps st
      end
  end.

(** [j === s] for a string [s]. *)
Definition strict_eq_str (j : JSONSchema) (s : string) : bool :=
  match j with
  | JRaw (VStr t) => bool_decide (t = s)
  | _ => false
  end.

(** [if (jsonSchema.type === 'object' && jsonSchema.properties) { ... }].
    Only [type] is ever replaced in the copy before this point, so the
    [properties] of the copy is still the raw value of the source. *)
Definition process_properties (rec : loc -> mstate -> option (JSONSchema * mstate))
    (js : list (string * JSONSchema)) (st : mstate)
    : option (list (string * JSONSchema) * mstate) :=
  if strict_eq_str (js_get "type" js) "object" then
    match js_get "properties" js with
    | JRaw props =>
        if truthy props then
          match map_properties rec (entries_of_value (st_heap st) props) [] st with
          | Some (mappedProps, st') =>
              Some (fields_set "properties" (JObject mappedProps) js, st')
          | None => None
          end
        else Some (js, st)
    | _ => Some (js, st)
    end
  else Some (js, st).

(** [if (jsonSchema.type === 'array' && typeof jsonSchema.items === 'object'
    && jsonSchema.items !== null) { ... }] *)
Definition process_items (rec : loc -> mstate -> option (JSONSchema * mstate))
    (js : list (string * JSONSchema)) (st : mstate)
    : option (list (string * JSONSchema) * mstate) :=
  if strict_eq_str (js_get "type" js) "array" then
    match js_get "items" js with
    | JRaw (VRef items) =>
        match rec items st with
        | Some (r, st') => Some (fields_set "items" r js, st')
        | None => None
        end
    | _ => Some (js, st)
    end
  else Some (js, st).

(** The statements of the [try] block, from the copy to [return jsonSchema]. *)
Definition map_body (rec : loc -> mstate -> option (JSONSchema * mstate))
    (schema : object) (st : mstate) : option (JSONSchema * mstate) :=
  let jsonSchema := spread schema in
  let jsonSchema :=
    if bool_decide (get_prop schema "type" = VStr "integer")
    then fields_set "type" (JRaw (VStr "number")) jsonSchema else jsonSchema in
  let jsonSchema := delete_openapi_only jsonSchema in
  let '(jsonSchema, st) :=
    if truthy (get_prop schema "nullable") then
      let '(js, h) := add_null_type jsonSchema (st_heap st) in (js, set_heap h st)
    else (jsonSchema, st) in
  match process_properties rec jsonSchema st with
  | Some (jsonSchema, st) =>
      match process_items rec jsonSchema st with
      | Some (jsonSchema, st) => Some (JObject jsonSchema, st)
      | None => None
      end
  | None => None
  end.

(** [mapOpenApiSchemaToJsonSchema(schema, seen)] for a schema object.  The
    recursion follows references of a graph that may be cyclic, so it is
    bounded by [fuel]; [None] means the fuel ran out.  The argument is an
    object: the test [typeof schema === 'boolean'] is never true of it. *)
Fixpoint mapOpenApiSchemaToJsonSchema (fuel : nat) (schema : loc) (st : mstate)
    : option (JSONSchema * mstate) :=
  match fuel with
  | O => None
  | S fuel' =>
      let o := heap_get (st_heap st) schema in
      match assoc_get "$ref" (own_entries o) with
      | Some ref => Some (generic_object, warn (UnresolvedRef ref) st)
      | None =>
          if decide (schema ∈ st_seen st) then
            Some (generic_object, warn (CycleDetected (get_prop o "title")) st)
          else
            match map_body (mapOpenApiSchemaToJsonSchema fuel') o (seen_add schema st) with
            | Some (jsonSchema, st') => Some (jsonSchema, seen_delete schema st')
            | None => None
            end
      end
  end.

(** A call without the second argument starts from [new WeakSet()].  The
    fuel exceeds the number of objects of the heap, which is enough. *)
Definition map_schema (schema : loc) (h : heap) (log : list diagnostic)
    : option (JSONSchema * heap * list diagnostic) :=
  match mapOpenApiSchemaToJsonSchema (S (size h)) schema
          {| st_heap := h; st_seen := ∅; st_log := log |} with
  | Some (r, st) => Some (r, st_heap st, st_log st)
  | None => None
  end.

(** ** Input schema of one operation ([generateInputSchemaAndDetails]) *)

(** [parameterMap.set(param.name, param)] for each named parameter; a
    JavaScript [Map] keeps its keys in insertion order and [set] on an
    existing key replaces the value where it stands. *)
Definition map_set_named (parameterMap : list (string * ParameterObject))
    (param : ParameterObject) : list (string * ParameterObject) :=
  if bool_decide (p_name param = "") then parameterMap
  else assoc_set (p_name param) param parameterMap.

(** [Array.from(parameterMap.values())] after both [forEach] loops. *)
Definition merge_parameters (pathParameters operationParameters : list ParameterObject)
    : list ParameterObject :=
  let parameterMap := foldl map_set_named [] pathParameters in
  let parameterMap := foldl map_set_named parameterMap operationParameters in
  map snd parameterMap.

(** The accumulators of [generateInputSchemaAndDetails] together with the
    heap and the diagnostics its calls of the mapper act on. *)
Record gstate : Type := {
  g_properties : list (string * JSONSchema);
  g_required : list string;
  g_heap : heap;
  g_log : list diagnostic
}.

(** [obj.description = d] when [typeof obj === 'object']. *)
Definition set_description (d : list (string * JSONSchema) -> JSONSchema)
    (j : JSONSchema) : JSONSchema :=
  match j with
  | JObject fs => JObject (fields_set "description" (d fs) fs)
  | _ => j
  end.

(** [param.description || paramSchema.description] *)
Definition param_description (param : ParameterObject)
    (paramSchema : list (string * JSONSchema)) : JSONSchema :=
  if truthy_str (p_description param)
  then JRaw (value_of_opt_str (p_description param))
  else js_get "description" paramSchema.

(** The callback of [allParameters.forEach]. *)
Definition add_parameter (param : ParameterObject) (g : gstate) : option gstate :=
  if bool_decide (p_name param = "") then Some g
  else
    match p_schema param with
    | None => Some g
    | Some schema =>
        match map_schema schema (g_heap g) (g_log g) with
        | Some (paramSchema, h, log) =>
            let paramSchema := set_description (param_description param) paramSchema in
            Some {| g_properties := fields_set (p_name param) paramSchema (g_properties g);
                    g_required := if p_required param
                                  then g_required g ++ [p_name param]
                                  else g_required g;
                    g_heap := h;
                    g_log := log |}
        | None => None
        end
    end.

Fixpoint add_parameters (params : list ParameterObject) (g : gstate) : option gstate :=
  match params with
  | [] => Some g
  | param :: rest =>
      match add_parameter param g with
      | Some g' => add_parameters rest g'
      | None => None
      end
  end.

(** [opRequestBody.description || bodySchema.description ||
    'The JSON request body.'] *)
Definition body_description (opRequestBody : RequestBodyObject)
    (bodySchema : list (string * JSONSchema)) : JSONSchema :=
  if truthy_str (rb_description opRequestBody)
  then JRaw (value_of_opt_str (rb_description opRequestBody))
  else if js_truthy (js_get "description" bodySchema)
  then js_get "description" bodySchema
  else JRaw (VStr "The JSON request body.").

Definition push_if (b : bool) (x : string) (l : list string) : list string :=
  if b then l ++ [x] else l.

(** [if (operation.requestBody) { ... }]; returns [requestBodyContentType]
    with the new accumulators. *)
Definition add_request_body (requestBody : option RequestBodyObject) (g : gstate)
    : option (option string * gstate) :=
  match requestBody with
  | None => Some (None, g)
  | Some opRequestBody =>
      let jsonContent :=
        match rb_content opRequestBody with
        | Some content => assoc_get "application/json" content
        | None => None
        end in
      let firstContent :=
        match rb_content opRequestBody with
        | Some content => head content
        | None => None
        end in
      match jsonContent ≫= mt_schema with
      | Some schema =>
          match map_schema schema (g_heap g) (g_log g) with
          | Some (bodySchema, h, log) =>
              let bodySchema :=
                set_description (body_description opRequestBody) bodySchema in
              Some (Some "application/json",
                    {| g_properties := fields_set "requestBody" bodySchema (g_properties g);
                       g_required := push_if (rb_required opRequestBody) "requestBody"
                                       (g_required g);
                       g_heap := h;
                       g_log := log |})
          | None => None
          end
      | None =>
          match firstContent with
          | Some (contentType, _) =>
              let description :=
                if truthy_str (rb_description opRequestBody)
                then value_of_opt_str (rb_description opRequestBody)
                else VStr ("Request body (content type: " +:+ contentType +:+ ")") in
              Some (Some contentType,
                    {| g_properties :=
                         fields_set "requestBody"
                           (JObject [("type", JRaw (VStr "string"));
                                     ("description", JRaw description)])
                           (g_properties g);
                       g_required := push_if (rb_required opRequestBody) "requestBody"
                                       (g_required g);
                       g_heap := g_heap g;
                       g_log := g_log g |})
          | None => Some (None, g)
          end
      end
  end.

(** [{ type: 'object', properties, ...(required.length > 0 && { required }) }] *)
Definition make_input_schema (properties : list (string * JSONSchema))
    (required : list string) : JSONSchema :=
  JObject ([("type", JRaw (VStr "object")); ("properties", JObject properties)]
           ++ match required with
              | [] => []
              | _ :: _ => [("required", JArray (map VStr required))]
              end).

Record InputSchemaAndDetails : Type := {
  inputSchema : JSONSchema;
  parameters : list ParameterObject;
  requestBodyContentType : option string
}.

(** The state of the accumulators after the parameter loop (line 172). *)
Definition parameters_phase (operation : OperationObject) (pathItem : PathItemObject)
    (h : heap) (log : list diagnostic) : option gstate :=
  add_parameters (merge_parameters (pi_parameters pathItem) (op_parameters operation))
    {| g_properties := []; g_required := []; g_heap := h; g_log := log |}.

Definition generateInputSchemaAndDetails (operation : OperationObject)
    (pathItem : PathItemObject) (h : heap) (log : list diagnostic)
    : option (InputSchemaAndDetails * heap * list diagnostic) :=
  match parameters_phase operation pathItem h log with
  | Some g =>
      match add_request_body (op_requestBody operation) g with
      | Some (contentType, g') =>
          Some ({| inputSchema := make_input_schema (g_properties g') (g_required g');
                   parameters := merge_parameters (pi_parameters pathItem)
                                   (op_parameters operation);
                   requestBodyContentType := contentType |},
                g_heap g', g_log g')
      | None => None
      end
  | None => None
  end.

(** ** The tool extractor ([extractToolsFromApi]) *)

Record McpToolDefinition : Type := {
  name : string;
  description : string;
  tool_inputSchema : JSONSchema;
  method : HttpMethods;
  pathTemplate : string;
  tool_parameters : list ParameterObject;
  executionParameters : list (string * string);
  tool_requestBodyContentType : option string;
  securityRequirements : list SecurityRequirementObject;
  operationId : string
}.

(** [baseName.replace(/\./g, '_')] *)
Definition replace_dots (s : string) : string :=
  string_map (fun c => if decide (c = "."%char) then "_"%char else c) s.

(** Membership in the class [[a-z0-9_-]] under the flag [i]. *)
Definition is_name_char (c : ascii) : bool :=
  let n := N_of_ascii c in
  ((97 <=? n) && (n <=? 122) || (65 <=? n) && (n <=? 90) ||
   (48 <=? n) && (n <=? 57) || (n =? 95) || (n =? 45))%N.

(** [.replace(/[^a-z0-9_-]/gi, '_')] *)
Definition replace_non_name_chars (s : string) : string :=
  string_map (fun c => if is_name_char c then c else "_"%char) s.

Definition sanitize (baseName : string) : string :=
  replace_non_name_chars (replace_dots baseName).

(** [`${baseName}_${counter}`] *)
Definition suffixed (baseName : string) (counter : nat) : string :=
  baseName +:+ "_" +:+ pretty counter.

(** [while (usedNames.has(finalToolName)) finalToolName =
    `${baseName}_${counter++}`], bounded by [fuel] iterations of the test. *)
Fixpoint find_unused (fuel : nat) (usedNames : gset string) (baseName : string)
    (finalToolName : string) (counter : nat) : option string :=
  match fuel with
  | O => None
  | S fuel' =>
      if decide (finalToolName ∈ usedNames)
      then find_unused fuel' usedNames baseName (suffixed baseName counter) (S counter)
      else Some finalToolName
  end.

(** The name search started at [finalToolName = baseName], [counter = 1].
    One test more than there are used names is always enough. *)
Definition unique_name (usedNames : gset string) (baseName : string) : option string :=
  find_unused (S (size usedNames)) usedNames baseName baseName 1.

(** [operation.security === null ? globalSecurity :
    operation.security || globalSecurity] *)
Definition resolve_security (security : SecurityField)
    (globalSecurity : list SecurityRequirementObject)
    : list SecurityRequirementObject :=
  match security with
  | SecurityNull => globalSecurity
  | SecurityArray reqs => reqs
  | SecurityAbsent => globalSecurity
  end.

(** [api.security || []] *)
Definition global_security (api : Document) : list SecurityRequirementObject :=
  match api_security api with
  | SecurityArray reqs => reqs
  | _ => []
  end.

(** [a ?? b] *)
Definition nullish_or (a b : value) : value :=
  match a with
  | VUndefined | VNull => b
  | _ => a
  end.

(** [a || b] on optional strings, [b] being a string. *)
Definition str_or (a : option string) (b : string) : string :=
  match a with
  | Some s => if bool_decide (s = "") then b else s
  | None => b
  end.

(** What a call of the inclusion filter can do: return its decision, or
    throw; either way after writing some warnings. *)
Inductive filter_result : Type :=
  | Returned (include : bool) (warnings : list diagnostic)
  | Thrown (warnings : list diagnostic).

(** The variables of [extractToolsFromApi] that the loops update. *)
Record xstate : Type := {
  x_tools : list McpToolDefinition;
  x_usedNames : gset string;
  x_heap : heap;
  x_log : list diagnostic
}.

Definition x_warn (ds : list diagnostic) (x : xstate) : xstate :=
  {| x_tools := x_tools x; x_usedNames := x_usedNames x; x_heap := x_heap x;
     x_log := x_log x ++ ds |}.

Section Extractor.

(** [generateOperationId] of [utils/code-gen.ts], applied to the method
    name and the path. *)
Variable generateOperationId : string -> string -> string.

(** The inclusion filter the extractor calls inside [try].  The program
    passes [shouldIncludeOperationForMcp]; the [catch] clause is written
    for any filter, so the extractor is defined for any filter. *)
Variable inclusion_filter :
  Document -> PathItemObject -> OperationObject -> bool -> filter_result.

(** The [try]/[catch] statement: [true] when the loop body goes on to
    build the tool, [false] when it ran [continue]. *)
Definition apply_filter (api : Document) (defaultInclude : bool)
    (path : string) (pathItem : PathItemObject) (method : HttpMethods)
    (operation : OperationObject) : bool * list diagnostic :=
  match inclusion_filter api pathItem operation defaultInclude with
  | Returned include warnings => (include, warnings)
  | Thrown warnings =>
      let loc := str_or (op_operationId operation)
                   (method_name method +:+ " " +:+ path) in
      let extVal := nullish_or (op_x_mcp operation)
                      (nullish_or (pi_x_mcp pathItem) (api_x_mcp api)) in
      (defaultInclude, warnings ++ [XMcpEvaluationError loc extVal])
  end.

(** The loop body from line 64 on: name, describe and push one tool. *)
Definition build_tool (api : Document) (path : string) (pathItem : PathItemObject)
    (method : HttpMethods) (operation : OperationObject) (x : xstate)
    : option xstate :=
  let baseName := str_or (op_operationId operation)
                    (generateOperationId (method_name method) path) in
  if bool_decide (baseName = "") then Some x
  else
    let baseName := sanitize baseName in
    match unique_name (x_usedNames x) baseName with
    | None => None
    | Some finalToolName =>
        let usedNames := {[finalToolName]} ∪ x_usedNames x in
        let description :=
          str_or (op_description operation)
            (str_or (op_summary operation)
               ("Executes " +:+ toUpperCase (method_name method) +:+ " " +:+ path)) in
        match generateInputSchemaAndDetails operation pathItem (x_heap x) (x_log x) with
        | None => None
        | Some (details, h, log) =>
            let executionParameters :=
              map (fun p => (p_name p, p_in p)) (parameters details) in
            let securityRequirements :=
              resolve_security (op_security operation) (global_security api) in
            Some {| x_tools :=
                      x_tools x ++
                      [{| name := finalToolName;
                          description := description;
                          tool_inputSchema := inputSchema details;
                          method := method;
                          pathTemplate := path;
                          tool_parameters := parameters details;
                          executionParameters := executionParameters;
                          tool_requestBodyContentType := requestBodyContentType details;
                          securityRequirements := securityRequirements;
                          operationId := baseName |}];
                    x_usedNames := usedNames;
                    x_heap := h;
                    x_log := log |}
        end
    end.

(** One iteration of the loop over the methods, for a declared operation. *)
Definition process_operation (api : Document) (defaultInclude : bool)
    (path : string) (pathItem : PathItemObject) (method : HttpMethods)
    (operation : OperationObject) (x : xstate) : option xstate :=
  let '(proceed, warnings) :=
    apply_filter api defaultInclude path pathItem method operation in
  if proceed then build_tool api path pathItem method operation (x_warn warnings x)
  else Some (x_warn warnings x).

Fixpoint process_methods (api : Document) (defaultInclude : bool)
    (path : string) (pathItem : PathItemObject) (methods : list HttpMethods)
    (x : xstate) : option xstate :=
  match methods with
  | [] => Some x
  | method :: rest =>
      match pi_operation pathItem method with
      | None => process_methods api defaultInclude path pathItem rest x
      | Some operation =>
          match process_operation api defaultInclude path pathItem method operation x with
          | Some x' => process_methods api defaultInclude path pathItem rest x'
          | None => None
          end
      end
  end.

Fixpoint process_paths (api : Document) (defaultInclude : bool)
    (paths : list (string * option PathItemObject)) (x : xstate) : option xstate :=
  match paths with
  | [] => Some x
  | (path, None) :: rest => process_paths api defaultInclude rest x
  | (path, Some pathItem) :: rest =>
      match process_methods api defaultInclude path pathItem http_methods x with
      | Some x' => process_paths api defaultInclude rest x'
      | None => None
      end
  end.

(** Returns the tools, with the heap and the diagnostics as the run left
    them; [h] is the heap the schema references of [api] point into. *)
Definition extractToolsFromApi_with (api : Document) (defaultInclude : bool)
    (h : heap) : option xstate :=
  let x0 := {| x_tools := []; x_usedNames := ∅; x_heap := h; x_log := [] |} in
  match api_paths api with
  | None => Some x0
  | Some paths => process_paths api defaultInclude paths x0
  end.

End Extractor.

(** The filter of the program never throws. *)
Definition mcp_filter (api : Document) (pathItem : PathItemObject)
    (operation : OperationObject) (defaultInclude : bool) : filter_result :=
  let '(include, warnings) :=
    shouldIncludeOperationForMcp api pathItem operation defaultInclude in
  Returned include warnings.

Definition extractToolsFromApi (generateOperationId : string -> string -> string)
    (api : Document) (defaultInclude : bool) (h : heap) : option xstate :=
  extractToolsFromApi_with generateOperationId mcp_filter api defaultInclude h.

(** ** Concrete documents used by the examples below *)

Definition no_operation : HttpMethods -> option OperationObject := fun _ => None.

Definition only_get (operation : OperationObject)
    : HttpMethods -> option OperationObject :=
  fun m => match m with GET => Some operation | _ => None end.

(** An operation that carries nothing but an identifier and an [x-mcp] value. *)
Definition bare_operation (id : option string) (x_mcp : value) : OperationObject :=
  {| op_operationId := id; op_description := None; op_summary := None;
     op_parameters := []; op_requestBody := None; op_security := SecurityAbsent;
     op_x_mcp := x_mcp |}.

Definition bare_path_item (x_mcp : value) : PathItemObject :=
  {| pi_parameters := []; pi_operation := no_operation; pi_x_mcp := x_mcp |}.

Definition bare_document (x_mcp : value) : Document :=
  {| api_paths := None; api_security := SecurityAbsent; api_x_mcp := x_mcp |}.

(** ** Auxiliary notions for the properties of the mapper *)

(** A recursive call [rec] returns on every state whose heap has the
    objects [D] and whose visiting set is [S], and leaves both as they are. *)
Definition returns_on (rec : loc -> mstate -> option (JSONSchema * mstate))
    (D S : gset loc) : Prop :=
  forall l st,
    dom (st_heap st) = D -> st_seen st = S ->
    exists r st', rec l st = Some (r, st') /\
                  dom (st_heap st') = D /\ st_seen st' = S.

(** A schema whose property [self] is the schema itself, and whose
    properties [left] and [right] are one and the same leaf object. *)
Definition cyclic_heap : heap :=
  list_to_map
    [(1, OObject [("title", VStr "Node"); ("type", VStr "object");
                  ("properties", VRef 2)]);
     (2, OObject [("self", VRef 1); ("left", VRef 3); ("right", VRef 3)]);
     (3, OObject [("type", VStr "integer")])].

(** An array schema whose items are, two steps down, the array itself. *)
Definition cyclic_items_heap : heap :=
  list_to_map
    [(1, OObject [("type", VStr "array"); ("items", VRef 2)]);
     (2, OObject [("type", VStr "array"); ("items", VRef 1)])].

Definition fresh_state (h : heap) : mstate :=
  {| st_heap := h; st_seen := ∅; st_log := [] |}.

(** A schema that declares no type and whose property [next] is the
    schema itself. *)
Definition untyped_cyclic_heap : heap :=
  list_to_map
    [(1, OObject [("properties", VRef 2)]);
     (2, OObject [("next", VRef 1)])].

(** Object [l] holds a reference to object [l'] in one of its properties. *)
Definition points_to (h : heap) (l l' : loc) : Prop :=
  VRef l' ∈ (own_entries (heap_get h l)).*2.

(** What the loop does with one entry [kv] of a properties map when its
    turn comes in the state [st]: [out] is what it stores under the key of
    the entry ([None]: nothing) and [st'] is the state it leaves.  An object
    is handed to the recursive call [rec] in the state [st]; a boolean is
    stored as it is; anything else is dropped. *)
Definition entry_result (rec : loc -> mstate -> option (JSONSchema * mstate))
    (st : mstate) (kv : string * value) (out : option JSONSchema) (st' : mstate)
    : Prop :=
  match kv.2 with
  | VRef l => exists r, rec l st = Some (r, st') /\ out = Some r
  | VBool b => out = Some (JRaw (VBool b)) /\ st' = st
  | _ => out = None /\ st' = st
  end.

(** [step] relates the elements of [xs] to those of [ys] one after the
    other, each in the state its predecessor left: from [st] to [st']. *)
Fixpoint in_turn {A B : Type} (step : mstate -> A -> B -> mstate -> Prop)
    (st : mstate) (xs : list A) (ys : list B) (st' : mstate) : Prop :=
  match xs, ys with
  | [], [] => st' = st
  | x :: xs', y :: ys' =>
      exists st1, step st x y st1 /\ in_turn step st1 xs' ys' st'
  | _, _ => False
  end.

(** An object schema with one property of each kind: an object, [null],
    a boolean, a number and a string. *)
Definition mixed_properties_heap : heap :=
  list_to_map
    [(1, OObject [("type", VStr "object"); ("properties", VRef 2)]);
     (2, OObject [("a", VRef 3); ("b", VNull); ("c", VBool true);
                  ("d", VNum 5); ("e", VStr "x")]);
     (3, OObject [("type", VStr "integer")])].

(** A nullable object schema with an object-valued and a [null]-valued
    property: [{ type: 'object', nullable: true, properties: { a: { type:
    'integer' }, b: null } }]. *)
Definition nullable_object_heap : heap :=
  list_to_map
    [(1, OObject [("type", VStr "object"); ("nullable", VBool true);
                  ("properties", VRef 2)]);
     (2, OObject [("a", VRef 3); ("b", VNull)]);
     (3, OObject [("type", VStr "integer")])].

(** A nullable schema whose type is already an array: [{ type: ['string'],
    nullable: true }]. *)
Definition nullable_union_heap : heap :=
  list_to_map
    [(1, OObject [("type", VRef 2); ("nullable", VBool true)]);
     (2, OArray [VStr "string"])].

(** What the mapper may do to one object of the source: nothing, or push
    ['null'] onto an array that does not hold it. *)
Definition null_pushed (o o' : object) : Prop :=
  o' = o \/
  exists elems,
    o = OArray elems /\ includes (VStr "null") elems = false /\
    o' = OArray (elems ++ [VStr "null"]).

Definition only_nulls_pushed (h h' : heap) : Prop :=
  forall l, option_Forall2 null_pushed (h !! l) (h' !! l).

(** Whenever the recursive call [rec] returns, it has done no more to the
    heap than that. *)
Definition pushes_only (rec : loc -> mstate -> option (JSONSchema * mstate)) : Prop :=
  forall l st r st',
    rec l st = Some (r, st') -> only_nulls_pushed (st_heap st) (st_heap st').

(** ** Auxiliary notions for the properties of the parameter merger *)

(** [q] takes the place of every parameter of [ps] that has its name. *)
Definition replace_named (q : ParameterObject) (ps : list ParameterObject)
    : list ParameterObject :=
  map (fun p => if bool_decide (p_name p = p_name q) then q else p) ps.

(** Insertion of one parameter into a merged list, as the specification
    words it: in place of the parameter of the same name when there is one,
    at the end otherwise; a parameter without a name is not inserted. *)
Definition insert_parameter (q : ParameterObject) (ps : list ParameterObject)
    : list ParameterObject :=
  if bool_decide (p_name q = "") then ps
  else if bool_decide (p_name q ∈ map p_name ps) then replace_named q ps
  else ps ++ [q].

(** Every entry of a parameter map is filed under the name of its
    parameter, and no key occurs twice. *)
Definition well_keyed (m : list (string * ParameterObject)) : Prop :=
  Forall (fun kp => kp.1 = p_name kp.2) m /\ NoDup m.*1.

Definition empty_gstate (h : heap) (log : list diagnostic) : gstate :=
  {| g_properties := []; g_required := []; g_heap := h; g_log := log |}.

(** The input schema property and required flag that the parameter [q]
    gives rise to are those found in [g], the accumulators after the
    parameter loop; [g1] holds the accumulators, the heap and the log as
    they are when the turn of [q] comes.  No property and no required entry
    when [q] has no schema; otherwise the schema of [q] as the mapper maps
    it on the heap of [g1], described by [q]'s description (the mapped
    schema's own when [q] has none), and a required entry exactly when [q]
    is required.  (The property of a parameter named [__proto__] is not
    stated.) *)
Definition derived_from (q : ParameterObject) (g1 g : gstate) : Prop :=
  match p_schema q with
  | None =>
      assoc_get (p_name q) (g_properties g) = None /\ p_name q ∉ g_required g
  | Some schema =>
      exists fs h2 log2,
        map_schema schema (g_heap g1) (g_log g1) = Some (JObject fs, h2, log2)
        /\ (p_name q <> "__proto__" ->
            assoc_get (p_name q) (g_properties g) =
              Some (JObject (fields_set "description" (param_description q fs) fs)))
        /\ (p_name q ∈ g_required g <-> p_required q = true)
  end.

(** The description of the request body as the specification words it: the
    mapped schema's, else the request body's, else the literal. *)
Definition spec_body_description (opRequestBody : RequestBodyObject)
    (bodySchema : list (string * JSONSchema)) : JSONSchema :=
  if js_truthy (js_get "description" bodySchema)
  then js_get "description" bodySchema
  else if truthy_str (rb_description opRequestBody)
  then JRaw (value_of_opt_str (rb_description opRequestBody))
  else JRaw (VStr "The JSON request body.").

(** A path with parameters [id] and [limit]; its operation declares [id]
    again, as a required string, and a parameter [q]. *)
Definition override_heap : heap :=
  list_to_map
    [(1, OObject [("type", VStr "integer"); ("description", VStr "numeric id")]);
     (2, OObject [("type", VStr "integer")]);
     (3, OObject [("type", VStr "string")]);
     (4, OObject [("type", VStr "string")])].

Definition path_id : ParameterObject :=
  {| p_name := "id"; p_in := "path"; p_description := Some "path-level id";
     p_required := false; p_schema := Some 1 |}.

Definition path_limit : ParameterObject :=
  {| p_name := "limit"; p_in := "query"; p_description := None;
     p_required := false; p_schema := Some 2 |}.

Definition operation_id : ParameterObject :=
  {| p_name := "id"; p_in := "path"; p_description := Some "operation-level id";
     p_required := true; p_schema := Some 3 |}.

Definition operation_q : ParameterObject :=
  {| p_name := "q"; p_in := "query"; p_description := None;
     p_required := false; p_schema := Some 4 |}.

Definition override_operation : OperationObject :=
  {| op_operationId := Some "getPet"; op_description := None; op_summary := None;
     op_parameters := [operation_id; operation_q]; op_requestBody := None;
     op_security := SecurityAbsent; op_x_mcp := VUndefined |}.

Definition override_path_item : PathItemObject :=
  {| pi_parameters := [path_id; path_limit];
     pi_operation := only_get override_operation; pi_x_mcp := VUndefined |}.

(** An operation that declares [id] again, required and without a schema
    (as a parameter described by [content] is). *)
Definition operation_id_without_schema : ParameterObject :=
  {| p_name := "id"; p_in := "path"; p_description := None;
     p_required := true; p_schema := None |}.

Definition schemaless_operation : OperationObject :=
  {| op_operationId := Some "getPet"; op_description := None; op_summary := None;
     op_parameters := [operation_id_without_schema]; op_requestBody := None;
     op_security := SecurityAbsent; op_x_mcp := VUndefined |}.

(** A path and its operation both declare a query parameter named
    [requestBody]; the operation has a required JSON request body. *)
Definition collision_heap : heap :=
  list_to_map
    [(1, OObject [("type", VStr "object")]);
     (2, OObject [("type", VStr "integer")]);
     (3, OObject [("type", VStr "string")])].

Definition path_requestBody : ParameterObject :=
  {| p_name := "requestBody"; p_in := "query"; p_description := None;
     p_required := false; p_schema := Some 2 |}.

Definition operation_requestBody : ParameterObject :=
  {| p_name := "requestBody"; p_in := "query"; p_description := Some "a parameter";
     p_required := false; p_schema := Some 3 |}.

Definition collision_operation : OperationObject :=
  {| op_operationId := Some "createPet"; op_description := None; op_summary := None;
     op_parameters := [operation_requestBody];
     op_requestBody :=
       Some {| rb_description := None; rb_required := true;
               rb_content := Some [("application/json", {| mt_schema := Some 1 |})] |};
     op_security := SecurityAbsent; op_x_mcp := VUndefined |}.

Definition collision_path_item : PathItemObject :=
  {| pi_parameters := [path_requestBody];
     pi_operation := only_get collision_operation; pi_x_mcp := VUndefined |}.

(** A JSON request body described as ["outer"], whose schema is described
    as ["inner"]. *)
Definition body_heap : heap :=
  list_to_map
    [(1, OObject [("type", VStr "object"); ("description", VStr "inner")])].

Definition described_body : RequestBodyObject :=
  {| rb_description := Some "outer"; rb_required := true;
     rb_content := Some [("application/json", {| mt_schema := Some 1 |})] |}.

Definition body_operation : OperationObject :=
  {| op_operationId := Some "createPet"; op_description := None; op_summary := None;
     op_parameters := []; op_requestBody := Some described_body;
     op_security := SecurityAbsent; op_x_mcp := VUndefined |}.

(** ** Auxiliary notions for the properties of the extractor *)

(** The names the search tries, in order: the sanitized base, then the base
    with the suffixes [_1], [_2], ... *)
Definition candidate (baseName : string) (k : nat) : string :=
  match k with
  | O => baseName
  | S _ => suffixed baseName k
  end.

(** One declared operation: its path, path item, method and operation. *)
Definition occurrence : Type :=
  string * PathItemObject * HttpMethods * OperationObject.

Definition operations_of_path (path : string) (pathItem : PathItemObject)
    : list occurrence :=
  omap (fun m => (fun operation => (path, pathItem, m, operation))
                   <$> pi_operation pathItem m) http_methods.

(** The declared operations in the order the two loops visit them. *)
Definition declared_operations (api : Document) : list occurrence :=
  match api_paths api with
  | None => []
  | Some paths =>
      flat_map (fun entry => match entry.2 with
                             | Some pathItem => operations_of_path entry.1 pathItem
                             | None => []
                             end) paths
  end.

(** [operation.operationId || generateOperationId(method, path)] *)
Definition base_name (generateOperationId : string -> string -> string)
    (o : occurrence) : string :=
  let '(path, _, m, operation) := o in
  str_or (op_operationId operation) (generateOperationId (method_name m) path).

(** The operations that become tools: those the [try]/[catch] statement
    lets through and that have a non-empty base name. *)
Definition retained (generateOperationId : string -> string -> string)
    (inclusion_filter : Document -> PathItemObject -> OperationObject -> bool
                        -> filter_result)
    (api : Document) (defaultInclude : bool) (o : occurrence) : bool :=
  let '(path, pathItem, m, operation) := o in
  (apply_filter inclusion_filter api defaultInclude path pathItem m operation).1
  && negb (bool_decide (base_name generateOperationId o = "")).

(** The two loops as one loop over the declared operations. *)
Fixpoint process_occurrences (generateOperationId : string -> string -> string)
    (inclusion_filter : Document -> PathItemObject -> OperationObject -> bool
                        -> filter_result)
    (api : Document) (defaultInclude : bool) (os : list occurrence) (x : xstate)
    : option xstate :=
  match os with
  | [] => Some x
  | (path, pathItem, m, operation) :: rest =>
      match process_operation generateOperationId inclusion_filter api
              defaultInclude path pathItem m operation x with
      | Some x' =>
          process_occurrences generateOperationId inclusion_filter api
            defaultInclude rest x'
      | None => None
      end
  end.

(** Every tool of the list got the first candidate of its base that no
    earlier tool of the list had taken. *)
Definition named_in_turn (tools : list McpToolDefinition) : Prop :=
  forall i t,
    tools !! i = Some t ->
    exists k,
      name t = candidate (operationId t) k /\
      (forall j, j < k -> candidate (operationId t) j ∈ map name (take i tools)) /\
      name t ∉ map name (take i tools).

(** The security requirements of a tool as the specification words them:
    the operation's array when it declares one, else the document's, else
    none. *)
Definition spec_security (api : Document) (operation : OperationObject)
    : list SecurityRequirementObject :=
  match op_security operation with
  | SecurityArray reqs => reqs
  | SecurityAbsent | SecurityNull =>
      match api_security api with
      | SecurityArray reqs => reqs
      | SecurityAbsent | SecurityNull => []
      end
  end.

(** What a tool records of the operation it was built from. *)
Definition built_from (generateOperationId : string -> string -> string)
    (api : Document) (o : occurrence) (t : McpToolDefinition) : Prop :=
  let '(path, pathItem, m, operation) := o in
  operationId t = sanitize (base_name generateOperationId o) /\
  method t = m /\
  pathTemplate t = path /\
  securityRequirements t = spec_security api operation.

(** The loop invariant: the used names are the names of the tools, each
    assigned in turn. *)
Definition names_invariant (x : xstate) : Prop :=
  x_usedNames x = list_to_set (map name (x_tools x)) /\ named_in_turn (x_tools x).

(** The replacement of one character as the specification words it: a dot,
    or a character outside the class, becomes an underscore. *)
Definition spec_sanitize_char (c : ascii) : ascii :=
  if bool_decide (c = "."%char) || negb (is_name_char c) then "_"%char else c.

Definition initial_xstate (h : heap) : xstate :=
  {| x_tools := []; x_usedNames := ∅; x_heap := h; x_log := [] |}.

(** A filter that throws at once. *)
Definition throwing_filter (api : Document) (pathItem : PathItemObject)
    (operation : OperationObject) (defaultInclude : bool) : filter_result :=
  Thrown [].

(** No operation of the examples lacks an identifier. *)
Definition no_generated_id (method path : string) : string := "".

(** Two paths whose operations are [pets.list] and [pets_list]. *)
Definition dotted_path_item : PathItemObject :=
  {| pi_parameters := [];
     pi_operation := only_get (bare_operation (Some "pets.list") VUndefined);
     pi_x_mcp := VUndefined |}.

Definition underscored_path_item : PathItemObject :=
  {| pi_parameters := [];
     pi_operation := only_get (bare_operation (Some "pets_list") VUndefined);
     pi_x_mcp := VUndefined |}.

Definition dotted_document : Document :=
  {| api_paths := Some [("/pets", Some dotted_path_item)];
     api_security := SecurityAbsent; api_x_mcp := VUndefined |}.

Definition colliding_document : Document :=
  {| api_paths := Some [("/pets", Some dotted_path_item);
                        ("/v2/pets", Some underscored_path_item)];
     api_security := SecurityAbsent; api_x_mcp := VUndefined |}.

(** [{ type: 'integer', nullable: true }] *)
Definition nullable_integer_heap : heap :=
  list_to_map [(1, OObject [("type", VStr "integer"); ("nullable", VBool true)])].

(** An operation whose request body has only [text/plain] content. *)
Definition text_body_operation : OperationObject :=
  {| op_operationId := Some "upload"; op_description := None; op_summary := None;
     op_parameters := [];
     op_requestBody :=
       Some {| rb_description := None; rb_required := false;
               rb_content := Some [("text/plain", {| mt_schema := None |})] |};
     op_security := SecurityAbsent; op_x_mcp := VUndefined |}.

(** A path that declares [x-mcp: false] over an operation that declares
    [x-mcp: true]. *)
Definition overridden_path_item : PathItemObject :=
  {| pi_parameters := [];
     pi_operation := only_get (bare_operation (Some "listPets") (VBool true));
     pi_x_mcp := VBool false |}.

Definition overridden_document : Document :=
  {| api_paths := Some [("/pets", Some overridden_path_item)];
     api_security := SecurityAbsent; api_x_mcp := VUndefined |}.

(** ** Auxiliary notions for further properties of the extractor *)

Fixpoint string_forallb (p : ascii -> bool) (s : string) : bool :=
  match s with
  | EmptyString => true
  | String c s' => p c && string_forallb p s'
  end.

(** The tool that the loop body pushes for the operation [o], spelled out:
    [k] is the index of the candidate name that was free, and the input
    schema is the one generated from some state of the heap and the log. *)
Definition tool_of (generateOperationId : string -> string -> string)
    (api : Document) (o : occurrence) (t : McpToolDefinition) : Prop :=
  let '(path, pathItem, m, operation) := o in
  exists k h log details h' log',
    generateInputSchemaAndDetails operation pathItem h log = Some (details, h', log')
    /\ t = {| name := candidate (sanitize (base_name generateOperationId o)) k;
              description :=
                str_or (op_description operation)
                  (str_or (op_summary operation)
                     ("Executes " +:+ toUpperCase (method_name m) +:+ " " +:+ path));
              tool_inputSchema := inputSchema details;
              method := m;
              pathTemplate := path;
              tool_parameters := parameters details;
              executionParameters :=
                map (fun p => (p_name p, p_in p)) (parameters details);
              tool_requestBodyContentType := requestBodyContentType details;
              securityRequirements :=
                resolve_security (op_security operation) (global_security api);
              operationId := sanitize (base_name generateOperationId o) |}.

(** [s] is not empty and all its characters are in [[A-Za-z0-9_-]]. *)
Definition mcp_compatible (s : string) : Prop :=
  s <> "" /\ string_forallb is_name_char s = true.

(** The copy of a schema object as it stands before the nullable step:
    spread, [integer] turned into [number], OpenAPI-only keys deleted. *)
Definition initial_copy (o : object) : list (string * JSONSchema) :=
  delete_openapi_only
    (if bool_decide (get_prop o "type" = VStr "integer")
     then fields_set "type" (JRaw (VStr "number")) (spread o) else spread o).

(** A schema with fields of all sorts: [{ type: 'integer', nullable: true,
    format: 'int64', example: 7, deprecated: false, enum: [...] }]. *)
Definition decorated_heap : heap :=
  list_to_map
    [(1, OObject [("type", VStr "integer"); ("nullable", VBool true);
                  ("format", VStr "int64"); ("example", VNum 7);
                  ("deprecated", VBool false); ("enum", VRef 2)]);
     (2, OArray [VNum 1; VNum 2])].

(** The raw [x-mcp] value a diagnostic of the inclusion filter is about. *)
Definition diagnosed_raw (d : diagnostic) : option value :=
  match d with
  | InvalidXMcpOperation _ raw => Some raw
  | InvalidXMcpPath raw => Some raw
  | InvalidXMcpRoot raw _ => Some raw
  | _ => None
  end.

(** A document that declares [x-mcp: false] at its root and nothing at its
    two operations. *)
Definition root_excluded_document : Document :=
  {| api_paths := Some [("/pets", Some dotted_path_item);
                        ("/v2/pets", Some underscored_path_item)];
     api_security := SecurityAbsent; api_x_mcp := VStr "False" |}.

(** ** String helpers ([utils/helpers.ts]) *)

Definition backslash : ascii := ascii_of_N 92.
Definition backtick : ascii := ascii_of_N 96.

(** [s.replace(/c/g, r)] for a pattern that is one literal character. *)
Fixpoint replace_char (c : ascii) (r : string) (s : string) : string :=
  match s with
  | EmptyString => EmptyString
  | String a s' =>
      (if decide (a = c) then r else String a EmptyString) +:+ replace_char c r s'
  end.

(** [(str || '').replace(/\\/g, '\\\\').replace(/`/g, '\\`')]; on a string,
    [str || ''] is [str]. *)
Definition sanitizeForTemplate (str : string) : string :=
  replace_char backtick (String backslash (String backtick EmptyString))
    (replace_char backslash (String backslash (String backslash EmptyString)) str).

(** How a template literal reads its characters: a backslash takes the
    character after it along; any other character stands for itself. *)
Fixpoint unescape (s : string) : string :=
  match s with
  | EmptyString => EmptyString
  | String a rest =>
      if decide (a = backslash) then
        match rest with
        | EmptyString => String a EmptyString
        | String c rest' => String c (unescape rest')
        end
      else String a (unescape rest)
  end.

(** No backtick of [s] is bare, and no backslash is left alone at the end. *)
Fixpoint well_escaped (s : string) : bool :=
  match s with
  | EmptyString => true
  | String a rest =>
      if decide (a = backslash) then
        match rest with
        | EmptyString => false
        | String _ rest' => well_escaped rest'
        end
      else if decide (a = backtick) then false
      else well_escaped rest
  end.

Definition is_digit (c : ascii) : bool :=
  let n := N_of_ascii c in ((48 <=? n) && (n <=? 57))%N.

Definition is_ascii_letter (c : ascii) : bool :=
  let n := N_of_ascii c in
  ((97 <=? n) && (n <=? 122) || (65 <=? n) && (n <=? 90))%N.

Definition is_upper (c : ascii) : bool :=
  let n := N_of_ascii c in ((65 <=? n) && (n <=? 90))%N.

(** The class [[a-zA-Z0-9]]. *)
Definition is_alnum (c : ascii) : bool := is_ascii_letter c || is_digit c.

(** The class [\w]: [[A-Za-z0-9_]]. *)
Definition is_word_char (c : ascii) : bool :=
  is_alnum c || (N_of_ascii c =? 95)%N.

(** The class [[a-zA-Z0-9_$]]. *)
Definition is_var_char (c : ascii) : bool :=
  is_word_char c || (N_of_ascii c =? 36)%N.

(** The class [[a-zA-Z_$]]. *)
Definition is_var_start (c : ascii) : bool :=
  is_ascii_letter c || (N_of_ascii c =? 95)%N || (N_of_ascii c =? 36)%N.

Definition toValidVariableName (str : string) : string :=
  let sanitized := string_map (fun c => if is_var_char c then c else "_"%char) str in
  match sanitized with
  | String c _ => if is_digit c then String "_" sanitized else sanitized
  | EmptyString => sanitized
  end.

(** [/^[a-zA-Z_$][a-zA-Z0-9_$]*$/.test(str)] *)
Definition isValidIdentifier (str : string) : bool :=
  match str with
  | EmptyString => false
  | String c rest => is_var_start c && string_forallb is_var_char rest
  end.

Fixpoint string_filter (p : ascii -> bool) (s : string) : string :=
  match s with
  | EmptyString => EmptyString
  | String c s' => if p c then String c (string_filter p s') else string_filter p s'
  end.

(** [str.replace(/(?:^\w|[A-Z]|\b\w)/g, callback)].  Every match is one
    character: a word character at the start of the string or after a
    character that is no word character, or an upper-case letter.  The
    callback receives the character and its index; [after_word] tells
    whether the character before is a word character. *)
Fixpoint replace_word_starts (callback : ascii -> nat -> ascii) (index : nat)
    (after_word : bool) (s : string) : string :=
  match s with
  | EmptyString => EmptyString
  | String c rest =>
      String (if is_word_char c && negb after_word || is_upper c
              then callback c index else c)
        (replace_word_starts callback (S index) (is_word_char c) rest)
  end.

(** [.replace(/\s+/g, '').replace(/[^a-zA-Z0-9]/g, '')] *)
Definition strip_to_alnum (s : string) : string :=
  string_filter is_alnum (string_filter (fun c => negb (is_js_space c)) s).

Definition toCamelCase (str : string) : string :=
  strip_to_alnum
    (replace_word_starts
       (fun word index => if bool_decide (index = 0) then lower_char word
                          else upper_char word)
       0 false str).

Definition toPascalCase (str : string) : string :=
  strip_to_alnum (replace_word_starts (fun word _ => upper_char word) 0 false str).

(** [s.split(/\s+/)]: the pieces between the maximal runs of white space;
    a run at the start or at the end leaves an empty piece there, and the
    empty string has the one piece [""]. *)
Fixpoint split_spaces (s : string) : list string :=
  match s with
  | EmptyString => [EmptyString]
  | String c rest =>
      let pieces := split_spaces rest in
      if is_js_space c then
        match rest with
        | String c' _ => if is_js_space c' then pieces else EmptyString :: pieces
        | EmptyString => EmptyString :: pieces
        end
      else
        match pieces with
        | piece :: others => String c piece :: others
        | [] => [String c EmptyString]
        end
  end.

(** [lines.join(sep)] *)
Fixpoint join (sep : string) (lines : list string) : string :=
  match lines with
  | [] => EmptyString
  | [line] => line
  | line :: rest => line +:+ sep +:+ join sep rest
  end.

(** A number as far as a comparison with a length needs it: a finite
    value, given exactly as a rational (every finite double is one), an
    infinity, or NaN. *)
Inductive number : Type :=
  | Finite (q : QArith_base.Q)
  | PlusInfinity
  | MinusInfinity
  | NaN.

(** [n <= m] for a length [n]; a comparison with NaN is false. *)
Definition length_le (n : nat) (m : number) : bool :=
  match m with
  | Finite q => QArith_base.Qle_bool (QArith_base.inject_Z (Z.of_nat n)) q
  | PlusInfinity => true
  | MinusInfinity | NaN => false
  end.

(** The number an integer is; the default of [maxLineLength] is
    [number_of_nat 80]. *)
Definition number_of_nat (n : nat) : number :=
  Finite (QArith_base.inject_Z (Z.of_nat n)).

(** The callback of [words.forEach] in [formatComment], acting on [lines]
    and [currentLine]. *)
Definition add_word (maxLineLength : number) (acc : list string * string)
    (word : string) : list string * string :=
  let '(lines, currentLine) := acc in
  if length_le (String.length (currentLine +:+ " " +:+ word)) maxLineLength
  then (lines,
        currentLine +:+ (if bool_decide (currentLine = "") then "" else " ") +:+ word)
  else (lines ++ [currentLine], word).

(** The array [lines] when [formatComment] reaches its [return]. *)
Definition comment_lines (words : list string) (maxLineLength : number)
    : list string :=
  let '(lines, currentLine) := foldl (add_word maxLineLength) ([], EmptyString) words in
  if bool_decide (currentLine = "") then lines else lines ++ [currentLine].

(** The separator ["\n * "]. *)
Definition comment_separator : string := String (ascii_of_N 10) " * ".

Definition formatComment (str : string) (maxLineLength : number) : string :=
  if bool_decide (str = "") then ""
  else join comment_separator (comment_lines (split_spaces (trim str)) maxLineLength).

Definition starts_with_space (s : string) : bool :=
  match s with
  | String c _ => is_js_space c
  | EmptyString => false
  end.

Fixpoint ends_with_space (s : string) : bool :=
  match s with
  | EmptyString => false
  | String c EmptyString => is_js_space c
  | String _ rest => ends_with_space rest
  end.

(** A line is within [maxLineLength], or it is a single word; or it is
    the line of no word, when the limit does not even admit the empty line
    (it is negative or NaN). *)
Definition line_bound (maxLineLength : number) (g : list string) : Prop :=
  length_le (String.length (join " " g)) maxLineLength = true
  \/ (exists w, g = [w])
  \/ (g = [] /\ length_le 0 maxLineLength = false).

(** The lines of a comment are its words, in order, cut into groups and each
    group joined by single spaces; no group but the first may be empty, and
    a group that is longer than [maxLineLength] when joined is a single
    word. *)
Definition grouped (maxLineLength : number) (words : list string)
    (groups : list (list string)) (lines : list string) : Prop :=
  List.concat groups = words
  /\ lines = map (join " ") groups
  /\ Forall (fun g => g <> []) (tail groups)
  /\ Forall (line_bound maxLineLength) groups.

Definition no_space (w : string) : bool :=
  string_forallb (fun c => negb (is_js_space c)) w.

(** A word of a comment: not empty and without white space. *)
Definition is_word (w : string) : Prop := w <> "" /\ no_space w = true.

(** ** The programmatic interface ([api.ts])

    [getToolsFromOpenApi] called with a document (an object with an
    [openapi] key), the case in which nothing is read or parsed.
    [determineBaseUrl] of [utils/url.ts] is a parameter; like
    [options.filterFn] it is taken to return without throwing. *)

Record GetToolsOptions : Type := {
  opt_baseUrl : option string;
  dereference : option bool;
  excludeOperationIds : option (list string);
  filterFn : option (McpToolDefinition -> bool);
  opt_defaultInclude : option bool
}.

(** A returned tool, [{ ...tool, baseUrl }]. *)
Record ApiTool : Type := {
  api_tool : McpToolDefinition;
  baseUrl : string
}.

(** The filter by [options.excludeOperationIds], applied when the array is
    there and not empty. *)
Definition exclude_operations (ids : option (list string))
    (tools : list McpToolDefinition) : list McpToolDefinition :=
  match ids with
  | Some ((_ :: _) as excluded) =>
      List.filter (fun tool => negb (bool_decide (operationId tool ∈ excluded))) tools
  | _ => tools
  end.

(** The filter by [options.filterFn], applied when the function is there. *)
Definition apply_filterFn (fn : option (McpToolDefinition -> bool))
    (tools : list McpToolDefinition) : list McpToolDefinition :=
  match fn with
  | Some f => List.filter f tools
  | None => tools
  end.

Section Api.

Variable generateOperationId : string -> string -> string.
Variable determineBaseUrl : Document -> option string -> option string.

Definition getToolsFromOpenApi (api : Document) (options : GetToolsOptions)
    (h : heap) : option (list ApiTool * heap * list diagnostic) :=
  match extractToolsFromApi generateOperationId api
          (default true (opt_defaultInclude options)) h with
  | None => None
  | Some x =>
      let allTools := x_tools x in
      let base := determineBaseUrl api (opt_baseUrl options) in
      let filteredTools :=
        apply_filterFn (filterFn options)
          (exclude_operations (excludeOperationIds options) allTools) in
      Some (map (fun tool => {| api_tool := tool; baseUrl := str_or base "" |})
              filteredTools,
            x_heap x, x_log x)
  end.

End Api.

(** The same options with another list of excluded identifiers. *)
Definition with_excluded (ids : option (list string)) (options : GetToolsOptions)
    : GetToolsOptions :=
  {| opt_baseUrl := opt_baseUrl options;
     dereference := dereference options;
     excludeOperationIds := ids;
     filterFn := filterFn options;
     opt_defaultInclude := opt_defaultInclude options |}.

(** An identifier that sanitizing leaves as it is. *)
Definition is_sanitized (id : string) : bool := bool_decide (sanitize id = id).

(** A parameter the loop of [generateInputSchemaAndDetails] does not pass
    over: it has a name and a schema. *)
Definition has_schema (p : ParameterObject) : bool :=
  negb (bool_decide (p_name p = ""))
  && match p_schema p with Some _ => true | None => false end.

(** The names the loop pushes onto [required], in order. *)
Definition required_parameters (ps : list ParameterObject) : list string :=
  map p_name (List.filter (fun p => has_schema p && p_required p) ps).

(** What the request body adds to [required]: [requestBody], when a
    request body property was written (a content type is returned) and the
    request body is required. *)
Definition required_body (requestBody : option RequestBodyObject)
    (contentType : option string) : list string :=
  match requestBody, contentType with
  | Some opRequestBody, Some _ =>
      if rb_required opRequestBody then ["requestBody"] else []
  | _, _ => []
  end.

(** Whenever the recursive call [rec] returns, it has only added to the
    log. *)
Definition log_grows (rec : loc -> mstate -> option (JSONSchema * mstate)) : Prop :=
  forall l st r st',
    rec l st = Some (r, st') -> st_log st `prefix_of` st_log st'.

(** An operation whose query parameters are named [__proto__] (required),
    [10] and [2]. *)
Definition proto_parameter : ParameterObject :=
  {| p_name := "__proto__"; p_in := "query"; p_description := None;
     p_required := true; p_schema := Some 3 |}.

Definition parameter_10 : ParameterObject :=
  {| p_name := "10"; p_in := "query"; p_description := None;
     p_required := false; p_schema := Some 3 |}.

Definition parameter_2 : ParameterObject :=
  {| p_name := "2"; p_in := "query"; p_description := None;
     p_required := false; p_schema := Some 2 |}.

Definition odd_names_operation : OperationObject :=
  {| op_operationId := Some "search"; op_description := None; op_summary := None;
     op_parameters := [proto_parameter; parameter_10; parameter_2];
     op_requestBody := None; op_security := SecurityAbsent;
     op_x_mcp := VUndefined |}.

(** An object schema whose properties are [__proto__], a reference, and
    [b], a string. *)
Definition proto_properties_heap : heap :=
  list_to_map
    [(1, OObject [("type", VStr "object"); ("properties", VRef 2)]);
     (2, OObject [("__proto__", VRef 3); ("b", VRef 4)]);
     (3, OObject [("$ref", VStr "#/components/schemas/Pet")]);
     (4, OObject [("type", VStr "string")])].

(** A parameter whose name is the empty string. *)
Definition unnamed_parameter : ParameterObject :=
  {| p_name := ""; p_in := "query"; p_description := None;
     p_required := false; p_schema := Some 4 |}.

(** * Properties *)

(** ** C1: the inclusion filter *)

Lemma toLowerCase_true_like k : k ∈ true_like -> toLowerCase k = k.
Proof.
  unfold true_like. rewrite !elem_of_cons, elem_of_nil.
  intros [->|[->|[->|[->|[]]]]]; reflexivity.
Qed.

Lemma toLowerCase_false_like k : k ∈ false_like -> toLowerCase k = k.
Proof.
  unfold false_like. rewrite !elem_of_cons, elem_of_nil.
  intros [->|[->|[->|[->|[]]]]]; reflexivity.
Qed.

Lemma true_false_like_disjoint k : k ∈ true_like -> k ∈ false_like -> False.
Proof.
  unfold true_like, false_like. rewrite !elem_of_cons, !elem_of_nil.
  intros [->|[->|[->|[->|[]]]]] [?|[?|[?|[?|[]]]]]; discriminate.
Qed.

Lemma in_keywords_iff ks s :
  (forall k, k ∈ ks -> toLowerCase k = k) ->
  toLowerCase (trim s) ∈ ks <-> keyword_up_to_case_and_space ks s.
Proof.
  intros Hlow. unfold keyword_up_to_case_and_space, eq_ignore_case. split.
  - intros Hin. exists (toLowerCase (trim s)). split; [exact Hin|].
    apply bool_decide_eq_true. symmetry. now apply Hlow.
  - intros (k & Hk & Heq). apply bool_decide_eq_true in Heq.
    rewrite Heq, (Hlow k Hk). exact Hk.
Qed.

Lemma normalizeBoolean_string s b :
  normalizeBoolean (VStr s) = Some b <->
  keyword_up_to_case_and_space (if b then true_like else false_like) s.
Proof.
  cbn [normalizeBoolean]. fold true_like false_like.
  pose proof (in_keywords_iff true_like s toLowerCase_true_like) as Ht.
  pose proof (in_keywords_iff false_like s toLowerCase_false_like) as Hf.
  destruct (bool_decide (toLowerCase (trim s) ∈ true_like)) eqn:Et;
    [apply bool_decide_eq_true in Et | apply bool_decide_eq_false in Et];
    [|destruct (bool_decide (toLowerCase (trim s) ∈ false_like)) eqn:Ef;
      [apply bool_decide_eq_true in Ef | apply bool_decide_eq_false in Ef]];
    destruct b; split; intros Hb; try discriminate; try reflexivity; try tauto.
  exfalso. apply Hf in Hb. eapply true_false_like_disjoint; eassumption.
Qed.

Lemma normalizeBoolean_well_formed v b :
  normalizeBoolean v = Some b <->
  v = VBool b \/
  exists s, v = VStr s /\
            keyword_up_to_case_and_space (if b then true_like else false_like) s.
Proof.
  destruct v as [| |b'|n|s|l];
    try (split; [discriminate | intros [Hv|(s' & Hv & _)]; discriminate]).
  - cbn. split.
    + intros [= ->]. now left.
    + intros [[= ->]|(s' & Hv & _)]; [reflexivity | discriminate].
  - rewrite normalizeBoolean_string. split.
    + intros Hk. right. now exists s.
    + intros [Hv|(s' & [= <-] & Hk)]; [discriminate | exact Hk].
Qed.

(** C1, as the code has it.  A raw [x-mcp] value is well-formed iff it is a
    boolean, or a string that, once the white space around it is trimmed,
    equals one of the keywords up to letter case; and the decision is taken
    by the first well-formed value among operation, path and root, in this
    order, or is the default when there is none. *)
Theorem inclusion_follows_precedence :
  (forall v b,
     normalizeBoolean v = Some b <->
     v = VBool b \/
     exists s, v = VStr s /\
               keyword_up_to_case_and_space (if b then true_like else false_like) s)
  /\
  (forall api pathItem operation defaultInclude,
     (shouldIncludeOperationForMcp api pathItem operation defaultInclude).1 =
     resolve_by_precedence normalizeBoolean
       (op_x_mcp operation) (pi_x_mcp pathItem) (api_x_mcp api) defaultInclude).
Proof.
  split; [exact normalizeBoolean_well_formed|].
  intros api pathItem operation defaultInclude.
  unfold shouldIncludeOperationForMcp, resolve_by_precedence.
  destruct (normalizeBoolean (op_x_mcp operation)); [reflexivity|].
  destruct (normalizeBoolean (pi_x_mcp pathItem)); [reflexivity|].
  destruct (normalizeBoolean (api_x_mcp api)); reflexivity.
Qed.

(** C1 as stated fails: the operation-level string [" false "] is not equal
    to a keyword up to case, so by the claim the path-level [true] decides;
    the code trims it and excludes the operation. *)
Lemma padded_keyword_is_well_formed :
  (shouldIncludeOperationForMcp (bare_document VUndefined)
     (bare_path_item (VBool true))
     (bare_operation (Some "listPets") (VStr " false ")) true).1 = false
  /\ resolve_by_precedence spec_normalize
       (VStr " false ") (VBool true) VUndefined true = true.
Proof. split; reflexivity. Qed.

(** ** The schema mapper returns *)

Lemma add_null_type_dom js h js' h' :
  add_null_type js h = (js', h') -> dom h' = dom h.
Proof.
  unfold add_null_type. intros Heq.
  destruct (js_get "type" js) as [v|elems|fs].
  - destruct v as [| |b|n|s|lt]; try (destruct (truthy _)); try congruence.
    destruct (h !! lt) as [[fields|elems]|] eqn:Hlt; try congruence.
    destruct (includes _ _); [congruence|].
    injection Heq as _ <-.
    rewrite dom_insert_L. apply elem_of_dom_2 in Hlt.
    now apply subseteq_union_1_L, singleton_subseteq_l.
  - destruct (includes _ _); congruence.
  - congruence.
Qed.

Section MapperReturns.

Variable rec : loc -> mstate -> option (JSONSchema * mstate).
Variables D S : gset loc.
Hypothesis Hrec : returns_on rec D S.

Lemma map_properties_returns entries : forall mappedProps st,
  dom (st_heap st) = D -> st_seen st = S ->
  exists mapped st',
    map_properties rec entries mappedProps st = Some (mapped, st') /\
    dom (st_heap st') = D /\ st_seen st' = S.
Proof.
  induction entries as [|[key propSchema] rest IH]; intros mappedProps st HD HS.
  - cbn. eauto.
  - cbn. destruct propSchema as [| |b|n|s|l]; try (apply IH; assumption).
    destruct (Hrec l st HD HS) as (r & st1 & -> & HD1 & HS1).
    apply IH; assumption.
Qed.

Lemma process_properties_returns js st :
  dom (st_heap st) = D -> st_seen st = S ->
  exists js' st',
    process_properties rec js st = Some (js', st') /\
    dom (st_heap st') = D /\ st_seen st' = S.
Proof.
  intros HD HS. unfold process_properties.
  destruct (strict_eq_str _ _); [|eauto].
  destruct (js_get "properties" js) as [props| |]; eauto.
  destruct (truthy props); [|eauto].
  destruct (map_properties_returns (entries_of_value (st_heap st) props) [] st HD HS)
    as (m' & s' & -> & ? & ?).
  eauto.
Qed.

Lemma process_items_returns js st :
  dom (st_heap st) = D -> st_seen st = S ->
  exists js' st',
    process_items rec js st = Some (js', st') /\
    dom (st_heap st') = D /\ st_seen st' = S.
Proof.
  intros HD HS. unfold process_items.
  destruct (strict_eq_str _ _); [|eauto].
  destruct (js_get "items" js) as [[| | | | |items]| |]; eauto.
  destruct (Hrec items st HD HS) as (r' & s' & -> & ? & ?).
  eauto.
Qed.

Lemma map_body_returns o st :
  dom (st_heap st) = D -> st_seen st = S ->
  exists r st',
    map_body rec o st = Some (r, st') /\
    dom (st_heap st') = D /\ st_seen st' = S.
Proof.
  intros HD HS. unfold map_body.
  set (js0 := delete_openapi_only _). clearbody js0.
  assert (exists js1 st1,
    (if truthy (get_prop o "nullable")
     then let '(js, h) := add_null_type js0 (st_heap st) in (js, set_heap h st)
     else (js0, st)) = (js1, st1) /\
    dom (st_heap st1) = D /\ st_seen st1 = S) as (js1 & st1 & -> & HD1 & HS1).
  { destruct (truthy _); [|eauto].
    destruct (add_null_type js0 (st_heap st)) as [js h] eqn:Hadd.
    apply add_null_type_dom in Hadd. eexists _, _. split; [reflexivity|].
    cbn. split; congruence. }
  destruct (process_properties_returns js1 st1 HD1 HS1) as (js2 & st2 & -> & HD2 & HS2).
  destruct (process_items_returns js2 st2 HD2 HS2) as (js3 & st3 & -> & HD3 & HS3).
  eauto.
Qed.

End MapperReturns.

Lemma visiting_shrinks_measure (D seen : gset loc) (schema : loc) :
  schema ∈ D -> schema ∉ seen ->
  size (D ∖ ({[schema]} ∪ seen)) < size (D ∖ seen).
Proof.
  intros Hin Hout. apply subset_size. split.
  - intros x. rewrite !elem_of_difference, elem_of_union. tauto.
  - intros Hsub. specialize (Hsub schema).
    rewrite !elem_of_difference, elem_of_union, elem_of_singleton in Hsub.
    tauto.
Qed.

Lemma leave_restores_seen (seen : gset loc) (schema : loc) :
  schema ∉ seen -> ({[schema]} ∪ seen) ∖ {[schema]} = seen.
Proof.
  intros Hout. apply set_eq. intros x.
  rewrite elem_of_difference, elem_of_union, elem_of_singleton.
  split; [tauto|]. intros Hx. split; [tauto|]. congruence.
Qed.

Lemma map_body_empty_object rec st :
  map_body rec (OObject []) st = Some (JObject [], st).
Proof. reflexivity. Qed.

(** With more fuel than there are heap objects outside the visiting set, the
    mapper returns; the visiting set is then what it was before the call and
    the heap holds the same objects. *)
Lemma mapper_returns fuel : forall schema st,
  size (dom (st_heap st) ∖ st_seen st) < fuel ->
  exists r st',
    mapOpenApiSchemaToJsonSchema fuel schema st = Some (r, st') /\
    dom (st_heap st') = dom (st_heap st) /\ st_seen st' = st_seen st.
Proof.
  induction fuel as [|fuel IH]; intros schema st Hlt; [lia|].
  cbn [mapOpenApiSchemaToJsonSchema].
  destruct (assoc_get "$ref" _) as [ref|]; [cbn; eauto|].
  destruct (decide (schema ∈ st_seen st)) as [Hseen|Hseen]; [cbn; eauto|].
  destruct (decide (schema ∈ dom (st_heap st))) as [Hin|Hout].
  - assert (returns_on (mapOpenApiSchemaToJsonSchema fuel)
              (dom (st_heap st)) ({[schema]} ∪ st_seen st)) as Hrec.
    { intros l st0 HD HS.
      destruct (IH l st0) as (r & st' & Hr & HD' & HS').
      - rewrite HD, HS.
        pose proof (visiting_shrinks_measure _ _ _ Hin Hseen). lia.
      - exists r, st'. rewrite Hr, HD', HS'. auto. }
    destruct (map_body_returns _ _ _ Hrec (heap_get (st_heap st) schema)
                (seen_add schema st) eq_refl eq_refl) as (r & st' & -> & HD' & HS').
    exists r, (seen_delete schema st'). split; [reflexivity|]. cbn.
    split; [exact HD'|]. rewrite HS'. now apply leave_restores_seen.
  - unfold heap_get at 1. rewrite (not_elem_of_dom_1 _ _ Hout). cbn [default].
    rewrite map_body_empty_object.
    eexists _, _. split; [reflexivity|]. cbn. split; [reflexivity|].
    now apply leave_restores_seen.
Qed.

Lemma map_schema_returns schema h log :
  exists r h' log',
    map_schema schema h log = Some (r, h', log') /\ dom h' = dom h.
Proof.
  unfold map_schema.
  destruct (mapper_returns (S (size h)) schema
              {| st_heap := h; st_seen := ∅; st_log := log |})
    as (r & st' & -> & HD & _).
  - cbn. rewrite difference_empty_L, size_dom. lia.
  - eauto.
Qed.

(** ** C2: termination and cycle protection *)

(** C2, as the code has it.  Whatever the heap, cyclic or not, the mapper
    returns as soon as the fuel exceeds the number of heap objects that are
    not on the active path; the objects it has created form the finite tree
    [r], whose leaves are the values copied from the source.  The visiting
    set after the call is the set before it.  A schema that is on the active
    path is not descended into: the result is [{ type: 'object' }], the heap
    is untouched and one diagnostic is written.  A schema that is not on the
    path (and is no [$ref]) is mapped by the body run with the schema added
    to the visiting set, and the schema is deleted from the set when the body
    has returned. *)
Theorem mapper_terminates_cutting_cycles
    (h : heap) (seen : gset loc) (log : list diagnostic) (schema : loc)
    (fuel : nat) :
  size (dom h ∖ seen) < fuel ->
  exists r st',
    mapOpenApiSchemaToJsonSchema fuel schema
      {| st_heap := h; st_seen := seen; st_log := log |} = Some (r, st')
    /\ st_seen st' = seen
    /\ (schema ∈ seen ->
        r = generic_object /\ st_heap st' = h /\ exists d, st_log st' = log ++ [d])
    /\ (schema ∉ seen ->
        assoc_get "$ref" (own_entries (heap_get h schema)) = None ->
        exists fuel' st'',
          fuel = S fuel' /\
          map_body (mapOpenApiSchemaToJsonSchema fuel') (heap_get h schema)
            {| st_heap := h; st_seen := {[schema]} ∪ seen; st_log := log |}
          = Some (r, st'') /\
          st' = seen_delete schema st'').
Proof.
  intros Hfuel.
  destruct (mapper_returns fuel schema
              {| st_heap := h; st_seen := seen; st_log := log |} Hfuel)
    as (r & st' & Hr & _ & HS).
  exists r, st'. split; [exact Hr|]. split; [exact HS|].
  destruct fuel as [|fuel']; [lia|].
  cbn [mapOpenApiSchemaToJsonSchema st_heap st_seen] in Hr.
  split.
  - intros Hin.
    destruct (assoc_get "$ref" _) as [ref|].
    + injection Hr as <- <-. cbn. eauto.
    + destruct (decide (schema ∈ seen)) as [_|Hout]; [|contradiction].
      injection Hr as <- <-. cbn. eauto.
  - intros Hout Href. rewrite Href in Hr.
    destruct (decide (schema ∈ seen)) as [Hin|_]; [contradiction|].
    unfold seen_add in Hr. cbn [st_heap st_seen st_log] in Hr.
    destruct (map_body _ _ _) as [[r0 st0]|] eqn:Hbody; [|discriminate].
    injection Hr as <- <-. exists fuel', st0. auto.
Qed.

Lemma mapper_terminates_on_cyclic_heap :
  exists r st',
    mapOpenApiSchemaToJsonSchema 4 1
      {| st_heap := cyclic_heap; st_seen := ∅; st_log := [] |} = Some (r, st')
    /\ st_seen st' = ∅
    /\ (1 ∈ (∅ : gset loc) ->
        r = generic_object /\ st_heap st' = cyclic_heap /\
        exists d, st_log st' = [] ++ [d])
    /\ (1 ∉ (∅ : gset loc) ->
        assoc_get "$ref" (own_entries (heap_get cyclic_heap 1)) = None ->
        exists fuel' st'',
          4 = S fuel' /\
          map_body (mapOpenApiSchemaToJsonSchema fuel') (heap_get cyclic_heap 1)
            {| st_heap := cyclic_heap; st_seen := {[1]} ∪ ∅; st_log := [] |}
          = Some (r, st'') /\
          st' = seen_delete 1 st'').
Proof.
  apply (mapper_terminates_cutting_cycles cyclic_heap ∅ [] 1 4).
  vm_compute. lia.
Defined.

(** A direct self-reference: the property [self] of the result is the
    generic object; the leaf shared by [left] and [right] is no cycle and is
    mapped in full both times. *)
Example self_reference_is_cut :
  map_schema 1 cyclic_heap [] =
  Some (JObject
          [("title", JRaw (VStr "Node")); ("type", JRaw (VStr "object"));
           ("properties",
            JObject [("self", generic_object);
                     ("left", JObject [("type", JRaw (VStr "number"))]);
                     ("right", JObject [("type", JRaw (VStr "number"))])])],
        cyclic_heap, [CycleDetected (VStr "Node")]).
Proof. vm_compute. reflexivity. Qed.

(** A transitive self-reference through [items]. *)
Example items_cycle_is_cut :
  map_schema 1 cyclic_items_heap [] =
  Some (JObject
          [("type", JRaw (VStr "array"));
           ("items", JObject [("type", JRaw (VStr "array"));
                              ("items", generic_object)])],
        cyclic_items_heap, [CycleDetected VUndefined]).
Proof. vm_compute. reflexivity. Qed.

(** C2 as stated fails: the result need not be a finite tree.  The mapper
    descends into [properties] only under the guard
    [jsonSchema.type === 'object']; for a schema that declares no type the
    [properties] of the result is the very object of the source, from which
    the schema, and so that object again, can be reached. *)
Lemma result_shares_a_cycle_of_the_source :
  map_schema 1 untyped_cyclic_heap [] =
    Some (JObject [("properties", JRaw (VRef 2))], untyped_cyclic_heap, [])
  /\ points_to untyped_cyclic_heap 2 1
  /\ points_to untyped_cyclic_heap 1 2.
Proof.
  split; [vm_compute; reflexivity|].
  unfold points_to. split; vm_compute; set_solver.
Qed.

(** ** Reading and writing fields *)

Lemma assoc_get_assoc_set_eq {A} k (x : A) fs :
  assoc_get k (assoc_set k x fs) = Some x.
Proof.
  induction fs as [|[k' y] fs IH]; cbn.
  - now destruct (decide (k = k)).
  - destruct (decide (k' = k)) as [->|Hne]; cbn.
    + now destruct (decide (k = k)).
    + now destruct (decide (k' = k)).
Qed.

Lemma assoc_get_assoc_set_ne {A} k k' (x : A) fs :
  k <> k' -> assoc_get k' (assoc_set k x fs) = assoc_get k' fs.
Proof.
  intros Hne. induction fs as [|[k0 y] fs IH]; cbn.
  - now destruct (decide (k = k')).
  - destruct (decide (k0 = k)) as [->|Hne0]; cbn.
    + destruct (decide (k = k')); [contradiction|reflexivity].
    + destruct (decide (k0 = k')); [reflexivity|exact IH].
Qed.

Lemma assoc_get_fields_delete_ne {A} k k' (fs : list (string * A)) :
  k <> k' -> assoc_get k' (fields_delete k fs) = assoc_get k' fs.
Proof.
  intros Hne. induction fs as [|[k0 y] fs IH]; cbn; [reflexivity|].
  destruct (decide (k0 = k)) as [->|Hne0]; cbn.
  - destruct (decide (k = k')); [contradiction|exact IH].
  - destruct (decide (k0 = k')); [reflexivity|exact IH].
Qed.

Lemma assoc_get_None {A} k (fs : list (string * A)) :
  assoc_get k fs = None <-> k ∉ fs.*1.
Proof.
  induction fs as [|[k0 y] fs IH]; cbn.
  - split; [intros _; apply not_elem_of_nil | reflexivity].
  - rewrite not_elem_of_cons. destruct (decide (k0 = k)) as [->|Hne].
    + split; [discriminate | intros [Hk _]; contradiction].
    + rewrite IH. split; [intros Hk; split; [congruence|exact Hk] | tauto].
Qed.

Lemma assoc_set_fresh {A} k (x : A) fs :
  k ∉ fs.*1 -> assoc_set k x fs = fs ++ [(k, x)].
Proof.
  induction fs as [|[k0 y] fs IH]; cbn; [reflexivity|].
  rewrite not_elem_of_cons. intros [Hne Hk].
  destruct (decide (k0 = k)); [congruence|]. now rewrite IH.
Qed.

Lemma assoc_set_keys {A} k k' (x : A) fs :
  k' ∈ (assoc_set k x fs).*1 <-> k' = k \/ k' ∈ fs.*1.
Proof.
  induction fs as [|[k0 y] fs IH]; cbn.
  - rewrite list_elem_of_singleton, elem_of_nil. tauto.
  - destruct (decide (k0 = k)) as [->|Hne]; cbn; rewrite !elem_of_cons.
    + tauto.
    + rewrite IH. tauto.
Qed.

Lemma assoc_get_fields_add_eq {A} k (x : A) fs :
  assoc_get k fs = None -> assoc_get k (fields_add k x fs) = Some x.
Proof.
  induction fs as [|[k0 y] fs IH]; cbn.
  - now destruct (decide (k = k)).
  - destruct (decide (k0 = k)) as [->|Hne]; [discriminate|]. intros Hnone.
    destruct (enumerated_before k k0); cbn.
    + now destruct (decide (k = k)).
    + destruct (decide (k0 = k)); [contradiction|now apply IH].
Qed.

Lemma assoc_get_fields_add_ne {A} k k' (x : A) fs :
  k <> k' -> assoc_get k' (fields_add k x fs) = assoc_get k' fs.
Proof.
  intros Hne. induction fs as [|[k0 y] fs IH]; cbn.
  - now destruct (decide (k = k')).
  - destruct (enumerated_before k k0); cbn.
    + destruct (decide (k = k')); [contradiction|reflexivity].
    + destruct (decide (k0 = k')); [reflexivity|exact IH].
Qed.

Lemma fields_add_keys {A} k k' (x : A) fs :
  k' ∈ (fields_add k x fs).*1 <-> k' = k \/ k' ∈ fs.*1.
Proof.
  induction fs as [|[k0 y] fs IH]; cbn.
  - rewrite list_elem_of_singleton, elem_of_nil. tauto.
  - destruct (enumerated_before k k0); cbn; rewrite !elem_of_cons.
    + tauto.
    + rewrite IH. tauto.
Qed.

(** A key that is no array index goes to the end. *)
Lemma fields_add_ordinary {A} k (x : A) fs :
  array_index k = None -> fields_add k x fs = fs ++ [(k, x)].
Proof.
  intros Hk. induction fs as [|[k0 y] fs IH]; cbn; [reflexivity|].
  unfold enumerated_before. rewrite Hk. now rewrite IH.
Qed.

(** On a key that is neither an array index nor [__proto__], an assignment
    writes in place or appends. *)
Lemma fields_set_ordinary {A} k (x : A) fs :
  array_index k = None -> k <> "__proto__" -> fields_set k x fs = assoc_set k x fs.
Proof.
  intros Hk Hproto. unfold fields_set.
  destruct (assoc_get k fs) eqn:Hget; [reflexivity|].
  rewrite bool_decide_eq_false_2 by exact Hproto.
  rewrite fields_add_ordinary by exact Hk.
  symmetry. now apply assoc_set_fresh, assoc_get_None.
Qed.

Lemma assoc_get_fields_set_eq {A} k (x : A) fs :
  k <> "__proto__" -> assoc_get k (fields_set k x fs) = Some x.
Proof.
  intros Hproto. unfold fields_set.
  destruct (assoc_get k fs) eqn:Hget; [apply assoc_get_assoc_set_eq|].
  rewrite bool_decide_eq_false_2 by exact Hproto.
  now apply assoc_get_fields_add_eq.
Qed.

Lemma assoc_get_fields_set_ne {A} k k' (x : A) fs :
  k <> k' -> assoc_get k' (fields_set k x fs) = assoc_get k' fs.
Proof.
  intros Hne. unfold fields_set.
  destruct (assoc_get k fs); [now apply assoc_get_assoc_set_ne|].
  destruct (bool_decide (k = "__proto__")); [reflexivity|].
  now apply assoc_get_fields_add_ne.
Qed.

(** An assignment to [__proto__] creates no own property. *)
Lemma fields_set_proto {A} (x : A) fs :
  assoc_get "__proto__" fs = None -> fields_set "__proto__" x fs = fs.
Proof. intros Hget. unfold fields_set. now rewrite Hget. Qed.

Lemma fields_set_keys {A} k k' (x : A) fs :
  k' ∈ (fields_set k x fs).*1 <->
  (k' = k /\ (k <> "__proto__" \/ k ∈ fs.*1)) \/ k' ∈ fs.*1.
Proof.
  unfold fields_set. destruct (assoc_get k fs) eqn:Hget.
  - assert (k ∈ fs.*1) as Hin.
    { destruct (decide (k ∈ fs.*1)) as [|Hout]; [assumption|].
      apply assoc_get_None in Hout. congruence. }
    rewrite assoc_set_keys. split; [intros [->|?]; auto|intros [[-> _]|?]; auto].
  - apply assoc_get_None in Hget.
    destruct (bool_decide (k = "__proto__")) eqn:Hproto.
    + apply bool_decide_eq_true in Hproto.
      split; [auto|]. intros [[-> [Hne|Hin]]|Hin]; [contradiction|contradiction|exact Hin].
    + apply bool_decide_eq_false in Hproto. rewrite fields_add_keys.
      split; [intros [->|?]; auto|intros [[-> _]|?]; auto].
Qed.

Lemma assoc_get_spread k o :
  assoc_get k (spread o) = JRaw <$> assoc_get k (own_entries o).
Proof.
  unfold spread. induction (own_entries o) as [|[k0 v] fs IH]; cbn; [reflexivity|].
  destruct (decide (k0 = k)); [reflexivity|exact IH].
Qed.

Lemma assoc_get_delete_openapi_only k js :
  k ∉ openapi_only -> assoc_get k (delete_openapi_only js) = assoc_get k js.
Proof.
  unfold delete_openapi_only, openapi_only. rewrite !not_elem_of_cons.
  intros (? & ? & ? & ? & ? & ? & ? & _). cbn.
  rewrite !assoc_get_fields_delete_ne by congruence. reflexivity.
Qed.

(** ** C10: the entries of a properties map *)

Section PropertiesLoop.

Variable rec : loc -> mstate -> option (JSONSchema * mstate).
Variables D S : gset loc.
Hypothesis Hrec : returns_on rec D S.

(** The loop returns; what it did for each entry in turn is what
    [entry_result] says, and the map it built holds, under a key that stands
    once among the entries and is not [__proto__], what was stored for that
    entry, and no key that is not among the entries. *)
Lemma map_properties_spec entries : forall mappedProps st,
  NoDup entries.*1 ->
  dom (st_heap st) = D -> st_seen st = S ->
  exists outs mapped st',
    map_properties rec entries mappedProps st = Some (mapped, st') /\
    in_turn (entry_result rec) st entries outs st' /\
    (forall key, key ∉ entries.*1 ->
       assoc_get key mapped = assoc_get key mappedProps) /\
    (forall i key v out,
       entries !! i = Some (key, v) -> outs !! i = Some out ->
       key <> "__proto__" -> assoc_get key mappedProps = None ->
       assoc_get key mapped = out) /\
    dom (st_heap st') = D /\ st_seen st' = S.
Proof.
  induction entries as [|[key propSchema] rest IH]; intros mappedProps st Hnd HD HS.
  - exists [], mappedProps, st. cbn. repeat split; auto.
    intros i key v out Hi. discriminate.
  - cbn [fmap list_fmap fst] in Hnd. apply NoDup_cons in Hnd as [Hkey Hnd].
    assert (forall (out : option JSONSchema) st1 m1 outs mapped st',
              entry_result rec st (key, propSchema) out st1 ->
              m1 = match out with
                   | Some r => fields_set key r mappedProps
                   | None => mappedProps
                   end ->
              in_turn (entry_result rec) st1 rest outs st' ->
              (forall k, k ∉ rest.*1 -> assoc_get k mapped = assoc_get k m1) ->
              (forall i k v o,
                 rest !! i = Some (k, v) -> outs !! i = Some o ->
                 k <> "__proto__" -> assoc_get k m1 = None ->
                 assoc_get k mapped = o) ->
              in_turn (entry_result rec) st ((key, propSchema) :: rest)
                (out :: outs) st' /\
              (forall k, k ∉ ((key, propSchema) :: rest).*1 ->
                 assoc_get k mapped = assoc_get k mappedProps) /\
              (forall i k v o,
                 ((key, propSchema) :: rest) !! i = Some (k, v) ->
                 (out :: outs) !! i = Some o ->
                 k <> "__proto__" -> assoc_get k mappedProps = None ->
                 assoc_get k mapped = o)) as Hstep.
    { intros out st1 m1 outs mapped st' Hout Hm1 Hturn Hother Hlook.
      assert (forall k, k <> key -> assoc_get k m1 = assoc_get k mappedProps) as Hm1ne.
      { intros k Hne. subst m1. destruct out; [|reflexivity].
        apply assoc_get_fields_set_ne. congruence. }
      split; [|split].
      - cbn [in_turn]. exists st1. split; assumption.
      - intros k Hk. cbn [fmap list_fmap fst] in Hk.
        apply not_elem_of_cons in Hk as [Hne Hk].
        rewrite Hother by exact Hk. now apply Hm1ne.
      - intros [|i] k v o Hi Ho Hproto Hnone.
        + cbn in Hi, Ho. injection Hi as -> ->. injection Ho as ->.
          rewrite Hother by exact Hkey. subst m1. destruct o as [r|].
          * now apply assoc_get_fields_set_eq.
          * exact Hnone.
        + cbn in Hi, Ho. apply (Hlook i k v o Hi Ho Hproto).
          rewrite Hm1ne; [exact Hnone|].
          intros ->. apply Hkey.
          apply list_elem_of_lookup_2 in Hi. now apply (list_elem_of_fmap_2 fst) in Hi. }
    cbn [map_properties].
    destruct propSchema as [| |b|n|s|l].
    1,2,4,5:
      destruct (IH mappedProps st Hnd HD HS)
        as (outs & mapped & st' & Hm & Hturn & Hother & Hlook & HD' & HS');
      exists (None :: outs), mapped, st'; split; [exact Hm|];
      destruct (Hstep None st mappedProps outs mapped st') as (H1 & H2 & H3);
        auto; cbn; auto.
    + destruct (IH (fields_set key (JRaw (VBool b)) mappedProps) st Hnd HD HS)
        as (outs & mapped & st' & Hm & Hturn & Hother & Hlook & HD' & HS').
      exists (Some (JRaw (VBool b)) :: outs), mapped, st'. split; [exact Hm|].
      destruct (Hstep (Some (JRaw (VBool b))) st _ outs mapped st' ltac:(cbn; auto)
                  eq_refl Hturn Hother Hlook) as (H1 & H2 & H3).
      auto.
    + destruct (Hrec l st HD HS) as (r & st1 & Hr & HD1 & HS1). rewrite Hr.
      destruct (IH (fields_set key r mappedProps) st1 Hnd HD1 HS1)
        as (outs & mapped & st' & Hm & Hturn & Hother & Hlook & HD' & HS').
      exists (Some r :: outs), mapped, st'. split; [exact Hm|].
      destruct (Hstep (Some r) st1 _ outs mapped st' ltac:(cbn; eauto)
                  eq_refl Hturn Hother Hlook) as (H1 & H2 & H3).
      auto.
Qed.

End PropertiesLoop.

Lemma mapper_returns_on fuel (h : heap) (seen : gset loc) schema :
  size (dom h ∖ seen) < S fuel -> schema ∈ dom h -> schema ∉ seen ->
  returns_on (mapOpenApiSchemaToJsonSchema fuel) (dom h) ({[schema]} ∪ seen).
Proof.
  intros Hfuel Hin Hout l st HD HS.
  destruct (mapper_returns fuel l st) as (r & st' & Hr & HD' & HS').
  - rewrite HD, HS. pose proof (visiting_shrinks_measure _ _ _ Hin Hout). lia.
  - exists r, st'. rewrite Hr, HD', HS'. auto.
Qed.

Lemma js_get_copy k o :
  k ∉ openapi_only ->
  js_get k (delete_openapi_only (spread o)) = JRaw (get_prop o k).
Proof.
  intros Hk. unfold js_get, get_prop.
  rewrite assoc_get_delete_openapi_only, assoc_get_spread by exact Hk.
  now destruct (assoc_get k (own_entries o)).
Qed.

Lemma js_get_fields_set_ne k k' x js :
  k <> k' -> js_get k' (fields_set k x js) = js_get k' js.
Proof. intros Hne. unfold js_get. now rewrite assoc_get_fields_set_ne. Qed.

Lemma heap_get_dangling (h : heap) l : l ∉ dom h -> heap_get h l = OObject [].
Proof. intros Hout. unfold heap_get. now rewrite (not_elem_of_dom_1 _ _ Hout). Qed.

(** C10, as the code has it.  Let a schema be mapped whose type is
    ['object'] and stays so (the schema is not nullable), and whose
    [properties] is truthy.  Then the result has a fresh [properties] map,
    built from the entries of the source's map taken in turn: an entry whose
    value is an object is handed to the recursive call, made with the schema
    on the active path and in the state the entries before it left, and the
    result of that call is stored under the key of the entry; a boolean is
    stored as it is; an entry whose value is anything else ([null], a
    number, a string, [undefined]) leaves no key.  The map has no other key.
    (What an entry under the key [__proto__] leaves is not stated.) *)
Theorem properties_entries_dropped_or_mapped
    (h : heap) (seen : gset loc) (log : list diagnostic) (schema : loc)
    (fuel : nat) (props : value) :
  size (dom h ∖ seen) < S fuel ->
  schema ∉ seen ->
  assoc_get "$ref" (own_entries (heap_get h schema)) = None ->
  get_prop (heap_get h schema) "type" = VStr "object" ->
  truthy (get_prop (heap_get h schema) "nullable") = false ->
  get_prop (heap_get h schema) "properties" = props ->
  truthy props = true ->
  NoDup (entries_of_value h props).*1 ->
  exists fs mapped outs st1,
    mapOpenApiSchemaToJsonSchema (S fuel) schema
      {| st_heap := h; st_seen := seen; st_log := log |} =
      Some (JObject fs, seen_delete schema st1)
    /\ assoc_get "properties" fs = Some (JObject mapped)
    /\ in_turn (entry_result (mapOpenApiSchemaToJsonSchema fuel))
         {| st_heap := h; st_seen := {[schema]} ∪ seen; st_log := log |}
         (entries_of_value h props) outs st1
    /\ (forall i key v out,
          entries_of_value h props !! i = Some (key, v) ->
          outs !! i = Some out ->
          key <> "__proto__" ->
          assoc_get key mapped = out)
    /\ (forall key, key ∈ mapped.*1 -> key ∈ (entries_of_value h props).*1).
Proof.
  intros Hfuel Hout Href Htype Hnull Hprops Htruthy Hnd.
  assert (schema ∈ dom h) as Hin.
  { destruct (decide (schema ∈ dom h)) as [|Hdangling]; [assumption|].
    rewrite (heap_get_dangling _ _ Hdangling) in Htype. discriminate. }
  pose proof (mapper_returns_on fuel h seen schema Hfuel Hin Hout) as Hrec.
  cbn [mapOpenApiSchemaToJsonSchema st_heap st_seen]. rewrite Href.
  destruct (decide (schema ∈ seen)) as [|_]; [contradiction|].
  unfold map_body. rewrite Htype, Hnull.
  rewrite bool_decide_eq_false_2 by discriminate.
  set (js := delete_openapi_only (spread (heap_get h schema))).
  assert (js_get "type" js = JRaw (VStr "object")) as Hjstype.
  { unfold js. rewrite js_get_copy, Htype; [reflexivity|].
    unfold openapi_only. rewrite !not_elem_of_cons. repeat split; try discriminate.
    apply not_elem_of_nil. }
  assert (js_get "properties" js = JRaw props) as Hjsprops.
  { unfold js. rewrite js_get_copy, Hprops; [reflexivity|].
    unfold openapi_only. rewrite !not_elem_of_cons. repeat split; try discriminate.
    apply not_elem_of_nil. }
  unfold process_properties. rewrite Hjstype, Hjsprops, Htruthy.
  cbn [strict_eq_str]. rewrite bool_decide_eq_true_2 by reflexivity.
  destruct (map_properties_spec _ _ _ Hrec (entries_of_value h props) []
              (seen_add schema {| st_heap := h; st_seen := seen; st_log := log |}))
    as (outs & mapped & st1 & Hm & Hturn & Hother & Hlook & HD1 & HS1); auto.
  cbn [seen_add st_heap st_seen st_log] in Hm, Hturn |- *. rewrite Hm.
  unfold process_items.
  rewrite js_get_fields_set_ne, Hjstype by discriminate.
  cbn [strict_eq_str]. rewrite bool_decide_eq_false_2 by discriminate.
  eexists _, mapped, outs, st1. split; [reflexivity|].
  split; [apply assoc_get_fields_set_eq; discriminate|].
  split; [exact Hturn|]. split.
  - intros i key v out Hi Ho Hproto. now apply (Hlook i key v out).
  - intros key Hkey.
    destruct (decide (key ∈ (entries_of_value h props).*1)) as [|Habsent];
      [assumption|].
    apply Hother in Habsent. cbn in Habsent.
    apply assoc_get_None in Habsent. contradiction.
Qed.

Lemma mixed_properties_are_filtered :
  exists fs mapped outs st1,
    mapOpenApiSchemaToJsonSchema 4 1
      {| st_heap := mixed_properties_heap; st_seen := ∅; st_log := [] |} =
      Some (JObject fs, seen_delete 1 st1)
    /\ assoc_get "properties" fs = Some (JObject mapped)
    /\ in_turn (entry_result (mapOpenApiSchemaToJsonSchema 3))
         {| st_heap := mixed_properties_heap; st_seen := {[1]} ∪ ∅; st_log := [] |}
         (entries_of_value mixed_properties_heap (VRef 2)) outs st1
    /\ (forall i key v out,
          entries_of_value mixed_properties_heap (VRef 2) !! i = Some (key, v) ->
          outs !! i = Some out ->
          key <> "__proto__" ->
          assoc_get key mapped = out)
    /\ (forall key,
          key ∈ mapped.*1 ->
          key ∈ (entries_of_value mixed_properties_heap (VRef 2)).*1).
Proof.
  apply (properties_entries_dropped_or_mapped mixed_properties_heap ∅ [] 1 3 (VRef 2)).
  - vm_compute. lia.
  - apply not_elem_of_empty.
  - reflexivity.
  - reflexivity.
  - reflexivity.
  - reflexivity.
  - reflexivity.
  - apply (bool_decide_unpack _). vm_compute. exact I.
Defined.

(** C10 fails on an object schema that is nullable: its type becomes the
    array [['object', 'null']], the test [jsonSchema.type === 'object'] is
    false, and the result holds the [properties] map of the source itself,
    with its [null]-valued entry [b] and its unmapped entry [a]. *)
Lemma nullable_object_keeps_its_properties :
  map_schema 1 nullable_object_heap [] =
    Some (JObject [("type", JArray [VStr "object"; VStr "null"]);
                   ("properties", JRaw (VRef 2))],
          nullable_object_heap, [])
  /\ nullable_object_heap !! 2 = Some (OObject [("a", VRef 3); ("b", VNull)])
  /\ nullable_object_heap !! 3 = Some (OObject [("type", VStr "integer")]).
Proof. split; [vm_compute; reflexivity|]. split; reflexivity. Qed.

(** An entry under the key [__proto__] is mapped like the others (the
    warning about its reference is in the log), and leaves no key. *)
Example proto_entry_leaves_no_key :
  map_schema 1 proto_properties_heap [] =
  Some (JObject
          [("type", JRaw (VStr "object"));
           ("properties", JObject [("b", JObject [("type", JRaw (VStr "string"))])])],
        proto_properties_heap,
        [UnresolvedRef (VStr "#/components/schemas/Pet")]).
Proof. vm_compute. reflexivity. Qed.

Example mixed_properties_result :
  map_schema 1 mixed_properties_heap [] =
  Some (JObject
          [("type", JRaw (VStr "object"));
           ("properties",
            JObject [("a", JObject [("type", JRaw (VStr "number"))]);
                     ("c", JRaw (VBool true))])],
        mixed_properties_heap, []).
Proof. vm_compute. reflexivity. Qed.

(** ** C8: the heap after mapping *)

(** C8 fails on a nullable schema whose type is an array: the copy is
    shallow, so [jsonSchema.type] is the array of the source, and
    [push('null')] writes into the source document. *)
Example mapper_pushes_null_into_source_type :
  nullable_union_heap !! 2 = Some (OArray [VStr "string"])
  /\ exists r h' log,
       map_schema 1 nullable_union_heap [] = Some (r, h', log)
       /\ h' !! 2 = Some (OArray [VStr "string"; VStr "null"]).
Proof.
  split; [reflexivity|].
  eexists _, _, _. split; [vm_compute; reflexivity|]. reflexivity.
Qed.

(** That push is the only write: the rest of the source is left as it was. *)

Lemma null_pushed_refl o : null_pushed o o.
Proof. now left. Qed.

Lemma includes_snoc x elems : includes x (elems ++ [x]) = true.
Proof.
  unfold includes. rewrite existsb_app. cbn.
  rewrite bool_decide_eq_true_2 by reflexivity. now rewrite orb_true_r.
Qed.

Lemma null_pushed_trans o1 o2 o3 :
  null_pushed o1 o2 -> null_pushed o2 o3 -> null_pushed o1 o3.
Proof.
  intros [->|(elems & -> & Hnot & ->)] H23; [exact H23|].
  destruct H23 as [->|(elems' & [= <-] & Hnot' & _)].
  - right. eauto.
  - now rewrite includes_snoc in Hnot'.
Qed.

Lemma only_nulls_pushed_refl h : only_nulls_pushed h h.
Proof.
  intros l. destruct (h !! l); constructor. apply null_pushed_refl.
Qed.

Lemma only_nulls_pushed_trans h1 h2 h3 :
  only_nulls_pushed h1 h2 -> only_nulls_pushed h2 h3 -> only_nulls_pushed h1 h3.
Proof.
  intros H12 H23 l. specialize (H12 l). specialize (H23 l).
  destruct H12 as [o1 o2 Ho|]; inversion H23; subst; constructor.
  eapply null_pushed_trans; eassumption.
Qed.

Lemma add_null_type_pushes js h js' h' :
  add_null_type js h = (js', h') -> only_nulls_pushed h h'.
Proof.
  unfold add_null_type. intros Heq.
  assert (h' = h -> only_nulls_pushed h h') as Hsame
    by (intros ->; apply only_nulls_pushed_refl).
  destruct (js_get "type" js) as [v|elems|fs].
  - destruct v as [| |b|n|s|lt]; try (destruct (truthy _)); try (apply Hsame; congruence).
    destruct (h !! lt) as [[fields|elems]|] eqn:Hlt; try (apply Hsame; congruence).
    destruct (includes _ _) eqn:Hinc; [apply Hsame; congruence|].
    injection Heq as _ <-. intros l.
    destruct (decide (lt = l)) as [<-|Hne].
    + rewrite lookup_insert_eq, Hlt. constructor. right. eauto.
    + rewrite lookup_insert_ne by exact Hne.
      destruct (h !! l); constructor. apply null_pushed_refl.
  - destruct (includes _ _); apply Hsame; congruence.
  - apply Hsame. congruence.
Qed.

Section MapperWrites.

Variable rec : loc -> mstate -> option (JSONSchema * mstate).
Hypothesis Hrec : pushes_only rec.

Lemma map_properties_pushes entries : forall mappedProps st mapped st',
  map_properties rec entries mappedProps st = Some (mapped, st') ->
  only_nulls_pushed (st_heap st) (st_heap st').
Proof.
  induction entries as [|[key propSchema] rest IH]; intros mappedProps st mapped st'.
  - intros [= _ <-]. apply only_nulls_pushed_refl.
  - cbn [map_properties]. destruct propSchema as [| |b|n|s|l]; try apply IH.
    destruct (rec l st) as [[r st1]|] eqn:Hl; [|discriminate].
    intros Hrest. eapply only_nulls_pushed_trans; [eapply Hrec, Hl|eapply IH, Hrest].
Qed.

Lemma process_properties_pushes js st js' st' :
  process_properties rec js st = Some (js', st') ->
  only_nulls_pushed (st_heap st) (st_heap st').
Proof.
  unfold process_properties.
  assert (Some (js, st) = Some (js', st') ->
          only_nulls_pushed (st_heap st) (st_heap st')) as Hsame
    by (intros [= _ <-]; apply only_nulls_pushed_refl).
  destruct (strict_eq_str _ _); [|exact Hsame].
  destruct (js_get "properties" js) as [props| |]; try exact Hsame.
  destruct (truthy props); [|exact Hsame].
  destruct (map_properties _ _ _ _) as [[mapped st1]|] eqn:Hm; [|discriminate].
  intros [= _ <-]. eapply map_properties_pushes, Hm.
Qed.

Lemma process_items_pushes js st js' st' :
  process_items rec js st = Some (js', st') ->
  only_nulls_pushed (st_heap st) (st_heap st').
Proof.
  unfold process_items.
  assert (Some (js, st) = Some (js', st') ->
          only_nulls_pushed (st_heap st) (st_heap st')) as Hsame
    by (intros [= _ <-]; apply only_nulls_pushed_refl).
  destruct (strict_eq_str _ _); [|exact Hsame].
  destruct (js_get "items" js) as [[| | | | |items]| |]; try exact Hsame.
  destruct (rec items st) as [[r st1]|] eqn:Hi; [|discriminate].
  intros [= _ <-]. eapply Hrec, Hi.
Qed.

Lemma map_body_pushes o st r st' :
  map_body rec o st = Some (r, st') ->
  only_nulls_pushed (st_heap st) (st_heap st').
Proof.
  unfold map_body. set (js0 := delete_openapi_only _). clearbody js0.
  destruct (if truthy (get_prop o "nullable")
            then let '(js, h) := add_null_type js0 (st_heap st) in (js, set_heap h st)
            else (js0, st)) as [js1 st1] eqn:Hnull.
  assert (only_nulls_pushed (st_heap st) (st_heap st1)) as H01.
  { destruct (truthy _).
    - destruct (add_null_type js0 (st_heap st)) as [js h] eqn:Hadd.
      injection Hnull as _ <-. cbn. eapply add_null_type_pushes, Hadd.
    - injection Hnull as _ <-. apply only_nulls_pushed_refl. }
  destruct (process_properties rec js1 st1) as [[js2 st2]|] eqn:Hp; [|discriminate].
  destruct (process_items rec js2 st2) as [[js3 st3]|] eqn:Hi; [|discriminate].
  intros [= _ <-].
  eapply only_nulls_pushed_trans; [exact H01|].
  eapply only_nulls_pushed_trans;
    [eapply process_properties_pushes, Hp|eapply process_items_pushes, Hi].
Qed.

End MapperWrites.

Lemma mapper_pushes_only fuel : pushes_only (mapOpenApiSchemaToJsonSchema fuel).
Proof.
  induction fuel as [|fuel IH]; intros schema st r st'; [discriminate|].
  cbn [mapOpenApiSchemaToJsonSchema].
  destruct (assoc_get "$ref" _); [intros [= _ <-]; apply only_nulls_pushed_refl|].
  destruct (decide _); [intros [= _ <-]; apply only_nulls_pushed_refl|].
  destruct (map_body _ _ _) as [[r0 st0]|] eqn:Hbody; [|discriminate].
  intros [= _ <-]. apply (map_body_pushes _ IH) in Hbody. exact Hbody.
Qed.

(** Mapping changes no plain object of the source, and no array except by a
    ['null'] pushed onto it. *)
Lemma map_schema_pushes_only schema h log r h' log' :
  map_schema schema h log = Some (r, h', log') -> only_nulls_pushed h h'.
Proof.
  unfold map_schema.
  destruct (mapOpenApiSchemaToJsonSchema _ _ _) as [[r0 st0]|] eqn:Hm; [|discriminate].
  intros [= _ <- _]. now apply mapper_pushes_only in Hm.
Qed.

Lemma map_schema_keeps_plain_objects schema h log r h' log' l fields :
  map_schema schema h log = Some (r, h', log') ->
  h !! l = Some (OObject fields) -> h' !! l = Some (OObject fields).
Proof.
  intros Hm Hl. apply map_schema_pushes_only in Hm. specialize (Hm l).
  rewrite Hl in Hm. inversion Hm as [o o' Hpush|]; subst.
  destruct Hpush as [->|(elems & Habs & _)]; [reflexivity|discriminate].
Qed.

(** ** C5: the parameter merger *)

Lemma well_keyed_nil : well_keyed [].
Proof. split; constructor. Qed.

Lemma well_keyed_set m q :
  well_keyed m -> well_keyed (assoc_set (p_name q) q m).
Proof.
  intros [Hall Hnd]. induction m as [|[k p] m IH]; cbn.
  - split; [repeat constructor|]. cbn. apply NoDup_singleton.
  - cbn in Hnd. apply NoDup_cons in Hnd as [Hk Hnd].
    apply Forall_cons in Hall as [Hkp Hall]. cbn in Hkp.
    destruct (decide (k = p_name q)) as [->|Hne].
    + split; [constructor; [reflexivity|exact Hall]|].
      cbn. apply NoDup_cons. auto.
    + destruct (IH Hall Hnd) as [Hall' Hnd'].
      split; [constructor; [exact Hkp|exact Hall']|].
      cbn. apply NoDup_cons. split; [|exact Hnd'].
      rewrite assoc_set_keys. intros [->|Hin]; contradiction.
Qed.

Lemma well_keyed_map_set m q : well_keyed m -> well_keyed (map_set_named m q).
Proof.
  intros Hwk. unfold map_set_named.
  destruct (bool_decide (p_name q = "")); [exact Hwk|now apply well_keyed_set].
Qed.

Lemma well_keyed_foldl ps : forall m,
  well_keyed m -> well_keyed (foldl map_set_named m ps).
Proof.
  induction ps as [|p ps IH]; intros m Hwk; [exact Hwk|].
  cbn. apply IH. now apply well_keyed_map_set.
Qed.

Lemma well_keyed_names m : well_keyed m -> map p_name (map snd m) = m.*1.
Proof.
  intros [Hall _]. induction Hall as [|[k p] m Hkp Hall IH]; [reflexivity|].
  cbn in *. now rewrite IH, Hkp.
Qed.

Lemma replace_named_absent q ps :
  p_name q ∉ map p_name ps -> replace_named q ps = ps.
Proof.
  unfold replace_named. induction ps as [|p ps IH]; [reflexivity|].
  cbn. rewrite not_elem_of_cons. intros [Hne Hout].
  rewrite bool_decide_eq_false_2 by congruence. now rewrite IH.
Qed.

Lemma replace_named_cons q p ps :
  replace_named q (p :: ps) =
  (if bool_decide (p_name p = p_name q) then q else p) :: replace_named q ps.
Proof. reflexivity. Qed.

Lemma values_after_set m q :
  well_keyed m ->
  map snd (assoc_set (p_name q) q m) =
  if bool_decide (p_name q ∈ m.*1) then replace_named q (map snd m)
  else map snd m ++ [q].
Proof.
  intros Hwk. induction m as [|[k p] m IH]; [reflexivity|].
  pose proof Hwk as [Hall Hnd]. cbn in Hnd.
  apply NoDup_cons in Hnd as [Hk Hnd].
  apply Forall_cons in Hall as [Hkp Hall]. cbn in Hkp. subst k.
  cbn [assoc_set map snd fmap list_fmap fst]. rewrite replace_named_cons.
  destruct (decide (p_name p = p_name q)) as [Heq|Hne].
  - rewrite bool_decide_eq_true_2 by (rewrite Heq; left).
    rewrite (bool_decide_eq_true_2 _ Heq). cbn [map snd].
    rewrite replace_named_absent; [reflexivity|].
    rewrite (well_keyed_names m) by (split; assumption). congruence.
  - cbn [map snd]. rewrite IH by (split; assumption).
    rewrite (bool_decide_eq_false_2 _ Hne).
    destruct (bool_decide (p_name q ∈ m.*1)) eqn:Hin.
    + apply bool_decide_eq_true in Hin.
      rewrite bool_decide_eq_true_2 by (now right). reflexivity.
    + apply bool_decide_eq_false in Hin.
      rewrite bool_decide_eq_false_2; [reflexivity|].
      rewrite not_elem_of_cons. split; [congruence|exact Hin].
Qed.

Lemma foldl_snoc {A B} (f : A -> B -> A) a l x :
  foldl f a (l ++ [x]) = f (foldl f a l) x.
Proof. revert a. induction l as [|y l IH]; intros a; cbn; [reflexivity|apply IH]. Qed.

Lemma merge_parameters_snoc pathPs opPs q :
  merge_parameters pathPs (opPs ++ [q]) =
  insert_parameter q (merge_parameters pathPs opPs).
Proof.
  unfold merge_parameters, insert_parameter. rewrite foldl_snoc.
  set (m := foldl map_set_named (foldl map_set_named [] pathPs) opPs).
  assert (well_keyed m) as Hwk
    by (apply well_keyed_foldl, well_keyed_foldl, well_keyed_nil).
  unfold map_set_named at 1.
  destruct (bool_decide (p_name q = "")); [reflexivity|].
  rewrite (values_after_set m q Hwk), (well_keyed_names m Hwk). reflexivity.
Qed.

Lemma foldl_set_fresh ps : forall m,
  (forall p, p ∈ ps -> p_name p <> "") ->
  NoDup (map p_name ps) ->
  (forall p, p ∈ ps -> p_name p ∉ m.*1) ->
  foldl map_set_named m ps = m ++ map (fun p => (p_name p, p)) ps.
Proof.
  induction ps as [|p ps IH]; intros m Hnamed Hnd Hfresh.
  - cbn. now rewrite app_nil_r.
  - cbn in Hnd. apply NoDup_cons in Hnd as [Hp Hnd].
    cbn [foldl]. unfold map_set_named at 2.
    rewrite bool_decide_eq_false_2 by (apply Hnamed; left).
    rewrite assoc_set_fresh by (apply Hfresh; left).
    rewrite IH; [now rewrite <- app_assoc| | |].
    + intros p' Hin. apply Hnamed. now right.
    + exact Hnd.
    + intros p' Hin. rewrite fmap_app, elem_of_app. cbn.
      rewrite list_elem_of_singleton. intros [Hin'|Heq].
      * apply (Hfresh p'); [now right|exact Hin'].
      * apply Hp. rewrite <- Heq. now apply list_elem_of_fmap_2.
Qed.

Lemma merge_parameters_seed pathPs :
  (forall p, p ∈ pathPs -> p_name p <> "") ->
  NoDup (map p_name pathPs) ->
  merge_parameters pathPs [] = pathPs.
Proof.
  intros Hnamed Hnd. unfold merge_parameters. cbn [foldl].
  rewrite foldl_set_fresh; auto.
  - cbn. rewrite map_map. cbn. apply map_id.
  - intros p _. apply not_elem_of_nil.
Qed.

Lemma mapper_result_is_object fuel schema st r st' :
  mapOpenApiSchemaToJsonSchema fuel schema st = Some (r, st') ->
  exists fs, r = JObject fs.
Proof.
  destruct fuel as [|fuel]; [discriminate|].
  cbn [mapOpenApiSchemaToJsonSchema].
  destruct (assoc_get "$ref" _); [intros [= <- _]; unfold generic_object; eauto|].
  destruct (decide _); [intros [= <- _]; unfold generic_object; eauto|].
  unfold map_body.
  destruct (if truthy _ then _ else _) as [js1 st1].
  destruct (process_properties _ js1 st1) as [[js2 st2]|]; [|discriminate].
  destruct (process_items _ js2 st2) as [[js3 st3]|]; [|discriminate].
  intros [= <- _]. eauto.
Qed.

Lemma map_schema_returns_object schema h log :
  exists fs h' log', map_schema schema h log = Some (JObject fs, h', log').
Proof.
  destruct (map_schema_returns schema h log) as (r & h' & log' & Hr & _).
  pose proof Hr as Hr'. unfold map_schema in Hr'.
  destruct (mapOpenApiSchemaToJsonSchema _ _ _) as [[r0 st0]|] eqn:Hm; [|discriminate].
  injection Hr' as <- _ _.
  apply mapper_result_is_object in Hm as [fs ->]. eauto.
Qed.

Lemma add_parameter_returns p g : exists g', add_parameter p g = Some g'.
Proof.
  unfold add_parameter. destruct (bool_decide _); [eauto|].
  destruct (p_schema p) as [schema|]; [|eauto].
  destruct (map_schema_returns schema (g_heap g) (g_log g)) as (r & h' & log' & -> & _).
  eauto.
Qed.

Lemma add_parameters_returns ps : forall g, exists g', add_parameters ps g = Some g'.
Proof.
  induction ps as [|p ps IH]; intros g; cbn; [eauto|].
  destruct (add_parameter_returns p g) as [g1 ->]. apply IH.
Qed.

Lemma elem_of_push_if b x n l : n ∈ push_if b x l <-> n ∈ l \/ (b = true /\ n = x).
Proof.
  unfold push_if. destruct b.
  - rewrite elem_of_app, list_elem_of_singleton. intuition congruence.
  - intuition congruence.
Qed.

(** A parameter leaves alone the properties and required entries of every
    other name. *)
Lemma add_parameter_frame p g g' n :
  add_parameter p g = Some g' -> n <> p_name p ->
  assoc_get n (g_properties g') = assoc_get n (g_properties g) /\
  (n ∈ g_required g' <-> n ∈ g_required g).
Proof.
  unfold add_parameter. intros Hadd Hne.
  destruct (bool_decide _); [injection Hadd as <-; tauto|].
  destruct (p_schema p) as [schema|]; [|injection Hadd as <-; tauto].
  destruct (map_schema _ _ _) as [[[r h] log]|]; [|discriminate].
  injection Hadd as <-. cbn. split.
  - apply assoc_get_fields_set_ne. congruence.
  - destruct (p_required p); [|tauto].
    rewrite elem_of_app, list_elem_of_singleton. tauto.
Qed.

Lemma add_parameters_frame ps : forall g g' n,
  add_parameters ps g = Some g' -> n ∉ map p_name ps ->
  assoc_get n (g_properties g') = assoc_get n (g_properties g) /\
  (n ∈ g_required g' <-> n ∈ g_required g).
Proof.
  induction ps as [|p ps IH]; intros g g' n Hadd Hout.
  - injection Hadd as <-. tauto.
  - cbn in Hadd, Hout. apply not_elem_of_cons in Hout as [Hne Hout].
    destruct (add_parameter p g) as [g1|] eqn:Hp; [|discriminate].
    destruct (IH _ _ _ Hadd Hout) as [Ha Hr].
    destruct (add_parameter_frame _ _ _ _ Hp Hne) as [Ha1 Hr1].
    split; [congruence|tauto].
Qed.

Lemma add_parameters_app l1 l2 g :
  add_parameters (l1 ++ l2) g = add_parameters l1 g ≫= add_parameters l2.
Proof.
  revert g. induction l1 as [|p l1 IH]; intros g; [reflexivity|].
  cbn [app add_parameters]. destruct (add_parameter p g) as [g1|]; [apply IH|reflexivity].
Qed.

Lemma add_parameter_derived p g g' :
  add_parameter p g = Some g' -> p_name p <> "" ->
  assoc_get (p_name p) (g_properties g) = None -> p_name p ∉ g_required g ->
  derived_from p g g'.
Proof.
  unfold add_parameter, derived_from. intros Hadd Hnamed Hfresh Hreq.
  rewrite bool_decide_eq_false_2 in Hadd by exact Hnamed.
  destruct (p_schema p) as [schema|]; [|injection Hadd as <-; tauto].
  destruct (map_schema schema (g_heap g) (g_log g)) as [[[r h] log]|] eqn:Hm;
    [|discriminate].
  destruct (map_schema_returns_object schema (g_heap g) (g_log g))
    as (fs & h' & log' & Hm').
  rewrite Hm' in Hm. injection Hm as <- <- <-.
  injection Hadd as <-. cbn. exists fs, h', log'. split; [reflexivity|]. split.
  - intros Hproto. now apply assoc_get_fields_set_eq.
  - destruct (p_required p).
    + rewrite elem_of_app, list_elem_of_singleton. tauto.
    + split; [contradiction|discriminate].
Qed.

Lemma derived_from_frame q g1 g g' :
  assoc_get (p_name q) (g_properties g') = assoc_get (p_name q) (g_properties g) ->
  (p_name q ∈ g_required g' <-> p_name q ∈ g_required g) ->
  derived_from q g1 g -> derived_from q g1 g'.
Proof.
  unfold derived_from. intros Ha Hr. destruct (p_schema q).
  - intros (fs & h2 & log2 & Hm & Hp & Hreq).
    exists fs, h2, log2. split; [exact Hm|]. split; [|tauto].
    intros Hproto. rewrite Ha. now apply Hp.
  - intros [Hp Hreq]. split; [congruence|tauto].
Qed.

(** The parameter [q] of a list of parameters with distinct names: its
    schema is mapped on the heap the parameters before it left, and what it
    stores is still there after the loop. *)
Lemma add_parameters_spec pre q post g0 g :
  NoDup (map p_name (pre ++ q :: post)) ->
  p_name q <> "" ->
  assoc_get (p_name q) (g_properties g0) = None -> p_name q ∉ g_required g0 ->
  add_parameters (pre ++ q :: post) g0 = Some g ->
  exists g1, add_parameters pre g0 = Some g1 /\ derived_from q g1 g.
Proof.
  intros Hnd Hnamed Hfresh Hreq Hadd.
  rewrite map_app in Hnd. cbn [map] in Hnd.
  apply NoDup_app in Hnd as (_ & Hpre & Hnd).
  apply NoDup_cons in Hnd as [Hpost _].
  assert (p_name q ∉ map p_name pre) as Hpre'.
  { intros Hin. apply (Hpre _ Hin). left. }
  rewrite add_parameters_app in Hadd.
  destruct (add_parameters pre g0) as [g1|] eqn:Hg1; [|discriminate].
  cbn [mbind option_bind add_parameters] in Hadd.
  destruct (add_parameter q g1) as [g2|] eqn:Hg2; [|discriminate].
  exists g1. split; [reflexivity|].
  destruct (add_parameters_frame _ _ _ _ Hg1 Hpre') as [Ha1 Hr1].
  destruct (add_parameters_frame _ _ _ _ Hadd Hpost) as [Ha2 Hr2].
  eapply derived_from_frame; [exact Ha2|exact Hr2|].
  apply add_parameter_derived; [exact Hg2|exact Hnamed|congruence|tauto].
Qed.

Lemma assoc_get_map_set_ne m p n :
  p_name p <> n -> assoc_get n (map_set_named m p) = assoc_get n m.
Proof.
  intros Hne. unfold map_set_named. destruct (bool_decide _); [reflexivity|].
  now apply assoc_get_assoc_set_ne.
Qed.

Lemma assoc_get_foldl_ne ps : forall m n,
  (forall p, p ∈ ps -> p_name p <> n) ->
  assoc_get n (foldl map_set_named m ps) = assoc_get n m.
Proof.
  induction ps as [|p ps IH]; intros m n Hne; [reflexivity|].
  cbn. rewrite IH by (intros p' Hp'; apply Hne; now right).
  apply assoc_get_map_set_ne, Hne. left.
Qed.

(** The map holds, under a name, the last parameter set under that name. *)
Lemma assoc_get_foldl_last m l1 q l2 :
  p_name q <> "" ->
  (forall p, p ∈ l2 -> p_name p <> p_name q) ->
  assoc_get (p_name q) (foldl map_set_named m (l1 ++ q :: l2)) = Some q.
Proof.
  intros Hnamed Hlast. rewrite foldl_app. cbn [foldl].
  rewrite assoc_get_foldl_ne by exact Hlast.
  unfold map_set_named. rewrite bool_decide_eq_false_2 by exact Hnamed.
  apply assoc_get_assoc_set_eq.
Qed.

Lemma assoc_get_Some_elem {A} k (x : A) fs :
  assoc_get k fs = Some x -> x ∈ map snd fs.
Proof.
  induction fs as [|[k0 y] fs IH]; cbn; [discriminate|].
  destruct (decide (k0 = k)).
  - intros [= ->]. left.
  - intros Hget. right. now apply IH.
Qed.

Lemma merge_parameters_NoDup pathPs opPs :
  NoDup (map p_name (merge_parameters pathPs opPs)).
Proof.
  unfold merge_parameters.
  set (m := foldl map_set_named (foldl map_set_named [] pathPs) opPs).
  assert (well_keyed m) as Hwk
    by (apply well_keyed_foldl, well_keyed_foldl, well_keyed_nil).
  rewrite (well_keyed_names m Hwk). apply Hwk.
Qed.

Lemma add_request_body_returns rb g :
  exists r, add_request_body rb g = Some r.
Proof.
  unfold add_request_body. destruct rb as [rb|]; [|eauto].
  destruct (_ ≫= mt_schema) as [schema|].
  - destruct (map_schema_returns schema (g_heap g) (g_log g)) as (r & h' & log' & -> & _).
    eauto.
  - destruct (match rb_content rb with Some c => head c | None => None end)
      as [[contentType mt]|]; eauto.
Qed.

Lemma generateInputSchemaAndDetails_returns operation pathItem h log :
  exists r, generateInputSchemaAndDetails operation pathItem h log = Some r.
Proof.
  unfold generateInputSchemaAndDetails, parameters_phase.
  destruct (add_parameters_returns
              (merge_parameters (pi_parameters pathItem) (op_parameters operation))
              {| g_properties := []; g_required := []; g_heap := h; g_log := log |})
    as [g ->].
  destruct (add_request_body_returns (op_requestBody operation) g) as [[ct g'] ->].
  eauto.
Qed.

(** The request body leaves alone the properties and required entries of
    every name but [requestBody]. *)
Lemma add_request_body_frame rb g ct g' n :
  add_request_body rb g = Some (ct, g') -> n <> "requestBody" ->
  assoc_get n (g_properties g') = assoc_get n (g_properties g) /\
  (n ∈ g_required g' <-> n ∈ g_required g).
Proof.
  unfold add_request_body. intros Hadd Hne.
  destruct rb as [rb|]; [|injection Hadd as _ <-; tauto].
  destruct (_ ≫= mt_schema) as [schema|].
  - destruct (map_schema _ _ _) as [[[r h] log]|]; [|discriminate].
    injection Hadd as _ <-. cbn. split.
    + apply assoc_get_fields_set_ne. congruence.
    + rewrite elem_of_push_if. intuition congruence.
  - destruct (match rb_content rb with Some c => head c | None => None end)
      as [[contentType mt]|]; [|injection Hadd as _ <-; tauto].
    injection Hadd as _ <-. cbn. split.
    + apply assoc_get_fields_set_ne. congruence.
    + rewrite elem_of_push_if. intuition congruence.
Qed.

(** Without a content type nothing was written for the request body. *)
Lemma add_request_body_none rb g g' :
  add_request_body rb g = Some (None, g') -> g' = g.
Proof.
  unfold add_request_body. destruct rb as [rb|]; [|now intros [= <-]].
  destruct (_ ≫= mt_schema) as [schema|].
  - destruct (map_schema _ _ _) as [[[r h] log]|]; discriminate.
  - destruct (match rb_content rb with Some c => head c | None => None end)
      as [[contentType mt]|]; [discriminate|now intros [= <-]].
Qed.

Lemma input_schema_keeps_parameters operation pathItem h log :
  exists g properties required r,
    parameters_phase operation pathItem h log = Some g
    /\ generateInputSchemaAndDetails operation pathItem h log = Some r
    /\ inputSchema r.1.1 = make_input_schema properties required
    /\ (forall n,
          n <> "requestBody" \/ requestBodyContentType r.1.1 = None ->
          assoc_get n properties = assoc_get n (g_properties g)
          /\ (n ∈ required <-> n ∈ g_required g)).
Proof.
  unfold generateInputSchemaAndDetails.
  destruct (add_parameters_returns
              (merge_parameters (pi_parameters pathItem) (op_parameters operation))
              {| g_properties := []; g_required := []; g_heap := h; g_log := log |})
    as [g Hg].
  fold (parameters_phase operation pathItem h log) in Hg. rewrite Hg.
  destruct (add_request_body_returns (op_requestBody operation) g) as [[ct g'] Hbody].
  rewrite Hbody.
  eexists g, (g_properties g'), (g_required g'), _.
  split; [reflexivity|]. split; [reflexivity|]. split; [reflexivity|].
  cbn [fst requestBodyContentType]. intros n [Hne| ->].
  - exact (add_request_body_frame _ _ _ _ n Hbody Hne).
  - apply add_request_body_none in Hbody. subst g'. tauto.
Qed.

Lemma merged_values_snoc l q :
  map snd (foldl map_set_named [] (l ++ [q])) =
  insert_parameter q (map snd (foldl map_set_named [] l)).
Proof.
  unfold insert_parameter. rewrite foldl_snoc.
  set (m := foldl map_set_named [] l).
  assert (well_keyed m) as Hwk by (apply well_keyed_foldl, well_keyed_nil).
  unfold map_set_named at 1.
  destruct (bool_decide (p_name q = "")); [reflexivity|].
  rewrite (values_after_set m q Hwk), (well_keyed_names m Hwk). reflexivity.
Qed.

(** The merged list is built by inserting the parameters one by one, those
    of the path first. *)
Lemma merge_parameters_fold pathPs opPs :
  merge_parameters pathPs opPs =
  foldl (fun ps q => insert_parameter q ps) [] (pathPs ++ opPs).
Proof.
  unfold merge_parameters. rewrite <- foldl_app.
  induction (pathPs ++ opPs) as [|q l IH] using rev_ind; [reflexivity|].
  now rewrite merged_values_snoc, foldl_snoc, IH.
Qed.


Example override_merged_parameters :
  merge_parameters [path_id; path_limit] [operation_id; operation_q]
  = [operation_id; path_limit; operation_q].
Proof. reflexivity. Qed.

Example override_input_schema :
  (fun r => (inputSchema r.1.1, parameters r.1.1)) <$>
    generateInputSchemaAndDetails override_operation override_path_item
      override_heap [] =
  Some (JObject
          [("type", JRaw (VStr "object"));
           ("properties",
            JObject
              [("id", JObject [("type", JRaw (VStr "string"));
                               ("description", JRaw (VStr "operation-level id"))]);
               ("limit", JObject [("type", JRaw (VStr "number"));
                                  ("description", JRaw VUndefined)]);
               ("q", JObject [("type", JRaw (VStr "string"));
                              ("description", JRaw VUndefined)])]);
           ("required", JArray [VStr "id"])],
        [operation_id; path_limit; operation_q]).
Proof. vm_compute. reflexivity. Qed.



(** ** C7: the request body *)

(** C7, as the code has it.  For an operation whose request body has an
    [application/json] media type with a schema, the input schema has the
    property [requestBody]: the mapped schema, with the description set to
    the request body's own description when that is a non-empty string, else
    to the mapped schema's description when truthy, else to the literal
    ["The JSON request body."].  The required list is that of the parameters,
    followed by ["requestBody"] exactly when the request body is marked
    required. *)
Theorem json_request_body_property
    (operation : OperationObject) (pathItem : PathItemObject) (h : heap)
    (log : list diagnostic) (opRequestBody : RequestBodyObject)
    (content : list (string * MediaTypeObject)) (jsonContent : MediaTypeObject)
    (schema : loc) :
  op_requestBody operation = Some opRequestBody ->
  rb_content opRequestBody = Some content ->
  assoc_get "application/json" content = Some jsonContent ->
  mt_schema jsonContent = Some schema ->
  exists g bodySchema d h' log',
    parameters_phase operation pathItem h log = Some g
    /\ map_schema schema (g_heap g) (g_log g) = Some (JObject bodySchema, h', log')
    /\ generateInputSchemaAndDetails operation pathItem h log =
       Some ({| inputSchema :=
                  make_input_schema
                    (fields_set "requestBody"
                       (JObject (fields_set "description" d bodySchema))
                       (g_properties g))
                    (g_required g ++
                     if rb_required opRequestBody then ["requestBody"] else []);
                parameters := merge_parameters (pi_parameters pathItem)
                                (op_parameters operation);
                requestBodyContentType := Some "application/json" |},
             h', log')
    /\ (forall s, rb_description opRequestBody = Some s -> s <> "" ->
        d = JRaw (VStr s))
    /\ (truthy_str (rb_description opRequestBody) = false ->
        js_truthy (js_get "description" bodySchema) = true ->
        d = js_get "description" bodySchema)
    /\ (truthy_str (rb_description opRequestBody) = false ->
        js_truthy (js_get "description" bodySchema) = false ->
        d = JRaw (VStr "The JSON request body.")).
Proof.
  intros Hrb Hcontent Hjson Hschema.
  unfold generateInputSchemaAndDetails.
  destruct (add_parameters_returns
              (merge_parameters (pi_parameters pathItem) (op_parameters operation))
              {| g_properties := []; g_required := []; g_heap := h; g_log := log |})
    as [g Hg].
  fold (parameters_phase operation pathItem h log) in Hg. rewrite Hg.
  destruct (map_schema_returns_object schema (g_heap g) (g_log g))
    as (bodySchema & h' & log' & Hm).
  exists g, bodySchema, (body_description opRequestBody bodySchema), h', log'.
  split; [reflexivity|]. split; [exact Hm|].
  split.
  - unfold add_request_body. rewrite Hrb, Hcontent, Hjson. cbn [mbind option_bind].
    rewrite Hschema, Hm. cbn [set_description g_heap g_log g_properties g_required].
    unfold push_if. destruct (rb_required opRequestBody).
    + reflexivity.
    + now rewrite app_nil_r.
  - unfold body_description. repeat split.
    + intros s Hs Hne. rewrite Hs. cbn.
      now rewrite bool_decide_eq_false_2 by exact Hne.
    + intros -> ->. reflexivity.
    + intros -> ->. reflexivity.
Qed.

Lemma described_body_property :
  exists g bodySchema d h' log',
    parameters_phase body_operation (bare_path_item VUndefined) body_heap [] = Some g
    /\ map_schema 1 (g_heap g) (g_log g) = Some (JObject bodySchema, h', log')
    /\ generateInputSchemaAndDetails body_operation (bare_path_item VUndefined)
         body_heap [] =
       Some ({| inputSchema :=
                  make_input_schema
                    (fields_set "requestBody"
                       (JObject (fields_set "description" d bodySchema))
                       (g_properties g))
                    (g_required g ++
                     if rb_required described_body then ["requestBody"] else []);
                parameters := merge_parameters
                                (pi_parameters (bare_path_item VUndefined))
                                (op_parameters body_operation);
                requestBodyContentType := Some "application/json" |},
             h', log')
    /\ (forall s, rb_description described_body = Some s -> s <> "" ->
        d = JRaw (VStr s))
    /\ (truthy_str (rb_description described_body) = false ->
        js_truthy (js_get "description" bodySchema) = true ->
        d = js_get "description" bodySchema)
    /\ (truthy_str (rb_description described_body) = false ->
        js_truthy (js_get "description" bodySchema) = false ->
        d = JRaw (VStr "The JSON request body.")).
Proof.
  apply (json_request_body_property body_operation (bare_path_item VUndefined)
           body_heap [] described_body
           [("application/json", {| mt_schema := Some 1 |})]
           {| mt_schema := Some 1 |} 1); reflexivity.
Defined.

(** C7 as stated fails: when both the request body and its schema carry a
    description, the property is described by the request body's, not by the
    mapped schema's. *)
Lemma body_description_prefers_request_body :
  (fun r => inputSchema r.1.1) <$>
    generateInputSchemaAndDetails body_operation (bare_path_item VUndefined)
      body_heap [] =
    Some (JObject
            [("type", JRaw (VStr "object"));
             ("properties",
              JObject [("requestBody",
                        JObject [("type", JRaw (VStr "object"));
                                 ("description", JRaw (VStr "outer"))])]);
             ("required", JArray [VStr "requestBody"])])
  /\ map_schema 1 body_heap [] =
       Some (JObject [("type", JRaw (VStr "object"));
                      ("description", JRaw (VStr "inner"))],
             body_heap, [])
  /\ spec_body_description described_body
       [("type", JRaw (VStr "object")); ("description", JRaw (VStr "inner"))]
     = JRaw (VStr "inner").
Proof. repeat split; vm_compute; reflexivity. Qed.

(** ** The search for an unused name *)

Lemma string_app_nil_r (s : string) : s +:+ "" = s.
Proof.
  induction s as [|c s IH]; [reflexivity|].
  change (String c (s +:+ "") = String c s). now rewrite IH.
Qed.

Lemma candidate_inj baseName i j :
  candidate baseName i = candidate baseName j -> i = j.
Proof.
  destruct i as [|i], j as [|j]; cbn; unfold suffixed; intros Heq.
  - reflexivity.
  - rewrite <- (string_app_nil_r baseName) in Heq at 1.
    apply String.app_inj in Heq. discriminate.
  - rewrite <- (string_app_nil_r baseName) in Heq at 2.
    apply String.app_inj in Heq. discriminate.
  - apply String.app_inj in Heq. cbn in Heq. injection Heq as Heq.
    now apply pretty_nat_inj in Heq.
Qed.

Lemma find_unused_spec fuel : forall usedNames baseName k name,
  find_unused fuel usedNames baseName (candidate baseName k) (S k) = Some name ->
  exists j,
    k <= j /\ name = candidate baseName j /\ (name ∉ usedNames) /\
    (forall i, k <= i < j -> candidate baseName i ∈ usedNames).
Proof.
  induction fuel as [|fuel IH]; intros usedNames baseName k name; [discriminate|].
  cbn [find_unused].
  destruct (decide (candidate baseName k ∈ usedNames)) as [Hin|Hout].
  - intros Hfind. apply (IH usedNames baseName (S k)) in Hfind
      as (j & Hle & Hname & Hfree & Hused).
    exists j. repeat split; [lia|exact Hname|exact Hfree|].
    intros i Hi. destruct (decide (i = k)) as [->|Hne]; [exact Hin|].
    apply Hused. lia.
  - intros [= <-]. exists k. repeat split; [lia|exact Hout|]. intros i Hi. lia.
Qed.

Lemma find_unused_None fuel : forall (usedNames : gset string) baseName k,
  find_unused fuel usedNames baseName (candidate baseName k) (S k) = None ->
  forall i, k <= i < k + fuel -> candidate baseName i ∈ usedNames.
Proof.
  induction fuel as [|fuel IH]; intros usedNames baseName k Hnone i Hi; [lia|].
  cbn [find_unused] in Hnone.
  destruct (decide (candidate baseName k ∈ usedNames)) as [Hin|Hout]; [|discriminate].
  destruct (decide (i = k)) as [->|Hne]; [exact Hin|].
  apply (IH usedNames baseName (S k) Hnone). lia.
Qed.

(** The search always ends: among [size usedNames + 1] distinct candidates
    one is not in use. *)
Lemma unique_name_returns (usedNames : gset string) baseName :
  exists name, unique_name usedNames baseName = Some name.
Proof.
  unfold unique_name.
  destruct (find_unused _ _ _ _ _) as [name|] eqn:Hfind; [eauto|exfalso].
  pose proof (find_unused_None _ usedNames baseName 0 Hfind) as Hall.
  set (cs := candidate baseName <$> seq 0 (S (size usedNames))).
  assert (NoDup cs) as Hnd.
  { apply NoDup_fmap_2_strong; [|apply NoDup_seq].
    intros i j _ _. apply candidate_inj. }
  assert (list_to_set cs ⊆ usedNames) as Hsub.
  { intros c Hc. apply elem_of_list_to_set, list_elem_of_fmap in Hc as (i & -> & Hi).
    apply elem_of_seq in Hi. apply Hall. lia. }
  apply subseteq_size in Hsub.
  rewrite size_list_to_set in Hsub by exact Hnd.
  unfold cs in Hsub. rewrite length_fmap, length_seq in Hsub. lia.
Qed.

Lemma unique_name_spec (usedNames : gset string) baseName name :
  unique_name usedNames baseName = Some name ->
  exists k,
    name = candidate baseName k /\ (name ∉ usedNames) /\
    (forall i, i < k -> candidate baseName i ∈ usedNames).
Proof.
  intros Hfind. apply (find_unused_spec _ usedNames baseName 0) in Hfind
    as (j & _ & Hname & Hfree & Hused).
  exists j. repeat split; [exact Hname|exact Hfree|]. intros i Hi. apply Hused. lia.
Qed.

(** ** The run of the extractor *)

Section Run.

Variable generateOperationId : string -> string -> string.
Variable inclusion_filter :
  Document -> PathItemObject -> OperationObject -> bool -> filter_result.
Variable api : Document.
Variable defaultInclude : bool.


Lemma process_occurrences_app os1 : forall os2 x,
  process_occurrences generateOperationId inclusion_filter api defaultInclude
    (os1 ++ os2) x =
  match process_occurrences generateOperationId inclusion_filter api
          defaultInclude os1 x with
  | Some x' =>
      process_occurrences generateOperationId inclusion_filter api
        defaultInclude os2 x'
  | None => None
  end.
Proof.
  induction os1 as [|[[[path pathItem] m] operation] os1 IH]; intros os2 x;
    [reflexivity|].
  cbn. destruct (process_operation _ _ _ _ _ _ _ _ _); [apply IH|reflexivity].
Qed.

Lemma process_methods_as_loop path pathItem methods : forall x,
  process_methods generateOperationId inclusion_filter api defaultInclude
    path pathItem methods x =
  process_occurrences generateOperationId inclusion_filter api defaultInclude
    (omap (fun m => (fun operation => (path, pathItem, m, operation))
                      <$> pi_operation pathItem m) methods) x.
Proof.
  induction methods as [|m methods IH]; intros x; [reflexivity|].
  cbn. destruct (pi_operation pathItem m) as [operation|]; cbn; [|apply IH].
  destruct (process_operation _ _ _ _ _ _ _ _ _); [apply IH|reflexivity].
Qed.

Lemma process_paths_as_loop paths : forall x,
  process_paths generateOperationId inclusion_filter api defaultInclude paths x =
  process_occurrences generateOperationId inclusion_filter api defaultInclude
    (flat_map (fun entry => match entry.2 with
                            | Some pathItem => operations_of_path entry.1 pathItem
                            | None => []
                            end) paths) x.
Proof.
  induction paths as [|[path [pathItem|]] paths IH]; intros x;
    cbn [process_paths flat_map fst snd]; [reflexivity| |apply IH].
  rewrite process_occurrences_app, process_methods_as_loop.
  fold (operations_of_path path pathItem).
  destruct (process_occurrences _ _ _ _ (operations_of_path path pathItem) x);
    [apply IH|reflexivity].
Qed.

Lemma extract_as_loop h :
  extractToolsFromApi_with generateOperationId inclusion_filter api defaultInclude h =
  process_occurrences generateOperationId inclusion_filter api defaultInclude
    (declared_operations api)
    {| x_tools := []; x_usedNames := ∅; x_heap := h; x_log := [] |}.
Proof.
  unfold extractToolsFromApi_with, declared_operations.
  destruct (api_paths api) as [paths|]; [apply process_paths_as_loop|reflexivity].
Qed.

Lemma named_in_turn_snoc tools t k :
  named_in_turn tools ->
  name t = candidate (operationId t) k ->
  (forall j, j < k -> candidate (operationId t) j ∈ map name tools) ->
  name t ∉ map name tools ->
  named_in_turn (tools ++ [t]).
Proof.
  intros Hturn Hname Hused Hfree i t' Hi.
  destruct (decide (i < List.length tools)) as [Hlt|Hge].
  - rewrite lookup_app_l in Hi by exact Hlt.
    rewrite take_app_le by lia. now apply Hturn.
  - rewrite lookup_app_r in Hi by lia.
    destruct (i - List.length tools) as [|n] eqn:Hn; [|destruct n; discriminate].
    injection Hi as <-.
    assert (i = List.length tools) as -> by lia.
    rewrite take_app_length. eauto.
Qed.

Lemma build_tool_skips path pathItem m operation x :
  base_name generateOperationId (path, pathItem, m, operation) = "" ->
  build_tool generateOperationId api path pathItem m operation x = Some x.
Proof.
  unfold build_tool, base_name. intros ->. reflexivity.
Qed.

Lemma build_tool_spec path pathItem m operation x :
  names_invariant x ->
  base_name generateOperationId (path, pathItem, m, operation) <> "" ->
  exists x' t,
    build_tool generateOperationId api path pathItem m operation x = Some x' /\
    x_tools x' = x_tools x ++ [t] /\
    built_from generateOperationId api (path, pathItem, m, operation) t /\
    names_invariant x'.
Proof.
  intros [Hused Hturn] Hbase. unfold build_tool, base_name in *.
  rewrite bool_decide_eq_false_2 by exact Hbase.
  set (baseName := sanitize _).
  destruct (unique_name_returns (x_usedNames x) baseName) as [final Hfinal].
  rewrite Hfinal.
  destruct (generateInputSchemaAndDetails_returns operation pathItem
              (x_heap x) (x_log x)) as [[[details h] log] ->].
  eexists _, _. split; [reflexivity|]. cbn [x_tools x_usedNames].
  split; [reflexivity|].
  apply unique_name_spec in Hfinal as (k & Hname & Hfree & Hprev).
  rewrite Hused in Hfree, Hprev.
  split; [|split].
  - cbn. repeat split.
  - cbn [x_usedNames x_tools]. rewrite map_app, list_to_set_app_L, <- Hused. cbn.
    rewrite (right_id_L ∅ (∪)). apply (comm_L (∪)).
  - cbn [x_usedNames x_tools]. apply named_in_turn_snoc with (k := k); cbn.
    + exact Hturn.
    + exact Hname.
    + intros j Hj. pose proof (Hprev j Hj) as Hin.
      now apply elem_of_list_to_set in Hin.
    + intros Hin. apply Hfree. now apply elem_of_list_to_set.
Qed.

Lemma process_operation_spec path pathItem m operation x :
  names_invariant x ->
  exists x' new,
    process_operation generateOperationId inclusion_filter api defaultInclude
      path pathItem m operation x = Some x' /\
    x_tools x' = x_tools x ++ new /\
    Forall2 (built_from generateOperationId api)
      (filter (retained generateOperationId inclusion_filter api defaultInclude)
         [(path, pathItem, m, operation)]) new /\
    names_invariant x'.
Proof.
  intros Hinv. unfold process_operation.
  rewrite filter_cons, filter_nil. unfold retained.
  destruct (apply_filter _ _ _ _ _ _ _) as [proceed warnings]. cbn [fst].
  destruct proceed; cbn [andb].
  - destruct (decide (base_name generateOperationId
                        (path, pathItem, m, operation) = "")) as [Hbase|Hbase].
    + rewrite build_tool_skips by exact Hbase.
      rewrite bool_decide_eq_true_2 by exact Hbase. cbn [negb].
      rewrite decide_False by (intros []).
      exists (x_warn warnings x), []. rewrite app_nil_r.
      repeat split; auto; try apply Hinv; constructor.
    + destruct (build_tool_spec path pathItem m operation (x_warn warnings x))
        as (x' & t & -> & Htools & Hbuilt & Hinv'); auto.
      rewrite bool_decide_eq_false_2 by exact Hbase. cbn [negb].
      rewrite decide_True by exact I.
      exists x', [t]. repeat split; auto; try apply Hinv'.
  - rewrite decide_False by (intros []).
    exists (x_warn warnings x), []. rewrite app_nil_r.
    repeat split; auto; try apply Hinv; constructor.
Qed.

Lemma run_spec os : forall x,
  names_invariant x ->
  exists x' new,
    process_occurrences generateOperationId inclusion_filter api defaultInclude
      os x = Some x' /\
    x_tools x' = x_tools x ++ new /\
    Forall2 (built_from generateOperationId api)
      (filter (retained generateOperationId inclusion_filter api defaultInclude) os)
      new /\
    names_invariant x'.
Proof.
  induction os as [|[[[path pathItem] m] operation] os IH]; intros x Hinv.
  - exists x, []. rewrite app_nil_r. repeat split; auto; try apply Hinv; constructor.
  - destruct (process_operation_spec path pathItem m operation x Hinv)
      as (x1 & new1 & Hstep & Htools1 & Hbuilt1 & Hinv1).
    destruct (IH x1 Hinv1) as (x' & new2 & Hrun & Htools2 & Hbuilt2 & Hinv').
    exists x', (new1 ++ new2). cbn [process_occurrences]. rewrite Hstep, Hrun.
    split; [reflexivity|]. split; [now rewrite Htools2, Htools1, app_assoc|].
    split; [|exact Hinv'].
    change ((path, pathItem, m, operation) :: os)
      with ([(path, pathItem, m, operation)] ++ os).
    rewrite filter_app. now apply Forall2_app.
Qed.

End Run.

Lemma names_invariant_initial h : names_invariant (initial_xstate h).
Proof.
  split; [reflexivity|]. intros i t Hi. cbn in Hi. now rewrite lookup_nil in Hi.
Qed.

Lemma named_in_turn_NoDup tools : named_in_turn tools -> NoDup (map name tools).
Proof.
  intros Hturn. apply NoDup_alt. intros i j n Hi Hj.
  rewrite list_lookup_fmap in Hi, Hj.
  destruct (tools !! i) as [ti|] eqn:Hti; [|discriminate].
  destruct (tools !! j) as [tj|] eqn:Htj; [|discriminate].
  injection Hi as Hi. injection Hj as Hj.
  assert (forall a b ta tb, tools !! a = Some ta -> tools !! b = Some tb ->
            name ta = name tb -> a < b -> False) as Hlt.
  { intros a b ta tb Ha Hb Heq Hab.
    destruct (Hturn b tb Hb) as (k & _ & _ & Hfree). apply Hfree.
    rewrite <- Heq. apply list_elem_of_fmap_2.
    apply list_elem_of_lookup. exists a. now rewrite lookup_take_lt. }
  destruct (Nat.lt_trichotomy i j) as [Hij|[Hij|Hij]]; [exfalso|exact Hij|exfalso].
  - apply (Hlt i j ti tj); auto. congruence.
  - apply (Hlt j i tj ti); auto. congruence.
Qed.

(** The run of the extractor returns, with one tool per retained operation,
    in order, and the names assigned in turn. *)
Lemma extraction_spec generateOperationId inclusion_filter api defaultInclude h :
  exists x,
    extractToolsFromApi_with generateOperationId inclusion_filter api
      defaultInclude h = Some x /\
    Forall2 (built_from generateOperationId api)
      (filter (retained generateOperationId inclusion_filter api defaultInclude)
         (declared_operations api))
      (x_tools x) /\
    named_in_turn (x_tools x).
Proof.
  rewrite extract_as_loop.
  destruct (run_spec generateOperationId inclusion_filter api defaultInclude
              (declared_operations api) (initial_xstate h)
              (names_invariant_initial h))
    as (x & new & Hrun & Htools & Hbuilt & _ & Hturn).
  exists x. split; [exact Hrun|]. cbn in Htools. rewrite Htools.
  split; [exact Hbuilt|]. now rewrite <- Htools.
Qed.

Lemma sanitize_by_char s : sanitize s = string_map spec_sanitize_char s.
Proof.
  unfold sanitize, replace_non_name_chars, replace_dots.
  induction s as [|c s IH]; [reflexivity|].
  cbn [string_map]. rewrite IH. f_equal.
  unfold spec_sanitize_char. destruct (decide (c = "."%char)) as [->|Hne].
  - reflexivity.
  - rewrite bool_decide_eq_false_2 by exact Hne. cbn [orb].
    now destruct (is_name_char c).
Qed.

(** ** C3: tool names *)

(** C3.  Sanitizing replaces, character by character, every dot and every
    character outside [[a-zA-Z0-9_-]] by an underscore.  Every run of the
    extractor returns; its tools are, in order, those of the retained
    operations (so two operations whose sanitized bases coincide are both
    present); each tool has the first of the names [base], [base_1],
    [base_2], ... of its sanitized base that no earlier tool has; and the
    names are pairwise distinct. *)
Theorem tool_names_sanitized_and_unique :
  (forall s, sanitize s = string_map spec_sanitize_char s)
  /\
  (forall generateOperationId api defaultInclude h,
     exists x,
       extractToolsFromApi generateOperationId api defaultInclude h = Some x
       /\ Forall2
            (fun o t => operationId t = sanitize (base_name generateOperationId o))
            (filter (retained generateOperationId mcp_filter api defaultInclude)
               (declared_operations api))
            (x_tools x)
       /\ named_in_turn (x_tools x)
       /\ NoDup (map name (x_tools x))).
Proof.
  split; [exact sanitize_by_char|].
  intros generateOperationId api defaultInclude h.
  destruct (extraction_spec generateOperationId mcp_filter api defaultInclude h)
    as (x & Hx & Hbuilt & Hturn).
  exists x. split; [exact Hx|]. split; [|split].
  - eapply Forall2_impl; [exact Hbuilt|].
    intros [[[path pathItem] m] operation] t Ht. apply Ht.
  - exact Hturn.
  - now apply named_in_turn_NoDup.
Qed.

Example colliding_names :
  (fun x => map name (x_tools x)) <$>
    extractToolsFromApi no_generated_id colliding_document true ∅
  = Some ["pets_list"; "pets_list_1"].
Proof. vm_compute. reflexivity. Qed.

(** ** C6: security requirements *)

(** C6.  Every run returns, and the security requirements of each tool are
    the array its operation declares (empty or not), or else the array the
    document declares, or else none. *)
Theorem security_requirements_resolved generateOperationId api defaultInclude h :
  exists x,
    extractToolsFromApi generateOperationId api defaultInclude h = Some x
    /\ Forall2
         (fun (o : occurrence) t =>
            securityRequirements t =
            match op_security o.2 with
            | SecurityArray reqs => reqs
            | SecurityAbsent | SecurityNull =>
                match api_security api with
                | SecurityArray reqs => reqs
                | SecurityAbsent | SecurityNull => []
                end
            end)
         (filter (retained generateOperationId mcp_filter api defaultInclude)
            (declared_operations api))
         (x_tools x).
Proof.
  destruct (extraction_spec generateOperationId mcp_filter api defaultInclude h)
    as (x & Hx & Hbuilt & _).
  exists x. split; [exact Hx|].
  eapply Forall2_impl; [exact Hbuilt|].
  intros [[[path pathItem] m] operation] t (_ & _ & _ & Hsec). exact Hsec.
Qed.

(** ** A filter that throws *)

(** An operation-level [x-mcp: true] does not save the operation when the
    filter throws and the default is to exclude; with the default to include
    the same operation becomes a tool. *)
Example thrown_filter_ignores_x_mcp :
  (fun x => (map name (x_tools x), x_log x)) <$>
    process_operation no_generated_id throwing_filter (bare_document VUndefined)
      false "/pets" (bare_path_item VUndefined) GET
      (bare_operation (Some "listPets") (VBool true)) (initial_xstate ∅)
  = Some ([], [XMcpEvaluationError "listPets" (VBool true)])
  /\
  (fun x => (map name (x_tools x), x_log x)) <$>
    process_operation no_generated_id throwing_filter (bare_document (VBool false))
      true "/pets" (bare_path_item VUndefined) GET
      (bare_operation (Some "listPets") VUndefined) (initial_xstate ∅)
  = Some (["listPets"], [XMcpEvaluationError "listPets" (VBool false)]).
Proof. split; vm_compute; reflexivity. Qed.

(** ** C9: the recorded operation identifier *)

(** C9 fails: the tool built from the operation [pets.list] records the
    identifier [pets_list].  The variable [baseName] has been overwritten by
    its sanitized form when the tool is pushed. *)
Example operationId_is_sanitized :
  (fun x => map (fun t => (name t, operationId t)) (x_tools x)) <$>
    extractToolsFromApi no_generated_id dotted_document true ∅
  = Some [("pets_list", "pets_list")].
Proof. vm_compute. reflexivity. Qed.

(** ** Scenarios of the specification *)

Example nullable_integer_scenario :
  map_schema 1 nullable_integer_heap [] =
  Some (JObject [("type", JArray [VStr "number"; VStr "null"])],
        nullable_integer_heap, []).
Proof. vm_compute. reflexivity. Qed.

Example text_plain_body_scenario :
  (fun r => (inputSchema r.1.1, requestBodyContentType r.1.1)) <$>
    generateInputSchemaAndDetails text_body_operation (bare_path_item VUndefined) ∅ []
  = Some (JObject
            [("type", JRaw (VStr "object"));
             ("properties",
              JObject
                [("requestBody",
                  JObject
                    [("type", JRaw (VStr "string"));
                     ("description",
                      JRaw (VStr "Request body (content type: text/plain)"))])])],
          Some "text/plain").
Proof. vm_compute. reflexivity. Qed.

Example operation_wins_over_path_scenario :
  (fun x => map name (x_tools x)) <$>
    extractToolsFromApi no_generated_id overridden_document true ∅
  = Some ["listPets"].
Proof. vm_compute. reflexivity. Qed.

(** * Further properties of the extractor *)

(** ** The tools of a run, spelled out *)

Lemma add_parameter_pushes p g g' :
  add_parameter p g = Some g' -> only_nulls_pushed (g_heap g) (g_heap g').
Proof.
  unfold add_parameter.
  destruct (bool_decide _); [intros [= <-]; apply only_nulls_pushed_refl|].
  destruct (p_schema p) as [schema|]; [|intros [= <-]; apply only_nulls_pushed_refl].
  destruct (map_schema _ _ _) as [[[r h] log]|] eqn:Hm; [|discriminate].
  intros [= <-]. cbn. eapply map_schema_pushes_only, Hm.
Qed.

Lemma add_parameters_pushes ps : forall g g',
  add_parameters ps g = Some g' -> only_nulls_pushed (g_heap g) (g_heap g').
Proof.
  induction ps as [|p ps IH]; intros g g'; cbn.
  - intros [= <-]. apply only_nulls_pushed_refl.
  - destruct (add_parameter p g) as [g1|] eqn:Hp; [|discriminate].
    intros Hrest. eapply only_nulls_pushed_trans;
      [eapply add_parameter_pushes, Hp|eapply IH, Hrest].
Qed.

Lemma add_request_body_pushes rb g ct g' :
  add_request_body rb g = Some (ct, g') -> only_nulls_pushed (g_heap g) (g_heap g').
Proof.
  unfold add_request_body.
  destruct rb as [rb|]; [|intros [= _ <-]; apply only_nulls_pushed_refl].
  destruct (_ ≫= mt_schema) as [schema|].
  - destruct (map_schema _ _ _) as [[[r h] log]|] eqn:Hm; [|discriminate].
    intros [= _ <-]. cbn. eapply map_schema_pushes_only, Hm.
  - destruct (match rb_content rb with Some c => head c | None => None end)
      as [[contentType mt]|]; intros [= _ <-]; apply only_nulls_pushed_refl.
Qed.

Lemma generateInputSchemaAndDetails_pushes operation pathItem h log details h' log' :
  generateInputSchemaAndDetails operation pathItem h log = Some (details, h', log') ->
  only_nulls_pushed h h'.
Proof.
  unfold generateInputSchemaAndDetails, parameters_phase.
  destruct (add_parameters _ _) as [g|] eqn:Hg; [|discriminate].
  destruct (add_request_body _ g) as [[ct g']|] eqn:Hb; [|discriminate].
  intros [= _ <- _].
  eapply only_nulls_pushed_trans;
    [eapply add_parameters_pushes in Hg; exact Hg|eapply add_request_body_pushes, Hb].
Qed.

Lemma build_tool_tool generateOperationId api path pathItem m operation x :
  base_name generateOperationId (path, pathItem, m, operation) <> "" ->
  exists x' t,
    build_tool generateOperationId api path pathItem m operation x = Some x' /\
    x_tools x' = x_tools x ++ [t] /\
    tool_of generateOperationId api (path, pathItem, m, operation) t /\
    only_nulls_pushed (x_heap x) (x_heap x').
Proof.
  intros Hbase. unfold build_tool, tool_of, base_name in *.
  rewrite bool_decide_eq_false_2 by exact Hbase.
  set (baseName := sanitize _).
  destruct (unique_name_returns (x_usedNames x) baseName) as [final Hfinal].
  rewrite Hfinal.
  apply unique_name_spec in Hfinal as (k & -> & _ & _).
  destruct (generateInputSchemaAndDetails_returns operation pathItem
              (x_heap x) (x_log x)) as [[[details h] log] Hgen].
  rewrite Hgen.
  eexists _, _. split; [reflexivity|]. cbn [x_tools x_heap].
  split; [reflexivity|]. split.
  - exists k, (x_heap x), (x_log x), details, h, log. split; [exact Hgen|reflexivity].
  - eapply generateInputSchemaAndDetails_pushes, Hgen.
Qed.

(** ** C4: a filter that throws *)

Section MapperLogs.

Variable rec : loc -> mstate -> option (JSONSchema * mstate).
Hypothesis Hrec : log_grows rec.

Lemma map_properties_logs entries : forall mappedProps st mapped st',
  map_properties rec entries mappedProps st = Some (mapped, st') ->
  st_log st `prefix_of` st_log st'.
Proof.
  induction entries as [|[key propSchema] rest IH]; intros mappedProps st mapped st'.
  - intros [= _ <-]. reflexivity.
  - cbn [map_properties]. destruct propSchema as [| |b|n|s|l]; try apply IH.
    destruct (rec l st) as [[r st1]|] eqn:Hl; [|discriminate].
    intros Hrest. etransitivity; [eapply Hrec, Hl|eapply IH, Hrest].
Qed.

Lemma process_properties_logs js st js' st' :
  process_properties rec js st = Some (js', st') ->
  st_log st `prefix_of` st_log st'.
Proof.
  unfold process_properties.
  assert (Some (js, st) = Some (js', st') -> st_log st `prefix_of` st_log st')
    as Hsame by (intros [= _ <-]; reflexivity).
  destruct (strict_eq_str _ _); [|exact Hsame].
  destruct (js_get "properties" js) as [props| |]; try exact Hsame.
  destruct (truthy props); [|exact Hsame].
  destruct (map_properties _ _ _ _) as [[mapped st1]|] eqn:Hm; [|discriminate].
  intros [= _ <-]. eapply map_properties_logs, Hm.
Qed.

Lemma process_items_logs js st js' st' :
  process_items rec js st = Some (js', st') ->
  st_log st `prefix_of` st_log st'.
Proof.
  unfold process_items.
  assert (Some (js, st) = Some (js', st') -> st_log st `prefix_of` st_log st')
    as Hsame by (intros [= _ <-]; reflexivity).
  destruct (strict_eq_str _ _); [|exact Hsame].
  destruct (js_get "items" js) as [[| | | | |items]| |]; try exact Hsame.
  destruct (rec items st) as [[r st1]|] eqn:Hi; [|discriminate].
  intros [= _ <-]. eapply Hrec, Hi.
Qed.

Lemma map_body_logs o st r st' :
  map_body rec o st = Some (r, st') -> st_log st `prefix_of` st_log st'.
Proof.
  unfold map_body. set (js0 := delete_openapi_only _). clearbody js0.
  destruct (if truthy (get_prop o "nullable")
            then let '(js, h) := add_null_type js0 (st_heap st) in (js, set_heap h st)
            else (js0, st)) as [js1 st1] eqn:Hnull.
  assert (st_log st1 = st_log st) as H01.
  { destruct (truthy _).
    - destruct (add_null_type js0 (st_heap st)) as [js h].
      now injection Hnull as _ <-.
    - now injection Hnull as _ <-. }
  destruct (process_properties rec js1 st1) as [[js2 st2]|] eqn:Hp; [|discriminate].
  destruct (process_items rec js2 st2) as [[js3 st3]|] eqn:Hi; [|discriminate].
  intros [= _ <-]. rewrite <- H01.
  etransitivity; [eapply process_properties_logs, Hp|eapply process_items_logs, Hi].
Qed.

End MapperLogs.

Lemma mapper_logs fuel : log_grows (mapOpenApiSchemaToJsonSchema fuel).
Proof.
  induction fuel as [|fuel IH]; intros schema st r st'; [discriminate|].
  cbn [mapOpenApiSchemaToJsonSchema].
  destruct (assoc_get "$ref" _); [intros [= _ <-]; now apply prefix_app_r|].
  destruct (decide _); [intros [= _ <-]; now apply prefix_app_r|].
  destruct (map_body _ _ _) as [[r0 st0]|] eqn:Hbody; [|discriminate].
  intros [= _ <-]. apply (map_body_logs _ IH) in Hbody. exact Hbody.
Qed.

Lemma map_schema_logs schema h log r h' log' :
  map_schema schema h log = Some (r, h', log') -> log `prefix_of` log'.
Proof.
  unfold map_schema.
  destruct (mapOpenApiSchemaToJsonSchema _ _ _) as [[r0 st0]|] eqn:Hm; [|discriminate].
  intros [= _ _ <-]. now apply mapper_logs in Hm.
Qed.

Lemma add_parameters_logs ps : forall g g',
  add_parameters ps g = Some g' -> g_log g `prefix_of` g_log g'.
Proof.
  induction ps as [|p ps IH]; intros g g'; cbn.
  - intros [= <-]. reflexivity.
  - destruct (add_parameter p g) as [g1|] eqn:Hp; [|discriminate].
    intros Hrest. etransitivity; [|eapply IH, Hrest].
    unfold add_parameter in Hp.
    destruct (bool_decide _); [now injection Hp as <-|].
    destruct (p_schema p) as [schema|]; [|now injection Hp as <-].
    destruct (map_schema _ _ _) as [[[r h] log]|] eqn:Hm; [|discriminate].
    injection Hp as <-. cbn. eapply map_schema_logs, Hm.
Qed.

Lemma generateInputSchemaAndDetails_logs operation pathItem h log details h' log' :
  generateInputSchemaAndDetails operation pathItem h log = Some (details, h', log') ->
  log `prefix_of` log'.
Proof.
  unfold generateInputSchemaAndDetails, parameters_phase.
  destruct (add_parameters _ _) as [g|] eqn:Hg; [|discriminate].
  destruct (add_request_body _ g) as [[ct g']|] eqn:Hb; [|discriminate].
  intros [= _ _ <-]. apply add_parameters_logs in Hg. cbn in Hg.
  etransitivity; [exact Hg|].
  unfold add_request_body in Hb.
  destruct (op_requestBody operation) as [rb|]; [|now injection Hb as _ <-].
  destruct (_ ≫= mt_schema) as [schema|].
  - destruct (map_schema _ _ _) as [[[r h0] log0]|] eqn:Hm; [|discriminate].
    injection Hb as _ <-. cbn. eapply map_schema_logs, Hm.
  - destruct (match rb_content rb with Some c => head c | None => None end)
      as [[contentType mt]|]; now injection Hb as _ <-.
Qed.

Lemma build_tool_logs generateOperationId api path pathItem m operation x x' :
  build_tool generateOperationId api path pathItem m operation x = Some x' ->
  x_log x `prefix_of` x_log x'.
Proof.
  unfold build_tool. destruct (bool_decide _); [now intros [= <-]|].
  destruct (unique_name _ _); [|discriminate].
  destruct (generateInputSchemaAndDetails _ _ _ _) as [[[details h] log]|] eqn:Hgen;
    [|discriminate].
  intros [= <-]. cbn. eapply generateInputSchemaAndDetails_logs, Hgen.
Qed.



Section RunTools.

Variable generateOperationId : string -> string -> string.
Variable inclusion_filter :
  Document -> PathItemObject -> OperationObject -> bool -> filter_result.
Variable api : Document.
Variable defaultInclude : bool.

Lemma process_operation_tools path pathItem m operation x :
  exists x' new,
    process_operation generateOperationId inclusion_filter api defaultInclude
      path pathItem m operation x = Some x' /\
    x_tools x' = x_tools x ++ new /\
    Forall2 (tool_of generateOperationId api)
      (filter (retained generateOperationId inclusion_filter api defaultInclude)
         [(path, pathItem, m, operation)]) new /\
    only_nulls_pushed (x_heap x) (x_heap x').
Proof.
  unfold process_operation. rewrite filter_cons, filter_nil. unfold retained.
  destruct (apply_filter _ _ _ _ _ _ _) as [proceed warnings]. cbn [fst].
  destruct proceed; cbn [andb].
  - destruct (decide (base_name generateOperationId
                        (path, pathItem, m, operation) = "")) as [Hbase|Hbase].
    + rewrite build_tool_skips by exact Hbase.
      rewrite bool_decide_eq_true_2 by exact Hbase. cbn [negb].
      rewrite decide_False by (intros []).
      exists (x_warn warnings x), []. rewrite app_nil_r.
      repeat split; auto using only_nulls_pushed_refl; constructor.
    + destruct (build_tool_tool generateOperationId api path pathItem m operation
                  (x_warn warnings x) Hbase) as (x' & t & -> & Htools & Htool & Hheap).
      rewrite bool_decide_eq_false_2 by exact Hbase. cbn [negb].
      rewrite decide_True by exact I.
      exists x', [t]. repeat split; auto.
  - rewrite decide_False by (intros []).
    exists (x_warn warnings x), []. rewrite app_nil_r.
    repeat split; auto using only_nulls_pushed_refl; constructor.
Qed.

Lemma run_tools os : forall x,
  exists x' new,
    process_occurrences generateOperationId inclusion_filter api defaultInclude
      os x = Some x' /\
    x_tools x' = x_tools x ++ new /\
    Forall2 (tool_of generateOperationId api)
      (filter (retained generateOperationId inclusion_filter api defaultInclude) os)
      new /\
    only_nulls_pushed (x_heap x) (x_heap x').
Proof.
  induction os as [|[[[path pathItem] m] operation] os IH]; intros x.
  - exists x, []. rewrite app_nil_r.
    repeat split; auto using only_nulls_pushed_refl; constructor.
  - destruct (process_operation_tools path pathItem m operation x)
      as (x1 & new1 & Hstep & Htools1 & Hbuilt1 & Hheap1).
    destruct (IH x1) as (x' & new2 & Hrun & Htools2 & Hbuilt2 & Hheap2).
    exists x', (new1 ++ new2). cbn [process_occurrences]. rewrite Hstep, Hrun.
    split; [reflexivity|]. split; [now rewrite Htools2, Htools1, app_assoc|].
    split; [|eapply only_nulls_pushed_trans; eassumption].
    change ((path, pathItem, m, operation) :: os)
      with ([(path, pathItem, m, operation)] ++ os).
    rewrite filter_app. now apply Forall2_app.
Qed.

End RunTools.

(** Every run returns; its tools are those of the retained operations, in
    order, each as [tool_of] spells it out; and the heap is left as it was
    but for ['null'] pushed onto arrays. *)
Lemma extraction_tools generateOperationId inclusion_filter api defaultInclude h :
  exists x,
    extractToolsFromApi_with generateOperationId inclusion_filter api
      defaultInclude h = Some x /\
    Forall2 (tool_of generateOperationId api)
      (filter (retained generateOperationId inclusion_filter api defaultInclude)
         (declared_operations api))
      (x_tools x) /\
    only_nulls_pushed h (x_heap x).
Proof.
  rewrite extract_as_loop.
  destruct (run_tools generateOperationId inclusion_filter api defaultInclude
              (declared_operations api) (initial_xstate h))
    as (x & new & Hrun & Htools & Hbuilt & Hheap).
  exists x. split; [exact Hrun|]. cbn in Htools. rewrite Htools.
  split; [exact Hbuilt|exact Hheap].
Qed.

(** ** Names, order and descriptions of the tools *)

Lemma string_forallb_app p s1 s2 :
  string_forallb p (s1 +:+ s2) = string_forallb p s1 && string_forallb p s2.
Proof.
  induction s1 as [|c s1 IH]; [reflexivity|].
  change (String c s1 +:+ s2) with (String c (s1 +:+ s2)).
  cbn [string_forallb]. rewrite IH. now rewrite andb_assoc.
Qed.

Lemma string_forallb_map p f s :
  (forall c, p (f c) = true) -> string_forallb p (string_map f s) = true.
Proof.
  intros Hf. induction s as [|c s IH]; [reflexivity|].
  cbn. now rewrite Hf, IH.
Qed.

Lemma string_map_id_on p f s :
  (forall c, p c = true -> f c = c) ->
  string_forallb p s = true -> string_map f s = s.
Proof.
  intros Hf. induction s as [|c s IH]; [reflexivity|].
  cbn. intros [Hc Hs]%andb_true_iff. now rewrite (Hf c Hc), IH.
Qed.

Lemma string_map_length f s : String.length (string_map f s) = String.length s.
Proof. induction s as [|c s IH]; [reflexivity|]. cbn. now rewrite IH. Qed.

Lemma is_name_char_underscore : is_name_char "_" = true.
Proof. reflexivity. Qed.

Lemma is_name_char_not_dot c : is_name_char c = true -> c <> "."%char.
Proof. intros Hc ->. discriminate. Qed.

Lemma sanitize_name_chars s : string_forallb is_name_char (sanitize s) = true.
Proof.
  unfold sanitize, replace_non_name_chars. apply string_forallb_map.
  intros c. destruct (is_name_char c) eqn:Hc; [exact Hc|reflexivity].
Qed.

Lemma sanitize_length s : String.length (sanitize s) = String.length s.
Proof.
  unfold sanitize, replace_non_name_chars, replace_dots.
  now rewrite !string_map_length.
Qed.

Lemma sanitize_fixes s : string_forallb is_name_char s = true -> sanitize s = s.
Proof.
  intros Hs. unfold sanitize, replace_non_name_chars, replace_dots.
  rewrite (string_map_id_on is_name_char
             (fun c => if decide (c = "."%char) then "_"%char else c) s); [| |exact Hs].
  - apply (string_map_id_on is_name_char); [|exact Hs].
    intros c Hc. now rewrite Hc.
  - intros c Hc. destruct (decide (c = "."%char)) as [->|]; [discriminate|reflexivity].
Qed.

Lemma sanitize_nonempty s : s <> "" -> sanitize s <> "".
Proof.
  intros Hs Heq. apply Hs.
  pose proof (sanitize_length s) as Hlen. rewrite Heq in Hlen.
  destruct s; [reflexivity|discriminate].
Qed.

Lemma pretty_N_char_is_name_char d : is_name_char (pretty_N_char d) = true.
Proof. unfold pretty_N_char. repeat case_match; reflexivity. Qed.

Lemma pretty_N_go_name_chars x : forall s,
  string_forallb is_name_char s = true ->
  string_forallb is_name_char (pretty_N_go x s) = true.
Proof.
  induction (N.lt_wf_0 x) as [x _ IH]. intros s Hs.
  destruct (decide (0 < x)%N) as [Hpos|Hzero].
  - rewrite pretty_N_go_step by exact Hpos. apply IH.
    + now apply N.div_lt.
    + cbn. now rewrite pretty_N_char_is_name_char, Hs.
  - assert (x = 0%N) as -> by lia. now rewrite pretty_N_go_0.
Qed.

Lemma pretty_nat_name_chars (n : nat) : string_forallb is_name_char (pretty n) = true.
Proof.
  unfold pretty, pretty_nat, pretty, pretty_N.
  destruct (decide (N.of_nat n = 0%N)); [reflexivity|].
  now apply pretty_N_go_name_chars.
Qed.

Lemma candidate_mcp_compatible baseName k :
  mcp_compatible baseName -> mcp_compatible (candidate baseName k).
Proof.
  intros [Hne Hchars]. destruct k as [|k]; [now split|].
  cbn [candidate]. unfold suffixed. split.
  - destruct baseName; [contradiction|discriminate].
  - rewrite !string_forallb_app, Hchars, pretty_nat_name_chars. reflexivity.
Qed.

Lemma Forall2_filter_l {A B} (P : A -> bool) (R : A -> B -> Prop) l : forall k,
  Forall2 R (filter P l) k ->
  Forall2 (fun a b => P a = true /\ R a b) (filter P l) k.
Proof.
  induction l as [|a l IH]; intros k.
  - rewrite filter_nil. intros Hk. inversion Hk. constructor.
  - rewrite filter_cons. destruct (decide (P a)) as [Ha|Ha]; [|apply IH].
    intros Hk. inversion Hk as [|? b ? k' HR Hrest]; subst.
    constructor; [|now apply IH].
    split; [now apply Is_true_true|exact HR].
Qed.

Lemma extraction_retained_tools generateOperationId api defaultInclude h :
  exists x,
    extractToolsFromApi generateOperationId api defaultInclude h = Some x /\
    Forall2 (fun o t =>
               retained generateOperationId mcp_filter api defaultInclude o = true /\
               tool_of generateOperationId api o t)
      (filter (retained generateOperationId mcp_filter api defaultInclude)
         (declared_operations api))
      (x_tools x) /\
    only_nulls_pushed h (x_heap x).
Proof.
  destruct (extraction_tools generateOperationId mcp_filter api defaultInclude h)
    as (x & Hx & Htools & Hheap).
  exists x. split; [exact Hx|]. split; [|exact Hheap].
  now apply Forall2_filter_l.
Qed.

Lemma retained_base_name generateOperationId inclusion_filter api defaultInclude o :
  retained generateOperationId inclusion_filter api defaultInclude o = true ->
  base_name generateOperationId o <> "".
Proof.
  destruct o as [[[path pathItem] m] operation]. unfold retained.
  intros [_ Hbase]%andb_true_iff Heq.
  rewrite bool_decide_eq_true_2 in Hbase by exact Heq. discriminate.
Qed.

(** X1.  Every run returns, and its tools stand in the order of the
    declared operations that are retained (paths in declaration order, the
    methods of a path in the order get, put, post, delete, options, head,
    patch, trace), each recording the path and the method of its
    operation. *)
Theorem tools_follow_document_order generateOperationId api defaultInclude h :
  exists x,
    extractToolsFromApi generateOperationId api defaultInclude h = Some x /\
    map (fun t => (pathTemplate t, method t)) (x_tools x) =
    map (fun o : occurrence => (o.1.1.1, o.1.2))
      (filter (retained generateOperationId mcp_filter api defaultInclude)
         (declared_operations api)).
Proof.
  destruct (extraction_tools generateOperationId mcp_filter api defaultInclude h)
    as (x & Hx & Htools & _).
  exists x. split; [exact Hx|].
  induction Htools as [|[[[path pathItem] m] operation] t os ts Ht _ IH];
    [reflexivity|].
  cbn [map]. rewrite IH. f_equal.
  destruct Ht as (k & h0 & log0 & details & h1 & log1 & _ & ->). reflexivity.
Qed.

(** X2.  Every tool of every run has a name, and records an operation
    identifier, that is not empty and consists of characters of
    [[A-Za-z0-9_-]] only. *)
Theorem tool_names_are_mcp_compatible generateOperationId api defaultInclude h :
  exists x,
    extractToolsFromApi generateOperationId api defaultInclude h = Some x /\
    Forall (fun t => mcp_compatible (name t) /\ mcp_compatible (operationId t))
      (x_tools x).
Proof.
  destruct (extraction_retained_tools generateOperationId api defaultInclude h)
    as (x & Hx & Htools & _).
  exists x. split; [exact Hx|].
  apply Forall2_Forall_r with (1 := Htools). apply Forall_forall.
  intros [[[path pathItem] m] operation] _ t [Hkept Ht].
  apply retained_base_name in Hkept.
  destruct Ht as (k & h0 & log0 & details & h1 & log1 & _ & ->).
  cbn [name operationId].
  assert (mcp_compatible
            (sanitize (base_name generateOperationId (path, pathItem, m, operation))))
    as Hbase.
  { split; [now apply sanitize_nonempty|apply sanitize_name_chars]. }
  split; [now apply candidate_mcp_compatible|exact Hbase].
Qed.

Lemma str_or_nonempty a b : b <> "" -> str_or a b <> "".
Proof.
  intros Hb. unfold str_or. destruct a as [s|]; [|exact Hb].
  destruct (bool_decide (s = "")) eqn:Hs; [exact Hb|].
  now apply bool_decide_eq_false in Hs.
Qed.

(** X3.  Every tool of every run is described, and never by the empty
    string: by the description of its operation when that is a non-empty
    string, else by its summary when that is one, else by
    ["Executes METHOD path"] with the method in upper case. *)
Theorem tools_are_described generateOperationId api defaultInclude h :
  exists x,
    extractToolsFromApi generateOperationId api defaultInclude h = Some x /\
    Forall2
      (fun (o : occurrence) t =>
         description t <> "" /\
         (forall s, op_description o.2 = Some s -> s <> "" -> description t = s) /\
         (truthy_str (op_description o.2) = false ->
          forall s, op_summary o.2 = Some s -> s <> "" -> description t = s) /\
         (truthy_str (op_description o.2) = false ->
          truthy_str (op_summary o.2) = false ->
          description t =
          "Executes " +:+ toUpperCase (method_name o.1.2) +:+ " " +:+ o.1.1.1))
      (filter (retained generateOperationId mcp_filter api defaultInclude)
         (declared_operations api))
      (x_tools x).
Proof.
  destruct (extraction_tools generateOperationId mcp_filter api defaultInclude h)
    as (x & Hx & Htools & _).
  exists x. split; [exact Hx|].
  eapply Forall2_impl; [exact Htools|].
  intros [[[path pathItem] m] operation] t
    (k & h0 & log0 & details & h1 & log1 & _ & ->).
  cbn [description fst snd]. unfold str_or, truthy_str.
  repeat split.
  - destruct (op_description operation) as [s|];
      [destruct (bool_decide (s = "")) eqn:Hs;
       [|now apply bool_decide_eq_false in Hs]|];
      (destruct (op_summary operation) as [s'|];
       [destruct (bool_decide (s' = "")) eqn:Hs';
        [discriminate|now apply bool_decide_eq_false in Hs']|discriminate]).
  - intros s -> Hs. now rewrite bool_decide_eq_false_2 by exact Hs.
  - intros Hd s -> Hs.
    destruct (op_description operation) as [s0|].
    + destruct (bool_decide (s0 = "")); [|discriminate].
      now rewrite bool_decide_eq_false_2 by exact Hs.
    + now rewrite bool_decide_eq_false_2 by exact Hs.
  - intros Hd Hs.
    destruct (op_description operation) as [s0|];
      [destruct (bool_decide (s0 = "")); [|discriminate]|];
      (destruct (op_summary operation) as [s1|];
       [destruct (bool_decide (s1 = "")); [reflexivity|discriminate]|reflexivity]).
Qed.

(** X4.  Sanitizing keeps the length of the identifier, yields characters
    of [[A-Za-z0-9_-]] only, and changes nothing in an identifier that is
    made of such characters already; so it is idempotent. *)
Theorem sanitize_is_a_projection (s : string) :
  String.length (sanitize s) = String.length s
  /\ string_forallb is_name_char (sanitize s) = true
  /\ (string_forallb is_name_char s = true <-> sanitize s = s)
  /\ sanitize (sanitize s) = sanitize s.
Proof.
  split; [apply sanitize_length|]. split; [apply sanitize_name_chars|].
  split; [|apply sanitize_fixes, sanitize_name_chars].
  split; [apply sanitize_fixes|]. intros <-. apply sanitize_name_chars.
Qed.

(** X5.  A run of the extractor changes no plain object of the source
    document and removes none; the only change it makes to an array is
    ['null'] pushed once onto an array that did not hold it. *)
Theorem extraction_only_pushes_null generateOperationId api defaultInclude h :
  exists x,
    extractToolsFromApi generateOperationId api defaultInclude h = Some x
    /\ (forall l fields,
          h !! l = Some (OObject fields) -> x_heap x !! l = Some (OObject fields))
    /\ (forall l elems,
          h !! l = Some (OArray elems) ->
          x_heap x !! l = Some (OArray elems) \/
          (includes (VStr "null") elems = false /\
           x_heap x !! l = Some (OArray (elems ++ [VStr "null"]))))
    /\ dom (x_heap x) = dom h.
Proof.
  destruct (extraction_tools generateOperationId mcp_filter api defaultInclude h)
    as (x & Hx & _ & Hheap).
  exists x. split; [exact Hx|]. split; [|split].
  - intros l fields Hl. specialize (Hheap l). rewrite Hl in Hheap.
    inversion Hheap as [o o' Hpush|]; subst.
    destruct Hpush as [->|(elems & Habs & _)]; [reflexivity|discriminate].
  - intros l elems Hl. specialize (Hheap l). rewrite Hl in Hheap.
    inversion Hheap as [o o' Hpush|]; subst.
    destruct Hpush as [->|(elems' & [= <-] & Hnot & ->)]; [now left|now right].
  - apply set_eq. intros l. rewrite !elem_of_dom. specialize (Hheap l).
    inversion Hheap; split; intros [? ?]; eauto; congruence.
Qed.

(** ** The merged parameters and the input schema *)

Lemma assoc_set_values {A} k (x x' : A) fs :
  x' ∈ map snd (assoc_set k x fs) -> x' = x \/ x' ∈ map snd fs.
Proof.
  induction fs as [|[k0 y] fs IH]; cbn.
  - rewrite list_elem_of_singleton. tauto.
  - destruct (decide (k0 = k)); cbn; rewrite !elem_of_cons; [tauto|].
    intros [->|Hin]; [tauto|]. destruct (IH Hin); tauto.
Qed.

Lemma map_set_named_keys m p n :
  n ∈ (map_set_named m p).*1 <-> n ∈ m.*1 \/ (n = p_name p /\ n <> "").
Proof.
  unfold map_set_named. destruct (bool_decide (p_name p = "")) eqn:Hp.
  - apply bool_decide_eq_true in Hp. split; [tauto|].
    intros [Hin|[-> Hne]]; [exact Hin|contradiction].
  - apply bool_decide_eq_false in Hp. rewrite assoc_set_keys.
    split; [intros [->|Hin]; tauto|intros [Hin|[-> _]]; tauto].
Qed.

Lemma foldl_map_set_keys ps : forall m n,
  n ∈ (foldl map_set_named m ps).*1 <->
  n ∈ m.*1 \/ (n <> "" /\ n ∈ map p_name ps).
Proof.
  induction ps as [|p ps IH]; intros m n; cbn [foldl map].
  - rewrite elem_of_nil. tauto.
  - rewrite IH, map_set_named_keys, elem_of_cons. tauto.
Qed.

Lemma foldl_map_set_values ps : forall m p,
  p ∈ map snd (foldl map_set_named m ps) -> p ∈ map snd m \/ p ∈ ps.
Proof.
  induction ps as [|q ps IH]; intros m p; cbn [foldl]; [tauto|].
  intros Hin. apply IH in Hin as [Hin|Hin]; [|right; now right].
  unfold map_set_named in Hin. destruct (bool_decide _); [now left|].
  apply assoc_set_values in Hin as [->|Hin]; [right; left|now left].
Qed.

(** X6.  The merged parameters of an operation have pairwise distinct,
    non-empty names; the names are exactly the non-empty names declared at
    the path or at the operation; and every merged parameter is one of the
    declared ones. *)
Theorem merged_parameters_are_the_named_ones
    (pathParameters operationParameters : list ParameterObject) :
  NoDup (map p_name (merge_parameters pathParameters operationParameters))
  /\ (forall n,
        n ∈ map p_name (merge_parameters pathParameters operationParameters) <->
        n <> "" /\ n ∈ map p_name (pathParameters ++ operationParameters))
  /\ (forall p,
        p ∈ merge_parameters pathParameters operationParameters ->
        p ∈ pathParameters ++ operationParameters).
Proof.
  split; [apply merge_parameters_NoDup|]. unfold merge_parameters.
  set (m := foldl map_set_named (foldl map_set_named [] pathParameters)
              operationParameters).
  assert (well_keyed m) as Hwk
    by (apply well_keyed_foldl, well_keyed_foldl, well_keyed_nil).
  split.
  - intros n. rewrite (well_keyed_names m Hwk). unfold m.
    rewrite !foldl_map_set_keys, map_app, elem_of_app. cbn.
    rewrite elem_of_nil. tauto.
  - intros p Hp. unfold m in Hp.
    apply foldl_map_set_values in Hp as [Hp|Hp]; [|apply elem_of_app; now right].
    apply foldl_map_set_values in Hp as [Hp|Hp]; [|apply elem_of_app; now left].
    now apply elem_of_nil in Hp.
Qed.

Lemma List_filter_sublist {A} (f : A -> bool) (l : list A) :
  List.filter f l `sublist_of` l.
Proof.
  induction l as [|a l IH]; [constructor|]. cbn [List.filter].
  destruct (f a); [now apply sublist_skip|now apply sublist_cons].
Qed.

Lemma elem_of_List_filter {A} (f : A -> bool) (l : list A) (a : A) :
  a ∈ List.filter f l <-> a ∈ l /\ f a = true.
Proof. rewrite !list_elem_of_In. apply List.filter_In. Qed.

(** No assignment creates an own property [__proto__]. *)
Lemma fields_set_no_proto {A} k (x : A) fs :
  ("__proto__" ∉ fs.*1) -> ("__proto__" ∉ (fields_set k x fs).*1).
Proof.
  intros Hfs. rewrite fields_set_keys. intros [[<- [Hne|Hin]]|Hin]; auto.
Qed.

Lemma add_parameter_schema p g g' :
  ("__proto__" ∉ (g_properties g).*1) ->
  add_parameter p g = Some g' ->
  g_required g' = g_required g ++ required_parameters [p]
  /\ ("__proto__" ∉ (g_properties g').*1)
  /\ (forall n,
        n ∈ (g_properties g').*1 <->
        n ∈ (g_properties g).*1 \/
        (n <> "__proto__" /\ p_name p = n /\ has_schema p = true)).
Proof.
  unfold add_parameter. intros Hproto.
  assert (required_parameters [p] =
          if has_schema p && p_required p then [p_name p] else []) as ->.
  { unfold required_parameters. cbn. now destruct (has_schema p && p_required p). }
  unfold has_schema.
  destruct (bool_decide (p_name p = "")) eqn:Hname.
  { intros [= <-]. cbn. rewrite app_nil_r. split; [reflexivity|].
    split; [exact Hproto|]. intros n. split; [tauto|].
    intros [Hn|(_ & _ & Habs)]; [exact Hn|discriminate]. }
  destruct (p_schema p) as [schema|].
  2:{ intros [= <-]. cbn. rewrite app_nil_r. split; [reflexivity|].
      split; [exact Hproto|]. intros n. split; [tauto|].
      intros [Hn|(_ & _ & Habs)]; [exact Hn|discriminate]. }
  destruct (map_schema _ _ _) as [[[r h] log]|]; [|discriminate].
  intros [= <-]. cbn [g_required g_properties negb andb].
  split; [now destruct (p_required p); [|rewrite app_nil_r]|].
  split; [now apply fields_set_no_proto|].
  intros n. rewrite fields_set_keys. split.
  - intros [[-> [Hne|Hin]]|Hin]; auto.
  - intros [Hin|(Hne & <- & _)]; auto.
Qed.

Lemma add_parameters_schema ps : forall g g',
  ("__proto__" ∉ (g_properties g).*1) ->
  add_parameters ps g = Some g' ->
  g_required g' = g_required g ++ required_parameters ps
  /\ ("__proto__" ∉ (g_properties g').*1)
  /\ (forall n,
        n ∈ (g_properties g').*1 <->
        n ∈ (g_properties g).*1 \/
        (n <> "__proto__" /\ exists p, p ∈ ps /\ p_name p = n /\ has_schema p = true)).
Proof.
  induction ps as [|p ps IH]; intros g g' Hproto; cbn [add_parameters].
  - intros [= <-]. unfold required_parameters. cbn. rewrite app_nil_r.
    split; [reflexivity|]. split; [exact Hproto|]. intros n. split; [tauto|].
    intros [Hn|(_ & q & Hq & _)]; [exact Hn|now apply elem_of_nil in Hq].
  - destruct (add_parameter p g) as [g1|] eqn:Hp; [|discriminate]. intros Hps.
    destruct (add_parameter_schema p g g1 Hproto Hp) as (Hreq1 & Hproto1 & Hkeys1).
    destruct (IH g1 g' Hproto1 Hps) as (Hreq & Hproto' & Hkeys).
    split; [|split; [exact Hproto'|]].
    + rewrite Hreq, Hreq1, <- app_assoc. f_equal.
      unfold required_parameters. cbn [List.filter].
      destruct (has_schema p && p_required p); reflexivity.
    + intros n. rewrite Hkeys, Hkeys1. split.
      * intros [[Hn|(Hne & Hname & Hs)]|(Hne & q & Hq & Hname & Hs)]; auto.
        -- right. split; [exact Hne|]. exists p. split; [left|auto].
        -- right. split; [exact Hne|]. exists q. split; [now right|auto].
      * intros [Hn|(Hne & q & Hq & Hname & Hs)]; auto.
        apply elem_of_cons in Hq as [->|Hq]; [left; right; auto|].
        right. split; [exact Hne|]. exists q. auto.
Qed.

Lemma add_request_body_schema rb g ct g' :
  ("__proto__" ∉ (g_properties g).*1) ->
  add_request_body rb g = Some (ct, g') ->
  g_required g' = g_required g ++ required_body rb ct
  /\ (forall n,
        n ∈ (g_properties g').*1 <->
        n ∈ (g_properties g).*1 \/ (n = "requestBody" /\ ct <> None)).
Proof.
  unfold add_request_body, required_body. intros Hproto.
  assert (forall (x : JSONSchema) n,
            n ∈ (fields_set "requestBody" x (g_properties g)).*1 <->
            n ∈ (g_properties g).*1 \/ (n = "requestBody" /\ Some "x" <> @None string))
    as Hkeys.
  { intros x n. rewrite fields_set_keys. split.
    - intros [[-> _]|Hin]; [right; split; [reflexivity|discriminate]|now left].
    - intros [Hin|[-> _]]; [now right|left]. split; [reflexivity|left; discriminate]. }
  destruct rb as [rb|].
  2:{ intros [= <- <-]. rewrite app_nil_r. split; [reflexivity|].
      intros n. split; [tauto|]. intros [Hn|[_ Habs]]; [exact Hn|contradiction]. }
  destruct (_ ≫= mt_schema) as [schema|].
  - destruct (map_schema _ _ _) as [[[r h] log]|]; [|discriminate].
    intros [= <- <-]. cbn [g_required g_properties]. split.
    + unfold push_if. destruct (rb_required rb); [reflexivity|now rewrite app_nil_r].
    + intros n. rewrite Hkeys. split; (intros [Hn|[-> _]]; [now left|right]);
        split; reflexivity || discriminate.
  - destruct (match rb_content rb with Some c => head c | None => None end)
      as [[contentType mt]|]; intros [= <- <-].
    + cbn [g_required g_properties]. split.
      * unfold push_if. destruct (rb_required rb); [reflexivity|now rewrite app_nil_r].
      * intros n. rewrite Hkeys. split; (intros [Hn|[-> _]]; [now left|right]);
          split; reflexivity || discriminate.
    + rewrite app_nil_r. split; [reflexivity|].
      intros n. split; [tauto|]. intros [Hn|[_ Habs]]; [exact Hn|contradiction].
Qed.

(** X7.  The input schema generated for an operation is an object schema
    with a properties map, even when the map is empty.  Its required names
    are, in order, the names of the merged parameters that have a schema and
    are required, followed by [requestBody] when a request body property was
    written and the request body is required; the [required] entry is
    present exactly when there is such a name.  The keys of the properties
    map are the names, other than [__proto__], of the merged parameters
    that have a schema, and [requestBody] when a content type is returned;
    so every required name but [__proto__] has a property.  The parameters
    returned are the merged ones. *)
Theorem input_schema_is_an_object_schema
    (operation : OperationObject) (pathItem : PathItemObject) (h : heap)
    (log : list diagnostic) :
  exists details h' log' properties required,
    generateInputSchemaAndDetails operation pathItem h log = Some (details, h', log')
    /\ parameters details =
       merge_parameters (pi_parameters pathItem) (op_parameters operation)
    /\ inputSchema details =
       JObject ([("type", JRaw (VStr "object")); ("properties", JObject properties)]
                ++ if bool_decide (required = []) then []
                   else [("required", JArray (map VStr required))])
    /\ required =
       required_parameters (parameters details)
       ++ required_body (op_requestBody operation) (requestBodyContentType details)
    /\ (forall n,
          n ∈ properties.*1 <->
          (n <> "__proto__" /\
           exists p, p ∈ parameters details /\ p_name p = n /\ has_schema p = true)
          \/ (n = "requestBody" /\ requestBodyContentType details <> None))
    /\ (forall n, n ∈ required -> n <> "__proto__" -> n ∈ properties.*1).
Proof.
  unfold generateInputSchemaAndDetails, parameters_phase.
  set (merged := merge_parameters (pi_parameters pathItem) (op_parameters operation)).
  destruct (add_parameters_returns merged
              {| g_properties := []; g_required := []; g_heap := h; g_log := log |})
    as [g Hg].
  rewrite Hg.
  destruct (add_parameters_schema merged
              {| g_properties := []; g_required := []; g_heap := h; g_log := log |} g)
    as (Hreq & Hproto & Hkeys); [apply not_elem_of_nil|exact Hg|].
  cbn [g_required g_properties app] in Hreq, Hkeys.
  destruct (add_request_body_returns (op_requestBody operation) g) as [[ct g'] Hbody].
  rewrite Hbody.
  destruct (add_request_body_schema _ _ _ _ Hproto Hbody) as [Hreq' Hkeys'].
  assert (forall n,
            n ∈ (g_properties g').*1 <->
            (n <> "__proto__" /\
             exists p, p ∈ merged /\ p_name p = n /\ has_schema p = true)
            \/ (n = "requestBody" /\ ct <> None)) as Hall.
  { intros n. rewrite Hkeys', Hkeys. cbn. rewrite elem_of_nil. tauto. }
  eexists _, _, _, (g_properties g'), (g_required g').
  split; [reflexivity|]. cbn [parameters inputSchema requestBodyContentType].
  split; [reflexivity|]. split; [|split; [|split]].
  - unfold make_input_schema. destruct (g_required g'); reflexivity.
  - now rewrite Hreq', Hreq.
  - exact Hall.
  - intros n Hn Hne. apply Hall. rewrite Hreq', Hreq, elem_of_app in Hn.
    destruct Hn as [Hn|Hn].
    + left. split; [exact Hne|]. unfold required_parameters in Hn.
      apply list_elem_of_fmap in Hn as (p & -> & Hp).
      apply elem_of_List_filter in Hp as [Hp Hs].
      apply andb_prop in Hs as [Hs _]. exists p. auto.
    + right. unfold required_body in Hn.
      destruct (op_requestBody operation) as [rb|]; [|now apply elem_of_nil in Hn].
      destruct ct as [c|]; [|now apply elem_of_nil in Hn].
      destruct (rb_required rb); [|now apply elem_of_nil in Hn].
      apply list_elem_of_singleton in Hn. split; [exact Hn|discriminate].
Qed.

(** A required parameter named [__proto__] is listed as required and has
    no property; the properties named by array indices stand first, in
    ascending order. *)
Example odd_parameter_names :
  (fun r => inputSchema r.1.1) <$>
    generateInputSchemaAndDetails odd_names_operation (bare_path_item VUndefined)
      override_heap [] =
  Some (JObject
          [("type", JRaw (VStr "object"));
           ("properties",
            JObject
              [("2", JObject [("type", JRaw (VStr "number"));
                              ("description", JRaw VUndefined)]);
               ("10", JObject [("type", JRaw (VStr "string"));
                               ("description", JRaw VUndefined)])]);
           ("required", JArray [VStr "__proto__"])]).
Proof. vm_compute. reflexivity. Qed.

(** X8.  When the request body of an operation has content but no
    [application/json] entry with a schema, the input schema gets a
    string-typed property [requestBody], described by the request body's
    description when that is a non-empty string and else by
    ["Request body (content type: T)"], where [T], the content type that is
    also returned, is the first declared one; the heap and the log are those
    the parameter loop left.  [requestBody] is appended to the required
    names exactly when the request body is required. *)
Theorem other_request_body_property
    (operation : OperationObject) (pathItem : PathItemObject) (h : heap)
    (log : list diagnostic) (opRequestBody : RequestBodyObject)
    (content : list (string * MediaTypeObject)) (contentType : string)
    (first : MediaTypeObject) :
  op_requestBody operation = Some opRequestBody ->
  rb_content opRequestBody = Some content ->
  assoc_get "application/json" content ≫= mt_schema = None ->
  head content = Some (contentType, first) ->
  exists g d,
    parameters_phase operation pathItem h log = Some g
    /\ generateInputSchemaAndDetails operation pathItem h log =
       Some ({| inputSchema :=
                  make_input_schema
                    (fields_set "requestBody"
                       (JObject [("type", JRaw (VStr "string"));
                                 ("description", JRaw (VStr d))])
                       (g_properties g))
                    (g_required g ++
                     if rb_required opRequestBody then ["requestBody"] else []);
                parameters := merge_parameters (pi_parameters pathItem)
                                (op_parameters operation);
                requestBodyContentType := Some contentType |},
             g_heap g, g_log g)
    /\ (forall s, rb_description opRequestBody = Some s -> s <> "" -> d = s)
    /\ (truthy_str (rb_description opRequestBody) = false ->
        d = "Request body (content type: " +:+ contentType +:+ ")").
Proof.
  intros Hrb Hcontent Hjson Hfirst.
  unfold generateInputSchemaAndDetails.
  destruct (add_parameters_returns
              (merge_parameters (pi_parameters pathItem) (op_parameters operation))
              {| g_properties := []; g_required := []; g_heap := h; g_log := log |})
    as [g Hg].
  fold (parameters_phase operation pathItem h log) in Hg. rewrite Hg.
  exists g, (str_or (rb_description opRequestBody)
               ("Request body (content type: " +:+ contentType +:+ ")")).
  split; [reflexivity|]. split; [|split].
  - unfold add_request_body. rewrite Hrb, Hcontent, Hjson, Hfirst.
    cbn [g_heap g_log g_properties g_required].
    assert ((if truthy_str (rb_description opRequestBody)
             then value_of_opt_str (rb_description opRequestBody)
             else VStr ("Request body (content type: " +:+ contentType +:+ ")"))
            = VStr (str_or (rb_description opRequestBody)
                      ("Request body (content type: " +:+ contentType +:+ ")")))
      as ->.
    { unfold truthy_str, str_or, value_of_opt_str.
      destruct (rb_description opRequestBody) as [s|]; [|reflexivity].
      now destruct (bool_decide (s = "")). }
    unfold push_if. destruct (rb_required opRequestBody);
      [reflexivity|now rewrite app_nil_r].
  - intros s -> Hs. unfold str_or. now rewrite bool_decide_eq_false_2 by exact Hs.
  - unfold truthy_str, str_or. destruct (rb_description opRequestBody) as [s|];
      [|reflexivity].
    destruct (bool_decide (s = "")); [reflexivity|discriminate].
Qed.

Lemma text_body_property :
  exists g d,
    parameters_phase text_body_operation (bare_path_item VUndefined) ∅ [] = Some g
    /\ generateInputSchemaAndDetails text_body_operation (bare_path_item VUndefined)
         ∅ [] =
       Some ({| inputSchema :=
                  make_input_schema
                    (fields_set "requestBody"
                       (JObject [("type", JRaw (VStr "string"));
                                 ("description", JRaw (VStr d))])
                       (g_properties g))
                    (g_required g ++ if false then ["requestBody"] else []);
                parameters := merge_parameters [] [];
                requestBodyContentType := Some "text/plain" |},
             g_heap g, g_log g)
    /\ (forall s, None = Some s -> s <> "" -> d = s)
    /\ (truthy_str None = false ->
        d = "Request body (content type: " +:+ "text/plain" +:+ ")").
Proof.
  apply (other_request_body_property text_body_operation (bare_path_item VUndefined)
           ∅ []
           {| rb_description := None; rb_required := false;
              rb_content := Some [("text/plain", {| mt_schema := None |})] |}
           [("text/plain", {| mt_schema := None |})] "text/plain"
           {| mt_schema := None |}); reflexivity.
Defined.

(** ** The fields of a mapped schema *)

Lemma assoc_get_fields_delete {A} k k' (fs : list (string * A)) :
  assoc_get k' (fields_delete k fs) =
  if decide (k = k') then None else assoc_get k' fs.
Proof.
  destruct (decide (k = k')) as [<-|Hne];
    [|now apply assoc_get_fields_delete_ne].
  induction fs as [|[k0 y] fs IH]; cbn; [reflexivity|].
  destruct (decide (k0 = k)) as [->|Hne]; [exact IH|].
  cbn. now destruct (decide (k0 = k)).
Qed.

Lemma assoc_get_deleted k js :
  k ∈ openapi_only -> assoc_get k (delete_openapi_only js) = None.
Proof.
  unfold delete_openapi_only, openapi_only. rewrite !elem_of_cons, elem_of_nil.
  intros Hk. cbn. rewrite !assoc_get_fields_delete.
  repeat case_decide; try reflexivity.
  repeat destruct Hk as [Hk|Hk]; try contradiction; congruence.
Qed.

Lemma add_null_type_other js h js' h' k :
  add_null_type js h = (js', h') -> k <> "type" ->
  assoc_get k js' = assoc_get k js.
Proof.
  unfold add_null_type. intros Heq Hne.
  assert (forall x, assoc_get k (fields_set "type" x js) = assoc_get k js) as Hset
    by (intros x; apply assoc_get_fields_set_ne; congruence).
  destruct (js_get "type" js) as [v|elems|fs].
  - destruct v as [| |b|n|s|lt]; try (destruct (truthy _));
      try (injection Heq as <- _; auto; fail).
    destruct (h !! lt) as [[fields|elems]|]; try (injection Heq as <- _; auto; fail).
    destruct (includes _ _); injection Heq as <- _; auto.
  - destruct (includes _ _); injection Heq as <- _; auto.
  - injection Heq as <- _; auto.
Qed.

Lemma process_properties_other rec js st js' st' k :
  process_properties rec js st = Some (js', st') -> k <> "properties" ->
  assoc_get k js' = assoc_get k js.
Proof.
  unfold process_properties. intros Heq Hne.
  destruct (strict_eq_str _ _); [|now injection Heq as <- _].
  destruct (js_get "properties" js) as [props| |]; try (now injection Heq as <- _).
  destruct (truthy props); [|now injection Heq as <- _].
  destruct (map_properties _ _ _ _) as [[mapped st1]|]; [|discriminate].
  injection Heq as <- _. apply assoc_get_fields_set_ne. congruence.
Qed.

Lemma process_items_other rec js st js' st' k :
  process_items rec js st = Some (js', st') -> k <> "items" ->
  assoc_get k js' = assoc_get k js.
Proof.
  unfold process_items. intros Heq Hne.
  destruct (strict_eq_str _ _); [|now injection Heq as <- _].
  destruct (js_get "items" js) as [[| | | | |items]| |];
    try (now injection Heq as <- _).
  destruct (rec items st) as [[r st1]|]; [|discriminate].
  injection Heq as <- _. apply assoc_get_fields_set_ne. congruence.
Qed.

(** What the body returns is the copy, after the nullable step, but for
    [properties] and [items]. *)
Lemma map_body_fields rec o st r st' :
  map_body rec o st = Some (r, st') ->
  exists fs,
    r = JObject fs /\
    forall k, k <> "properties" -> k <> "items" ->
      assoc_get k fs =
      assoc_get k
        (if truthy (get_prop o "nullable")
         then (add_null_type (initial_copy o) (st_heap st)).1
         else initial_copy o).
Proof.
  unfold map_body. fold (initial_copy o).
  destruct (truthy (get_prop o "nullable")).
  - destruct (add_null_type (initial_copy o) (st_heap st)) as [js1 h1].
    destruct (process_properties rec js1 _) as [[js2 st2]|] eqn:Hp; [|discriminate].
    destruct (process_items rec js2 st2) as [[js3 st3]|] eqn:Hi; [|discriminate].
    intros [= <- _]. eexists. split; [reflexivity|]. intros k Hk1 Hk2. cbn [fst].
    rewrite (process_items_other _ _ _ _ _ k Hi Hk2).
    apply (process_properties_other _ _ _ _ _ k Hp Hk1).
  - destruct (process_properties rec (initial_copy o) st) as [[js2 st2]|] eqn:Hp;
      [|discriminate].
    destruct (process_items rec js2 st2) as [[js3 st3]|] eqn:Hi; [|discriminate].
    intros [= <- _]. eexists. split; [reflexivity|]. intros k Hk1 Hk2.
    rewrite (process_items_other _ _ _ _ _ k Hi Hk2).
    apply (process_properties_other _ _ _ _ _ k Hp Hk1).
Qed.

Lemma mapper_fields (h : heap) (seen : gset loc) (log : list diagnostic)
    (schema : loc) (fuel : nat) :
  size (dom h ∖ seen) < fuel ->
  schema ∉ seen ->
  assoc_get "$ref" (own_entries (heap_get h schema)) = None ->
  exists fs st',
    mapOpenApiSchemaToJsonSchema fuel schema
      {| st_heap := h; st_seen := seen; st_log := log |} = Some (JObject fs, st')
    /\ forall k, k <> "properties" -> k <> "items" ->
         assoc_get k fs =
         assoc_get k
           (if truthy (get_prop (heap_get h schema) "nullable")
            then (add_null_type (initial_copy (heap_get h schema)) h).1
            else initial_copy (heap_get h schema)).
Proof.
  intros Hfuel Hout Href.
  destruct (mapper_returns fuel schema
              {| st_heap := h; st_seen := seen; st_log := log |} Hfuel)
    as (r & st' & Hr & _ & _).
  pose proof Hr as Hr'. destruct fuel as [|fuel]; [lia|].
  cbn [mapOpenApiSchemaToJsonSchema st_heap st_seen] in Hr'. rewrite Href in Hr'.
  destruct (decide (schema ∈ seen)) as [|_]; [contradiction|].
  destruct (map_body _ _ _) as [[r0 st0]|] eqn:Hbody; [|discriminate].
  injection Hr' as <- _.
  apply map_body_fields in Hbody as (fs & -> & Hfs).
  exists fs, st'. split; [exact Hr|exact Hfs].
Qed.

Lemma initial_copy_other o k :
  k ∉ openapi_only -> k <> "type" ->
  assoc_get k (initial_copy o) = JRaw <$> assoc_get k (own_entries o).
Proof.
  intros Hk Hne. unfold initial_copy.
  rewrite assoc_get_delete_openapi_only by exact Hk.
  destruct (bool_decide _).
  - rewrite assoc_get_fields_set_ne by congruence. apply assoc_get_spread.
  - apply assoc_get_spread.
Qed.

Lemma initial_copy_deleted o k :
  k ∈ openapi_only -> assoc_get k (initial_copy o) = None.
Proof. apply assoc_get_deleted. Qed.

Lemma openapi_only_not_special k :
  k ∈ openapi_only -> k <> "type" /\ k <> "properties" /\ k <> "items".
Proof.
  unfold openapi_only. rewrite !elem_of_cons, elem_of_nil.
  intros Hk. repeat destruct Hk as [Hk|Hk]; subst; try contradiction;
    repeat split; discriminate.
Qed.

(** X9.  A schema object that is mapped (no [$ref], not on the active path)
    yields an object that has none of the keys [nullable], [example], [xml],
    [externalDocs], [deprecated], [readOnly], [writeOnly], and that holds
    under every other key but [type], [properties] and [items] exactly what
    the source holds under it: the same primitive, or the same object by
    reference. *)
Theorem mapper_strips_and_copies
    (h : heap) (seen : gset loc) (log : list diagnostic) (schema : loc)
    (fuel : nat) :
  size (dom h ∖ seen) < fuel ->
  schema ∉ seen ->
  assoc_get "$ref" (own_entries (heap_get h schema)) = None ->
  exists fs st',
    mapOpenApiSchemaToJsonSchema fuel schema
      {| st_heap := h; st_seen := seen; st_log := log |} = Some (JObject fs, st')
    /\ (forall k, k ∈ openapi_only -> assoc_get k fs = None)
    /\ (forall k,
          k ∉ openapi_only -> k <> "type" -> k <> "properties" -> k <> "items" ->
          assoc_get k fs = JRaw <$> assoc_get k (own_entries (heap_get h schema))).
Proof.
  intros Hfuel Hout Href.
  destruct (mapper_fields h seen log schema fuel Hfuel Hout Href)
    as (fs & st' & Hr & Hfs).
  exists fs, st'. split; [exact Hr|].
  assert (forall k, k <> "type" ->
            assoc_get k
              (if truthy (get_prop (heap_get h schema) "nullable")
               then (add_null_type (initial_copy (heap_get h schema)) h).1
               else initial_copy (heap_get h schema))
            = assoc_get k (initial_copy (heap_get h schema))) as Hnull.
  { intros k Hk. destruct (truthy _); [|reflexivity].
    destruct (add_null_type _ _) as [js1 h1] eqn:Hadd. cbn [fst].
    eapply add_null_type_other; eassumption. }
  split.
  - intros k Hk. destruct (openapi_only_not_special k Hk) as (H1 & H2 & H3).
    rewrite Hfs, Hnull by assumption. now apply initial_copy_deleted.
  - intros k Hk H1 H2 H3.
    rewrite Hfs, Hnull by assumption. now apply initial_copy_other.
Qed.

Lemma decorated_schema_is_stripped :
  exists fs st',
    mapOpenApiSchemaToJsonSchema 3 1
      {| st_heap := decorated_heap; st_seen := ∅; st_log := [] |}
    = Some (JObject fs, st')
    /\ (forall k, k ∈ openapi_only -> assoc_get k fs = None)
    /\ (forall k,
          k ∉ openapi_only -> k <> "type" -> k <> "properties" -> k <> "items" ->
          assoc_get k fs =
          JRaw <$> assoc_get k (own_entries (heap_get decorated_heap 1))).
Proof.
  apply (mapper_strips_and_copies decorated_heap ∅ [] 1 3).
  - vm_compute. lia.
  - apply not_elem_of_empty.
  - reflexivity.
Defined.

Lemma js_get_fields_set_eq k x js :
  k <> "__proto__" -> js_get k (fields_set k x js) = x.
Proof. intros Hk. unfold js_get. now rewrite assoc_get_fields_set_eq. Qed.

Lemma initial_copy_type o :
  js_get "type" (initial_copy o) =
  JRaw (if bool_decide (get_prop o "type" = VStr "integer")
        then VStr "number" else get_prop o "type").
Proof.
  unfold initial_copy, js_get.
  rewrite assoc_get_delete_openapi_only.
  - destruct (bool_decide _).
    + now rewrite assoc_get_fields_set_eq.
    + rewrite assoc_get_spread. unfold get_prop.
      now destruct (assoc_get "type" (own_entries o)).
  - unfold openapi_only. rewrite !not_elem_of_cons.
    repeat split; try discriminate. apply not_elem_of_nil.
Qed.

Lemma add_null_type_type js h v :
  js_get "type" js = JRaw v ->
  js_get "type" (add_null_type js h).1 =
  match v with
  | VStr s => JArray [VStr s; VStr "null"]
  | VRef l => JRaw (VRef l)
  | _ => if truthy v then JRaw v else JRaw (VStr "null")
  end.
Proof.
  intros Hv. unfold add_null_type. rewrite Hv.
  destruct v as [| |b|n|s|lt]; cbn [truthy fst].
  - now apply js_get_fields_set_eq.
  - now apply js_get_fields_set_eq.
  - destruct b; cbn [fst]; [exact Hv|now apply js_get_fields_set_eq].
  - destruct (negb (n =? 0)%Z); cbn [fst]; [exact Hv|now apply js_get_fields_set_eq].
  - now apply js_get_fields_set_eq.
  - destruct (h !! lt) as [[fields|elems]|]; cbn [fst]; try exact Hv.
    destruct (includes _ _); exact Hv.
Qed.

(** X10.  The [type] of a mapped schema object (no [$ref], not on the
    active path).  Without a truthy [nullable] it is the source's type, with
    ['integer'] turned into ['number'].  With one, a string type [s] becomes
    the fresh union [[s, 'null']] (['number'] standing for ['integer']), a
    type that is an object or array stays that reference, and a type that is
    absent, [null], [false] or [0] becomes ['null'].  In no case is the
    result's type the string ['integer']. *)
Theorem mapped_type
    (h : heap) (seen : gset loc) (log : list diagnostic) (schema : loc)
    (fuel : nat) :
  size (dom h ∖ seen) < fuel ->
  schema ∉ seen ->
  assoc_get "$ref" (own_entries (heap_get h schema)) = None ->
  exists fs st' t,
    mapOpenApiSchemaToJsonSchema fuel schema
      {| st_heap := h; st_seen := seen; st_log := log |} = Some (JObject fs, st')
    /\ t = (if bool_decide (get_prop (heap_get h schema) "type" = VStr "integer")
            then VStr "number" else get_prop (heap_get h schema) "type")
    /\ (truthy (get_prop (heap_get h schema) "nullable") = false ->
        js_get "type" fs = JRaw t)
    /\ (truthy (get_prop (heap_get h schema) "nullable") = true ->
        (forall s, t = VStr s -> js_get "type" fs = JArray [VStr s; VStr "null"])
        /\ (forall l, t = VRef l -> js_get "type" fs = JRaw (VRef l))
        /\ (truthy t = false -> (forall s, t <> VStr s) ->
            js_get "type" fs = JRaw (VStr "null")))
    /\ js_get "type" fs <> JRaw (VStr "integer").
Proof.
  intros Hfuel Hout Href.
  destruct (mapper_fields h seen log schema fuel Hfuel Hout Href)
    as (fs & st' & Hr & Hfs).
  eexists fs, st', _. split; [exact Hr|]. split; [reflexivity|].
  set (o := heap_get h schema) in *.
  set (t := if bool_decide (get_prop o "type" = VStr "integer")
            then VStr "number" else get_prop o "type").
  pose proof (initial_copy_type o) as Hcopy. fold t in Hcopy.
  assert (t <> VStr "integer") as Hnotint.
  { unfold t. destruct (bool_decide _) eqn:Hint; [discriminate|].
    now apply bool_decide_eq_false in Hint. }
  assert (js_get "type" fs =
          js_get "type" (if truthy (get_prop o "nullable")
                         then (add_null_type (initial_copy o) h).1
                         else initial_copy o)) as Htype.
  { unfold js_get. now rewrite Hfs by discriminate. }
  destruct (truthy (get_prop o "nullable")).
  - rewrite (add_null_type_type _ h t Hcopy) in Htype.
    split; [discriminate|]. split.
    + intros _. split; [|split].
      * intros s Hs. now rewrite Hs in Htype.
      * intros l Hl. now rewrite Hl in Htype.
      * intros Hfalsy Hnostr. rewrite Htype.
        destruct t as [| |b|n|s|l]; cbn in Hfalsy |- *;
          try reflexivity; try discriminate.
        -- now rewrite Hfalsy.
        -- now rewrite Hfalsy.
        -- now destruct (Hnostr s).
    + rewrite Htype. destruct t as [| |b|n|s|l]; try discriminate;
        cbn [truthy]; try (destruct b; discriminate).
      destruct (negb (n =? 0)%Z); discriminate.
  - rewrite Hcopy in Htype. split; [intros _; exact Htype|].
    split; [discriminate|]. rewrite Htype. congruence.
Qed.

Lemma decorated_schema_type :
  exists fs st' t,
    mapOpenApiSchemaToJsonSchema 3 1
      {| st_heap := decorated_heap; st_seen := ∅; st_log := [] |}
    = Some (JObject fs, st')
    /\ t = (if bool_decide (get_prop (heap_get decorated_heap 1) "type"
                            = VStr "integer")
            then VStr "number" else get_prop (heap_get decorated_heap 1) "type")
    /\ (truthy (get_prop (heap_get decorated_heap 1) "nullable") = false ->
        js_get "type" fs = JRaw t)
    /\ (truthy (get_prop (heap_get decorated_heap 1) "nullable") = true ->
        (forall s, t = VStr s -> js_get "type" fs = JArray [VStr s; VStr "null"])
        /\ (forall l, t = VRef l -> js_get "type" fs = JRaw (VRef l))
        /\ (truthy t = false -> (forall s, t <> VStr s) ->
            js_get "type" fs = JRaw (VStr "null")))
    /\ js_get "type" fs <> JRaw (VStr "integer").
Proof.
  apply (mapped_type decorated_heap ∅ [] 1 3).
  - vm_compute. lia.
  - apply not_elem_of_empty.
  - reflexivity.
Defined.

(** ** The inclusion filter over a whole document *)

Lemma filter_all_false {A} (P : A -> bool) l :
  (forall a, a ∈ l -> P a = false) -> filter P l = [].
Proof.
  induction l as [|a l IH]; intros Hall; [reflexivity|].
  rewrite filter_cons. rewrite decide_False.
  - apply IH. intros b Hb. apply Hall. now right.
  - rewrite (Hall a) by left. intros [].
Qed.

Lemma process_operation_excluded generateOperationId inclusion_filter api
    defaultInclude path pathItem m operation x :
  (apply_filter inclusion_filter api defaultInclude path pathItem m operation).1
    = false ->
  exists warnings,
    process_operation generateOperationId inclusion_filter api defaultInclude
      path pathItem m operation x = Some (x_warn warnings x).
Proof.
  unfold process_operation.
  destruct (apply_filter _ _ _ _ _ _ _) as [proceed warnings]. cbn.
  intros ->. eauto.
Qed.

Lemma mcp_filter_falls_to_root api defaultInclude path pathItem m operation :
  normalizeBoolean (op_x_mcp operation) = None ->
  normalizeBoolean (pi_x_mcp pathItem) = None ->
  (apply_filter mcp_filter api defaultInclude path pathItem m operation).1 =
  match normalizeBoolean (api_x_mcp api) with
  | Some rootVal => rootVal
  | None => defaultInclude
  end.
Proof.
  intros Hop Hpath.
  unfold apply_filter, mcp_filter, shouldIncludeOperationForMcp.
  rewrite Hop, Hpath. now destruct (normalizeBoolean (api_x_mcp api)).
Qed.

Lemma filter_ext_in {A} (P Q : A -> Prop) `{!forall a, Decision (P a)}
    `{!forall a, Decision (Q a)} (l : list A) :
  (forall a, a ∈ l -> P a <-> Q a) -> filter P l = filter Q l.
Proof.
  induction l as [|a l IH]; intros Hext; [reflexivity|].
  rewrite !filter_cons. rewrite IH by (intros b Hb; apply Hext; now right).
  destruct (decide (P a)) as [Hp|Hp], (decide (Q a)) as [Hq|Hq]; try reflexivity.
  - exfalso. apply Hq. apply Hext; [left|exact Hp].
  - exfalso. apply Hp. apply Hext; [left|exact Hq].
Qed.

(** X11.  When no operation and no path item of the document carries a
    well-formed [x-mcp] value, one decision holds for every operation: the
    root value, or the default when the root has no well-formed value
    either.  If the decision is to exclude, the run returns no tool at all
    and leaves the heap as it was; if it is to include, the run returns one
    tool for every declared operation that has a base name, in order. *)
Theorem document_level_decision
    (generateOperationId : string -> string -> string) (api : Document)
    (defaultInclude : bool) (h : heap) :
  (forall o, o ∈ declared_operations api ->
     normalizeBoolean (op_x_mcp o.2) = None /\
     normalizeBoolean (pi_x_mcp o.1.1.2) = None) ->
  exists decision x,
    decision = match normalizeBoolean (api_x_mcp api) with
               | Some rootVal => rootVal
               | None => defaultInclude
               end
    /\ (forall o, o ∈ declared_operations api ->
          (shouldIncludeOperationForMcp api o.1.1.2 o.2 defaultInclude).1 = decision)
    /\ extractToolsFromApi generateOperationId api defaultInclude h = Some x
    /\ (decision = false -> x_tools x = [] /\ x_heap x = h)
    /\ (decision = true ->
        Forall2 (tool_of generateOperationId api)
          (filter (fun o => base_name generateOperationId o <> "")
             (declared_operations api))
          (x_tools x)).
Proof.
  intros Hnone.
  set (decision := match normalizeBoolean (api_x_mcp api) with
                   | Some rootVal => rootVal
                   | None => defaultInclude
                   end).
  assert (forall path pathItem m operation,
            (path, pathItem, m, operation) ∈ declared_operations api ->
            (apply_filter mcp_filter api defaultInclude path pathItem m operation).1
            = decision) as Hdecision.
  { intros path pathItem m operation Ho.
    destruct (Hnone _ Ho) as [Hop Hpath]. cbn [fst snd] in Hop, Hpath.
    now apply mcp_filter_falls_to_root. }
  destruct (extraction_tools generateOperationId mcp_filter api defaultInclude h)
    as (x & Hx & Hall & _).
  exists decision, x. split; [reflexivity|]. split; [|split; [exact Hx|split]].
  - intros [[[path pathItem] m] operation] Ho. cbn [fst snd].
    rewrite <- (Hdecision path pathItem m operation Ho).
    unfold apply_filter, mcp_filter.
    now destruct (shouldIncludeOperationForMcp api pathItem operation defaultInclude).
  - intros Hroot. rewrite extract_as_loop in Hx.
    assert (forall os x0,
              (forall o, o ∈ os -> o ∈ declared_operations api) ->
              exists x',
                process_occurrences generateOperationId mcp_filter api defaultInclude
                  os x0 = Some x' /\
                x_tools x' = x_tools x0 /\ x_heap x' = x_heap x0) as Hskip.
    { induction os as [|[[[path pathItem] m] operation] os IH]; intros x0 Hsub.
      - exists x0. auto.
      - cbn [process_occurrences].
        destruct (process_operation_excluded generateOperationId mcp_filter api
                    defaultInclude path pathItem m operation x0) as [warnings ->].
        { rewrite Hdecision; [exact Hroot|apply Hsub; left]. }
        destruct (IH (x_warn warnings x0)) as (x' & Hrun & Htools & Hheap).
        { intros o Ho. apply Hsub. now right. }
        exists x'. auto. }
    destruct (Hskip (declared_operations api) (initial_xstate h))
      as (x' & Hx' & Htools & Hheap); [auto|].
    unfold initial_xstate in Hx'. rewrite Hx' in Hx. injection Hx as <-. auto.
  - intros Hroot.
    rewrite (filter_ext_in
               (fun o => base_name generateOperationId o <> "")
               (retained generateOperationId mcp_filter api defaultInclude)
               (declared_operations api)); [exact Hall|].
    intros [[[path pathItem] m] operation] Ho. unfold retained.
    rewrite (Hdecision path pathItem m operation Ho), Hroot. cbn [andb].
    rewrite Is_true_true, negb_true_iff, bool_decide_eq_false. reflexivity.
Qed.

Lemma root_false_excludes_everything :
  exists decision x,
    decision = match normalizeBoolean (api_x_mcp root_excluded_document) with
               | Some rootVal => rootVal
               | None => true
               end
    /\ (forall o, o ∈ declared_operations root_excluded_document ->
          (shouldIncludeOperationForMcp root_excluded_document o.1.1.2 o.2 true).1
          = decision)
    /\ extractToolsFromApi no_generated_id root_excluded_document true ∅ = Some x
    /\ (decision = false -> x_tools x = [] /\ x_heap x = ∅)
    /\ (decision = true ->
        Forall2 (tool_of no_generated_id root_excluded_document)
          (filter (fun o => base_name no_generated_id o <> "")
             (declared_operations root_excluded_document))
          (x_tools x)).
Proof.
  apply (document_level_decision no_generated_id root_excluded_document true ∅).
  intros o Ho. vm_compute in Ho.
  repeat (apply elem_of_cons in Ho as [->|Ho]; [split; reflexivity|]).
  now apply elem_of_nil in Ho.
Defined.

(** X12.  The inclusion filter warns only about values it could not use:
    every diagnostic it writes is about a raw value that is present (not
    [undefined]) and not well-formed.  It writes none when the
    operation-level value is well-formed, whatever the path and the root
    hold, and it does warn about an operation-level value that is present
    and not well-formed. *)
Theorem filter_warns_about_malformed_values_only
    (api : Document) (pathItem : PathItemObject) (operation : OperationObject)
    (defaultInclude : bool) :
  Forall (fun d => exists raw,
            diagnosed_raw d = Some raw /\ raw <> VUndefined /\
            normalizeBoolean raw = None)
    (shouldIncludeOperationForMcp api pathItem operation defaultInclude).2
  /\ (normalizeBoolean (op_x_mcp operation) <> None ->
      (shouldIncludeOperationForMcp api pathItem operation defaultInclude).2 = [])
  /\ (normalizeBoolean (op_x_mcp operation) = None ->
      op_x_mcp operation <> VUndefined ->
      InvalidXMcpOperation (opId_or_placeholder operation) (op_x_mcp operation)
      ∈ (shouldIncludeOperationForMcp api pathItem operation defaultInclude).2).
Proof.
  assert (forall raw d,
            diagnosed_raw d = Some raw -> normalizeBoolean raw = None ->
            Forall (fun d => exists raw,
                      diagnosed_raw d = Some raw /\ raw <> VUndefined /\
                      normalizeBoolean raw = None)
              (warn_if_defined raw d)) as Hwarn.
  { intros raw d Hd Hraw. unfold warn_if_defined.
    destruct (bool_decide (raw = VUndefined)) eqn:Hu; constructor; [|constructor].
    apply bool_decide_eq_false in Hu. eauto. }
  unfold shouldIncludeOperationForMcp.
  destruct (normalizeBoolean (op_x_mcp operation)) eqn:Hop.
  { cbn. split; [constructor|]. split; [reflexivity|discriminate]. }
  assert (op_x_mcp operation <> VUndefined ->
          InvalidXMcpOperation (opId_or_placeholder operation) (op_x_mcp operation)
          ∈ warn_if_defined (op_x_mcp operation)
              (InvalidXMcpOperation (opId_or_placeholder operation)
                 (op_x_mcp operation))) as Hin.
  { intros Hdef. unfold warn_if_defined.
    rewrite bool_decide_eq_false_2 by exact Hdef. left. }
  destruct (normalizeBoolean (pi_x_mcp pathItem)) eqn:Hpath.
  { cbn. split; [now apply Hwarn|]. split; [congruence|]. intros _. exact Hin. }
  destruct (normalizeBoolean (api_x_mcp api)) eqn:Hroot; cbn.
  - split; [apply Forall_app; split; now apply Hwarn|].
    split; [congruence|]. intros _ Hdef. apply elem_of_app. left. now apply Hin.
  - split; [repeat (apply Forall_app; split); now apply Hwarn|].
    split; [congruence|]. intros _ Hdef.
    apply elem_of_app. left. apply elem_of_app. left. now apply Hin.
Qed.

(** * The string helpers *)

(** ** [sanitizeForTemplate] *)

Lemma string_app_assoc (s1 s2 s3 : string) : (s1 +:+ s2) +:+ s3 = s1 +:+ (s2 +:+ s3).
Proof.
  induction s1 as [|c s1 IH]; [reflexivity|].
  change (String c ((s1 +:+ s2) +:+ s3) = String c (s1 +:+ (s2 +:+ s3))).
  now rewrite IH.
Qed.

Lemma string_app_cons c (s1 s2 : string) : String c s1 +:+ s2 = String c (s1 +:+ s2).
Proof. reflexivity. Qed.

Lemma string_app_nil_l (s : string) : "" +:+ s = s.
Proof. reflexivity. Qed.

Lemma replace_char_app c r s1 s2 :
  replace_char c r (s1 +:+ s2) = replace_char c r s1 +:+ replace_char c r s2.
Proof.
  induction s1 as [|a s1 IH]; [reflexivity|].
  rewrite string_app_cons. cbn [replace_char]. now rewrite IH, string_app_assoc.
Qed.

(** What becomes of one character. *)
Lemma sanitizeForTemplate_cons a s :
  sanitizeForTemplate (String a s) =
  (if decide (a = backslash) then String backslash (String backslash "")
   else if decide (a = backtick) then String backslash (String backtick "")
   else String a "") +:+ sanitizeForTemplate s.
Proof.
  unfold sanitizeForTemplate. cbn [replace_char]. rewrite replace_char_app. f_equal.
  destruct (decide (a = backslash)) as [->|Hbs]; [reflexivity|].
  cbn [replace_char]. rewrite string_app_nil_r.
  destruct (decide (a = backtick)); reflexivity.
Qed.

Lemma sanitizeForTemplate_unescape s : unescape (sanitizeForTemplate s) = s.
Proof.
  induction s as [|a s IH]; [reflexivity|].
  rewrite sanitizeForTemplate_cons.
  destruct (decide (a = backslash)) as [->|Hbs].
  - rewrite !string_app_cons, string_app_nil_l. cbn [unescape].
    rewrite decide_True by reflexivity. now rewrite IH.
  - destruct (decide (a = backtick)) as [->|Hbt].
    + rewrite !string_app_cons, string_app_nil_l. cbn [unescape].
      rewrite decide_True by reflexivity. now rewrite IH.
    + rewrite string_app_cons, string_app_nil_l. cbn [unescape].
      rewrite decide_False by exact Hbs. now rewrite IH.
Qed.

Lemma sanitizeForTemplate_well_escaped s : well_escaped (sanitizeForTemplate s) = true.
Proof.
  induction s as [|a s IH]; [reflexivity|].
  rewrite sanitizeForTemplate_cons.
  destruct (decide (a = backslash)) as [->|Hbs].
  - rewrite !string_app_cons, string_app_nil_l. cbn [well_escaped].
    now rewrite decide_True by reflexivity.
  - destruct (decide (a = backtick)) as [->|Hbt].
    + rewrite !string_app_cons, string_app_nil_l. cbn [well_escaped].
      now rewrite decide_True by reflexivity.
    + rewrite string_app_cons, string_app_nil_l. cbn [well_escaped].
      now rewrite !decide_False by assumption.
Qed.

Lemma sanitizeForTemplate_plain s :
  string_forallb
    (fun c => negb (bool_decide (c = backslash)) && negb (bool_decide (c = backtick)))
    s = true ->
  sanitizeForTemplate s = s.
Proof.
  induction s as [|a s IH]; [reflexivity|].
  cbn [string_forallb]. intros [[Hbs Hbt]%andb_true_iff Hs]%andb_true_iff.
  apply negb_true_iff, bool_decide_eq_false in Hbs, Hbt.
  rewrite sanitizeForTemplate_cons, !decide_False by assumption.
  now rewrite string_app_cons, string_app_nil_l, IH.
Qed.

(** X13.  Escaping for a template literal loses nothing and leaves no bare
    backtick: reading the result back, each backslash taking the next
    character along, gives the string that was escaped (so two different
    strings are never escaped to the same text); in the result no backtick
    stands without a backslash before it and no backslash is left alone at
    the end.  Nothing else is escaped: a string without backslash and
    backtick, whatever else it holds, [${] included, is returned as it
    is. *)
Theorem template_escaping_round_trip :
  (forall s, unescape (sanitizeForTemplate s) = s)
  /\ (forall s1 s2, sanitizeForTemplate s1 = sanitizeForTemplate s2 -> s1 = s2)
  /\ (forall s, well_escaped (sanitizeForTemplate s) = true)
  /\ (forall s,
        string_forallb
          (fun c => negb (bool_decide (c = backslash))
                    && negb (bool_decide (c = backtick))) s = true ->
        sanitizeForTemplate s = s).
Proof.
  split; [exact sanitizeForTemplate_unescape|].
  split; [|split; [exact sanitizeForTemplate_well_escaped
                  |exact sanitizeForTemplate_plain]].
  intros s1 s2 Heq.
  rewrite <- (sanitizeForTemplate_unescape s1), <- (sanitizeForTemplate_unescape s2).
  now rewrite Heq.
Qed.

(** ** [toValidVariableName] and [isValidIdentifier] *)

Lemma is_digit_var_char c : is_digit c = true -> is_var_char c = true.
Proof. destruct c as [[] [] [] [] [] [] [] []]; vm_compute; congruence. Qed.

Lemma var_char_start c :
  is_var_char c = true -> is_digit c = false -> is_var_start c = true.
Proof. destruct c as [[] [] [] [] [] [] [] []]; vm_compute; congruence. Qed.

Lemma var_start_char c :
  is_var_start c = true -> is_var_char c = true /\ is_digit c = false.
Proof. destruct c as [[] [] [] [] [] [] [] []]; vm_compute; auto; congruence. Qed.

Lemma var_chars_after_replacement s :
  string_forallb is_var_char
    (string_map (fun c => if is_var_char c then c else "_"%char) s) = true.
Proof.
  apply string_forallb_map. intros c.
  destruct (is_var_char c) eqn:Hc; [exact Hc|reflexivity].
Qed.

Lemma var_chars_unchanged s :
  string_forallb is_var_char s = true ->
  string_map (fun c => if is_var_char c then c else "_"%char) s = s.
Proof.
  apply (string_map_id_on is_var_char). intros c Hc. now rewrite Hc.
Qed.

Lemma toValidVariableName_valid s :
  s <> "" -> isValidIdentifier (toValidVariableName s) = true.
Proof.
  intros Hs. unfold toValidVariableName.
  pose proof (var_chars_after_replacement s) as Hchars.
  destruct s as [|c s]; [contradiction|].
  cbn [string_map] in *. set (c' := if is_var_char c then c else "_"%char) in *.
  cbn [string_forallb] in Hchars. apply andb_true_iff in Hchars as [Hc Hrest].
  destruct (is_digit c') eqn:Hd.
  - cbn [isValidIdentifier string_forallb]. now rewrite Hc, Hrest.
  - cbn [isValidIdentifier]. now rewrite (var_char_start c' Hc Hd), Hrest.
Qed.

Lemma toValidVariableName_fixes s :
  isValidIdentifier s = true -> toValidVariableName s = s.
Proof.
  destruct s as [|c s]; [discriminate|].
  cbn [isValidIdentifier]. intros [Hc Hs]%andb_true_iff.
  apply var_start_char in Hc as [Hc Hd].
  unfold toValidVariableName.
  rewrite (var_chars_unchanged (String c s)) by (cbn; now rewrite Hc, Hs).
  now rewrite Hd.
Qed.

(** X14.  [toValidVariableName] turns every non-empty string into a string
    that [isValidIdentifier] accepts, and the empty string, which is no
    identifier, into itself; it returns a string that [isValidIdentifier]
    accepts as it is; so it is idempotent.  The result is as long as the
    argument, or one character longer. *)
Theorem variable_names_are_valid_identifiers :
  (forall s, isValidIdentifier (toValidVariableName s) = true <-> s <> "")
  /\ (forall s, isValidIdentifier s = true -> toValidVariableName s = s)
  /\ (forall s, toValidVariableName (toValidVariableName s) = toValidVariableName s)
  /\ (forall s,
        String.length s <= String.length (toValidVariableName s)
        <= String.length s + 1).
Proof.
  split; [|split; [exact toValidVariableName_fixes|split]].
  - intros s. split; [|apply toValidVariableName_valid].
    intros Hvalid ->. discriminate.
  - intros s. destruct (decide (s = "")) as [->|Hs]; [reflexivity|].
    now apply toValidVariableName_fixes, toValidVariableName_valid.
  - intros s. unfold toValidVariableName.
    pose proof (string_map_length (fun c => if is_var_char c then c else "_"%char) s)
      as Hlen.
    destruct (string_map _ s) as [|c s'] eqn:Hmap; [lia|].
    destruct (is_digit c); cbn [String.length] in *; lia.
Qed.

(** ** [toCamelCase] and [toPascalCase] *)

Lemma alnum_is_word_char c : is_alnum c = true -> is_word_char c = true.
Proof. unfold is_word_char. now intros ->. Qed.

Lemma alnum_is_no_space c : is_alnum c = true -> is_js_space c = false.
Proof. destruct c as [[] [] [] [] [] [] [] []]; vm_compute; congruence. Qed.

Lemma case_change_keeps_class c :
  is_word_char c = true ->
  is_alnum (lower_char c) = is_alnum c /\ is_alnum (upper_char c) = is_alnum c.
Proof. destruct c as [[] [] [] [] [] [] [] []]; vm_compute; auto; congruence. Qed.

Lemma upper_is_word_char c : is_upper c = true -> is_word_char c = true.
Proof. destruct c as [[] [] [] [] [] [] [] []]; vm_compute; congruence. Qed.

Lemma upper_char_of_upper c : is_upper c = true -> upper_char c = c.
Proof. destruct c as [[] [] [] [] [] [] [] []]; vm_compute; congruence. Qed.

Lemma strip_to_alnum_cons c s :
  strip_to_alnum (String c s) =
  if is_alnum c then String c (strip_to_alnum s) else strip_to_alnum s.
Proof.
  unfold strip_to_alnum. cbn [string_filter].
  destruct (is_alnum c) eqn:Hc.
  - rewrite (alnum_is_no_space c Hc). cbn [negb string_filter]. now rewrite Hc.
  - destruct (is_js_space c); cbn [negb string_filter]; [reflexivity|].
    now rewrite Hc.
Qed.

Lemma strip_to_alnum_alnum s : string_forallb is_alnum (strip_to_alnum s) = true.
Proof.
  induction s as [|c s IH]; [reflexivity|].
  rewrite strip_to_alnum_cons. destruct (is_alnum c) eqn:Hc; [|exact IH].
  cbn. now rewrite Hc, IH.
Qed.

Lemma strip_to_alnum_fixes s :
  string_forallb is_alnum s = true -> strip_to_alnum s = s.
Proof.
  induction s as [|c s IH]; [reflexivity|].
  cbn [string_forallb]. intros [Hc Hs]%andb_true_iff.
  now rewrite strip_to_alnum_cons, Hc, IH.
Qed.

(** From index 1 on, both callbacks put a match in upper case. *)
Lemma camel_callback_after_start s : forall index after_word,
  0 < index ->
  replace_word_starts
    (fun word index => if bool_decide (index = 0) then lower_char word
                       else upper_char word) index after_word s =
  replace_word_starts (fun word _ => upper_char word) index after_word s.
Proof.
  induction s as [|c s IH]; intros index after_word Hpos; [reflexivity|].
  cbn [replace_word_starts]. rewrite IH by lia.
  now rewrite bool_decide_eq_false_2 by lia.
Qed.

(** Inside an alphanumeric word only upper-case letters match, and they
    are in upper case already. *)
Lemma replace_inside_word s : forall index,
  string_forallb is_alnum s = true ->
  replace_word_starts (fun word _ => upper_char word) index true s = s.
Proof.
  induction s as [|c s IH]; intros index; [reflexivity|].
  cbn [string_forallb replace_word_starts]. intros [Hc Hs]%andb_true_iff.
  rewrite (alnum_is_word_char c Hc), IH by exact Hs. cbn [negb andb orb].
  destruct (is_upper c) eqn:Hu; [now rewrite upper_char_of_upper|reflexivity].
Qed.

(** X15.  [toCamelCase] and [toPascalCase] return alphanumeric strings
    that differ at most in their first character: when the argument begins
    with a letter or digit, the results begin with its lower-case and its
    upper-case form and continue alike; otherwise the results are equal.
    When the argument is alphanumeric throughout, the rest of it is kept
    as it is, so only the case of the first character can change. *)
Theorem camel_and_pascal_case (c : ascii) (s : string) :
  exists t,
    toCamelCase (String c s) = (if is_alnum c then String (lower_char c) t else t)
    /\ toPascalCase (String c s) = (if is_alnum c then String (upper_char c) t else t)
    /\ string_forallb is_alnum t = true
    /\ (string_forallb is_alnum (String c s) = true -> t = s).
Proof.
  exists (strip_to_alnum
            (replace_word_starts (fun word _ => upper_char word) 1
               (is_word_char c) s)).
  unfold toCamelCase, toPascalCase. cbn [replace_word_starts].
  rewrite camel_callback_after_start by lia.
  rewrite bool_decide_eq_true_2 by reflexivity.
  rewrite !strip_to_alnum_cons. cbn [negb]. rewrite andb_true_r.
  split; [|split; [|split]].
  - destruct (is_alnum c) eqn:Hc.
    + rewrite (alnum_is_word_char c Hc). cbn [orb].
      now rewrite (proj1 (case_change_keeps_class c (alnum_is_word_char c Hc))), Hc.
    + destruct (is_word_char c) eqn:Hw; cbn [orb].
      * now rewrite (proj1 (case_change_keeps_class c Hw)), Hc.
      * destruct (is_upper c) eqn:Hu; [|now rewrite Hc].
        apply upper_is_word_char in Hu. congruence.
  - destruct (is_alnum c) eqn:Hc.
    + rewrite (alnum_is_word_char c Hc). cbn [orb].
      now rewrite (proj2 (case_change_keeps_class c (alnum_is_word_char c Hc))), Hc.
    + destruct (is_word_char c) eqn:Hw; cbn [orb].
      * now rewrite (proj2 (case_change_keeps_class c Hw)), Hc.
      * destruct (is_upper c) eqn:Hu; [|now rewrite Hc].
        apply upper_is_word_char in Hu. congruence.
  - apply strip_to_alnum_alnum.
  - cbn [string_forallb]. intros [Hc Hs]%andb_true_iff.
    rewrite (alnum_is_word_char c Hc), replace_inside_word by exact Hs.
    now apply strip_to_alnum_fixes.
Qed.

(** ** [formatComment] *)

Lemma string_length_app (s1 s2 : string) :
  String.length (s1 +:+ s2) = String.length s1 + String.length s2.
Proof.
  induction s1 as [|c s1 IH]; [reflexivity|].
  rewrite string_app_cons. cbn [String.length]. now rewrite IH.
Qed.

Lemma length_le_mono n n' m :
  n' <= n -> length_le n m = true -> length_le n' m = true.
Proof.
  intros Hle. destruct m as [q| | |]; cbn; try tauto.
  unfold QArith_base.Qle_bool. cbn. rewrite !Z.leb_le. intros H. nia.
Qed.

(** On integer limits the test is the comparison of natural numbers. *)
Lemma length_le_number_of_nat n k : length_le n (number_of_nat k) = (n <=? k).
Proof.
  cbn. unfold QArith_base.Qle_bool. cbn. rewrite !Z.mul_1_r.
  destruct (n <=? k) eqn:Hnk.
  - apply Nat.leb_le in Hnk. apply Z.leb_le. lia.
  - apply Nat.leb_gt in Hnk. apply Z.leb_gt. lia.
Qed.

Lemma string_app_nonempty (s1 s2 : string) : s1 <> "" -> s1 +:+ s2 <> "".
Proof. destruct s1; [contradiction|discriminate]. Qed.

Lemma join_snoc sep g w :
  join sep (g ++ [w]) =
  match g with
  | [] => w
  | _ :: _ => join sep g +:+ sep +:+ w
  end.
Proof.
  induction g as [|a g IH]; [reflexivity|].
  destruct g as [|b g]; [reflexivity|].
  change (join sep ((a :: b :: g) ++ [w]))
    with (a +:+ sep +:+ join sep ((b :: g) ++ [w])).
  rewrite IH.
  change (join sep (a :: b :: g)) with (a +:+ sep +:+ join sep (b :: g)).
  now rewrite !string_app_assoc.
Qed.

Lemma join_nonempty sep g :
  g <> [] -> Forall (fun w => w <> "") g -> join sep g <> "".
Proof.
  destruct g as [|a g]; [contradiction|]. intros _ Hall.
  apply Forall_cons in Hall as [Ha _].
  destruct g as [|b g]; [exact Ha|].
  change (join sep (a :: b :: g)) with (a +:+ sep +:+ join sep (b :: g)).
  now apply string_app_nonempty.
Qed.

(** The loop of [formatComment], with the invariant it keeps. *)
Lemma add_words_grouped maxLineLength words : forall groups g done,
  Forall (fun w => w <> "") words ->
  Forall (fun w => w <> "") g ->
  List.concat groups ++ g = done ->
  Forall (fun g => g <> []) (tail groups) ->
  (groups <> [] -> g <> []) ->
  Forall (line_bound maxLineLength) (groups ++ [g]) ->
  exists groups' g',
    foldl (add_word maxLineLength) (map (join " ") groups, join " " g) words =
      (map (join " ") groups', join " " g')
    /\ Forall (fun w => w <> "") g'
    /\ List.concat groups' ++ g' = done ++ words
    /\ Forall (fun g => g <> []) (tail groups')
    /\ (groups' <> [] -> g' <> [])
    /\ Forall (line_bound maxLineLength) (groups' ++ [g']).
Proof.
  induction words as [|w words IH];
    intros groups g done Hwords Hg Hdone Htail Hcur Hbound.
  - exists groups, g. rewrite app_nil_r. cbn. repeat split; auto.
  - apply Forall_cons in Hwords as [Hw Hwords].
    apply Forall_app in Hbound as [Hgroups Hbg].
    cbn [foldl add_word].
    destruct (length_le (String.length (join " " g +:+ " " +:+ w)) maxLineLength)
      eqn:Hfit.
    + assert (join " " g +:+
                (if bool_decide (join " " g = "") then "" else " ") +:+ w
              = join " " (g ++ [w])) as ->.
      { rewrite join_snoc. destruct g as [|a g]; [reflexivity|].
        rewrite bool_decide_eq_false_2; [reflexivity|].
        now apply join_nonempty. }
      destruct (IH groups (g ++ [w]) (done ++ [w]))
        as (groups' & g' & Hfold & Hg' & Hconcat & Htail' & Hcur' & Hbound');
        [exact Hwords| | |exact Htail| | |].
      * apply Forall_app. split; [exact Hg|]. now constructor.
      * rewrite <- Hdone. now rewrite !app_assoc.
      * intros _. now destruct g.
      * apply Forall_app. split; [exact Hgroups|]. constructor; [|constructor].
        left. rewrite join_snoc. destruct g as [|a g].
        -- eapply length_le_mono; [|exact Hfit].
           rewrite !string_length_app. cbn. lia.
        -- exact Hfit.
      * exists groups', g'. rewrite Hfold. repeat split; auto.
        rewrite Hconcat. now rewrite <- app_assoc.
    + destruct (IH (groups ++ [g]) [w] (done ++ [w]))
        as (groups' & g' & Hfold & Hg' & Hconcat & Htail' & Hcur' & Hbound');
        [exact Hwords|now constructor| | | | |].
      * rewrite List.concat_app. cbn. rewrite app_nil_r, Hdone. reflexivity.
      * destruct groups as [|g0 groups]; [constructor|].
        cbn [tail app] in *. apply Forall_app. split; [exact Htail|].
        constructor; [|constructor]. apply Hcur. discriminate.
      * intros _. discriminate.
      * apply Forall_app. split; [apply Forall_app; split; assumption|].
        constructor; [|constructor]. right. left. now exists w.
      * exists groups', g'. rewrite map_app in Hfold. cbn [map join] in Hfold.
        rewrite Hfold. repeat split; auto.
        rewrite Hconcat. now rewrite <- app_assoc.
Qed.

Lemma comment_lines_grouped maxLineLength words :
  Forall (fun w => w <> "") words ->
  exists groups, grouped maxLineLength words groups (comment_lines words maxLineLength).
Proof.
  intros Hwords. unfold comment_lines, grouped.
  destruct (add_words_grouped maxLineLength words [] [] [])
    as (groups & g & Hfold & Hg & Hconcat & Htail & Hcur & Hbound);
    [exact Hwords|apply Forall_nil_2|reflexivity|apply Forall_nil_2| | |].
  { intros Hne. now destruct Hne. }
  { constructor; [|constructor]. unfold line_bound. cbn [join String.length].
    destruct (length_le 0 maxLineLength); auto. }
  cbn [map join] in Hfold. rewrite Hfold.
  apply Forall_app in Hbound as [Hgroups Hbg].
  destruct g as [|a g].
  - cbn [join]. rewrite bool_decide_eq_true_2 by reflexivity.
    exists groups. rewrite app_nil_r in Hconcat. auto.
  - rewrite bool_decide_eq_false_2 by (now apply join_nonempty).
    exists (groups ++ [a :: g]). rewrite List.concat_app, map_app. cbn.
    rewrite app_nil_r. repeat split; auto.
    + destruct groups as [|g0 groups]; [constructor|].
      cbn [tail app] in *. apply Forall_app. split; [exact Htail|].
      constructor; [discriminate|constructor].
    + apply Forall_app. split; assumption.
Qed.

Lemma trimStart_no_leading_space s : starts_with_space (trimStart s) = false.
Proof.
  induction s as [|c s IH]; [reflexivity|]. cbn [trimStart].
  destruct (is_js_space c) eqn:Hc; [exact IH|]. exact Hc.
Qed.

Lemma trimStart_keeps_end s :
  ends_with_space s = false -> ends_with_space (trimStart s) = false.
Proof.
  induction s as [|c s IH]; [reflexivity|]. intros Hs. cbn [trimStart].
  destruct (is_js_space c) eqn:Hc; [|exact Hs].
  apply IH. destruct s; [cbn in Hs; congruence|exact Hs].
Qed.

Lemma trimStart_blank s :
  string_forallb is_js_space s = true -> trimStart s = "".
Proof.
  induction s as [|c s IH]; [reflexivity|]. cbn [string_forallb trimStart].
  intros [Hc Hs]%andb_prop. rewrite Hc. now apply IH.
Qed.

Lemma ends_with_space_rev_app u : forall acc,
  ends_with_space (String.rev_app u acc) =
  match acc with
  | EmptyString => starts_with_space u
  | String _ _ => ends_with_space acc
  end.
Proof.
  induction u as [|a u IH]; intros acc.
  - now destruct acc.
  - cbn [String.rev_app]. rewrite IH. now destruct acc.
Qed.

Lemma starts_with_space_rev_app u : forall acc,
  starts_with_space (String.rev_app u acc) =
  match u with
  | EmptyString => starts_with_space acc
  | String _ _ => ends_with_space u
  end.
Proof.
  induction u as [|a u IH]; intros acc; [reflexivity|].
  cbn [String.rev_app]. rewrite IH. now destruct u.
Qed.

Lemma trim_no_outer_space s :
  starts_with_space (trim s) = false /\ ends_with_space (trim s) = false.
Proof.
  unfold trim, trimEnd, String.rev. split.
  - rewrite starts_with_space_rev_app.
    destruct (trimStart (String.rev_app (trimStart s) "")) eqn:Hr; [reflexivity|].
    rewrite <- Hr. apply trimStart_keeps_end.
    rewrite ends_with_space_rev_app. apply trimStart_no_leading_space.
  - rewrite ends_with_space_rev_app. apply trimStart_no_leading_space.
Qed.

Lemma trim_blank s : string_forallb is_js_space s = true -> trim s = "".
Proof. intros Hs. unfold trim. now rewrite (trimStart_blank s Hs). Qed.

Lemma split_spaces_pieces s :
  s <> "" -> ends_with_space s = false ->
  exists p ps,
    split_spaces s = p :: ps
    /\ Forall (fun w => w <> "") ps
    /\ (starts_with_space s = false -> p <> "").
Proof.
  induction s as [|c s IH]; [contradiction|]. intros _ Hend.
  destruct s as [|c' s].
  - cbn in Hend. cbn. rewrite Hend. eexists _, []. repeat split; [constructor|].
    discriminate.
  - destruct IH as (p & ps & Hsplit & Hps & Hp); [discriminate|exact Hend|].
    cbn [split_spaces]. cbn [split_spaces] in Hsplit. rewrite Hsplit.
    cbn [starts_with_space] in *.
    destruct (is_js_space c) eqn:Hc.
    + destruct (is_js_space c') eqn:Hc'.
      * exists p, ps. repeat split; [exact Hps|discriminate].
      * exists "", (p :: ps). repeat split; [|discriminate].
        constructor; [now apply Hp|exact Hps].
    + exists (String c p), ps. repeat split; [exact Hps|discriminate].
Qed.

Lemma split_spaces_no_space s : Forall (fun w => no_space w = true) (split_spaces s).
Proof.
  induction s as [|c s IH]; [repeat constructor|].
  cbn [split_spaces].
  destruct (is_js_space c) eqn:Hc.
  - destruct s as [|c' s]; [now constructor|].
    destruct (is_js_space c'); [exact IH|now constructor].
  - destruct (split_spaces s) as [|p ps]; [repeat constructor; cbn; now rewrite Hc|].
    apply Forall_cons in IH as [Hp Hps]. constructor; [|exact Hps].
    unfold no_space in *. cbn [string_forallb]. now rewrite Hc, Hp.
Qed.

(** The words of a string that is not blank. *)
Lemma comment_words str :
  trim str <> "" -> Forall is_word (split_spaces (trim str)).
Proof.
  intros Hne. destruct (trim_no_outer_space str) as [Hstart Hend].
  destruct (split_spaces_pieces (trim str) Hne Hend) as (p & ps & Hsplit & Hps & Hp).
  pose proof (split_spaces_no_space (trim str)) as Hno.
  rewrite Hsplit in *. apply Forall_cons in Hno as [Hnp Hnps].
  constructor; [split; auto|].
  apply Forall_forall. intros w Hw. split.
  - now apply (proj1 (Forall_forall _ _) Hps).
  - now apply (proj1 (Forall_forall _ _) Hnps).
Qed.

(** X16.  The comment made of a string with a character that is not white
    space, for any line length (an integer or not, negative, infinite or
    NaN): its lines, joined by a line break and [" * "], are the words of
    the string (the pieces between its runs of white space, none empty) in
    their order, cut into groups and each group joined by single spaces;
    only the first line can be empty, and a line that is not within
    [maxLineLength] is one single word (or the empty first line, when the
    limit is negative or NaN). *)
Theorem comment_lines_are_the_words (str : string) (maxLineLength : number) :
  trim str <> "" ->
  exists words groups,
    words = split_spaces (trim str)
    /\ Forall is_word words
    /\ grouped maxLineLength words groups (comment_lines words maxLineLength)
    /\ formatComment str maxLineLength =
       join comment_separator (map (join " ") groups).
Proof.
  intros Hne. pose proof (comment_words str Hne) as Hwords.
  destruct (comment_lines_grouped maxLineLength (split_spaces (trim str)))
    as (groups & Hgrouped).
  { eapply Forall_impl; [exact Hwords|]. now intros w [Hw _]. }
  exists (split_spaces (trim str)), groups. repeat split; try apply Hgrouped; auto.
  unfold formatComment.
  rewrite bool_decide_eq_false_2 by (intros ->; now apply Hne).
  destruct Hgrouped as (_ & -> & _). reflexivity.
Qed.

Lemma two_line_comment :
  exists words groups,
    words = split_spaces (trim "  get the   pets ")
    /\ Forall is_word words
    /\ grouped (number_of_nat 8) words groups (comment_lines words (number_of_nat 8))
    /\ formatComment "  get the   pets " (number_of_nat 8) =
       join comment_separator (map (join " ") groups).
Proof.
  apply (comment_lines_are_the_words "  get the   pets " (number_of_nat 8)).
  vm_compute. discriminate.
Defined.

(** X17.  A blank string, one of white space only, gives the empty
    comment, whatever the line length. *)
Theorem blank_comment (str : string) (maxLineLength : number) :
  string_forallb is_js_space str = true ->
  formatComment str maxLineLength = "".
Proof.
  intros Hblank. unfold formatComment.
  destruct (bool_decide (str = "")); [reflexivity|].
  rewrite (trim_blank str Hblank). unfold comment_lines.
  cbn [split_spaces foldl add_word].
  destruct (length_le _ maxLineLength); reflexivity.
Qed.

Lemma blank_comment_of_spaces :
  formatComment (String (ascii_of_N 9) "  ") (number_of_nat 80) = "".
Proof.
  apply (blank_comment (String (ascii_of_N 9) "  ") (number_of_nat 80)).
  reflexivity.
Defined.

Lemma add_words_extend maxLineLength words : forall lines cur,
  cur <> "" -> Forall (fun w => w <> "") words ->
  exists more cur',
    foldl (add_word maxLineLength) (lines, cur) words = (lines ++ more, cur')
    /\ cur' <> ""
    /\ (more = [] -> exists t, cur' = cur +:+ t)
    /\ (forall l ls, more = l :: ls -> exists t, l = cur +:+ t).
Proof.
  induction words as [|w words IH]; intros lines cur Hcur Hwords.
  - exists [], cur. rewrite app_nil_r. repeat split; [exact Hcur| |discriminate].
    intros _. exists "". now rewrite string_app_nil_r.
  - apply Forall_cons in Hwords as [Hw Hwords]. cbn [foldl add_word].
    destruct (length_le (String.length (cur +:+ " " +:+ w)) maxLineLength).
    + rewrite bool_decide_eq_false_2 by exact Hcur.
      destruct (IH lines (cur +:+ " " +:+ w)) as (more & cur' & Hfold & Hcur' & Hnil & Hcons);
        [now apply string_app_nonempty|exact Hwords|].
      exists more, cur'. repeat split; [exact Hfold|exact Hcur'| |].
      * intros Hm. destruct (Hnil Hm) as [t ->]. exists (" " +:+ w +:+ t).
        now rewrite !string_app_assoc.
      * intros l ls Hm. destruct (Hcons l ls Hm) as [t ->]. exists (" " +:+ w +:+ t).
        now rewrite !string_app_assoc.
    + destruct (IH (lines ++ [cur]) w Hw Hwords) as (more & cur' & Hfold & Hcur' & _).
      exists (cur :: more), cur'. repeat split; [|exact Hcur'|discriminate|].
      * rewrite Hfold. now rewrite <- app_assoc.
      * intros l ls [= <- _]. exists "". now rewrite string_app_nil_r.
Qed.

(** X18.  The first word decides how the comment starts, by the test the
    code makes on it: whether the word with a space before it is within
    [maxLineLength].  When it is not (the word has at least as many
    characters as an integer limit allows; or the limit is fractional and
    less than a character above the length of the word, negative, or NaN),
    the code pushes the still empty current line, and the comment starts
    with an empty line, that is with the separator of lines.  When it is,
    the comment starts with that word. *)
Theorem comment_start (str : string) (maxLineLength : number) (w : string)
    (rest : list string) :
  split_spaces (trim str) = w :: rest ->
  w <> "" ->
  (length_le (S (String.length w)) maxLineLength = false ->
   exists lines,
     lines <> []
     /\ formatComment str maxLineLength =
        comment_separator +:+ join comment_separator lines)
  /\ (length_le (S (String.length w)) maxLineLength = true ->
      exists t, formatComment str maxLineLength = w +:+ t).
Proof.
  intros Hsplit Hw.
  assert (trim str <> "") as Hne.
  { intros Ht. rewrite Ht in Hsplit. cbn in Hsplit. congruence. }
  assert (str <> "") as Hstr by (intros ->; now apply Hne).
  pose proof (comment_words str Hne) as Hwords. rewrite Hsplit in Hwords.
  apply Forall_cons in Hwords as [_ Hrest].
  assert (Forall (fun w => w <> "") rest) as Hrest'.
  { eapply Forall_impl; [exact Hrest|]. now intros x [Hx _]. }
  unfold formatComment. rewrite bool_decide_eq_false_2 by exact Hstr.
  rewrite Hsplit. unfold comment_lines. cbn [foldl add_word].
  change ("" +:+ " " +:+ w) with (String " " w). cbn [String.length].
  split; intros Hfit; rewrite Hfit.
  - destruct (add_words_extend maxLineLength rest ([] ++ [""]) w Hw Hrest')
      as (more & cur' & Hfold & Hcur' & _).
    rewrite Hfold. cbn [app].
    rewrite bool_decide_eq_false_2 by exact Hcur'.
    exists (more ++ [cur']). split; [now destruct more|].
    cbn [app].
    destruct (more ++ [cur']) as [|l ls] eqn:Hl; [now destruct more|].
    reflexivity.
  - rewrite bool_decide_eq_true_2 by reflexivity.
    change ("" +:+ "" +:+ w) with w.
    destruct (add_words_extend maxLineLength rest [] w Hw Hrest')
      as (more & cur' & Hfold & Hcur' & Hnil & Hcons).
    cbn [app] in Hfold. rewrite Hfold.
    rewrite bool_decide_eq_false_2 by exact Hcur'.
    destruct more as [|l ls].
    + destruct (Hnil eq_refl) as [t ->]. now exists t.
    + destruct (Hcons l ls eq_refl) as [t ->].
      cbn [app]. destruct (ls ++ [cur']) as [|l' ls'] eqn:Hl; [now destruct ls|].
      exists (t +:+ comment_separator +:+ join comment_separator (l' :: ls')).
      change (join comment_separator ((w +:+ t) :: l' :: ls'))
        with ((w +:+ t) +:+ comment_separator +:+ join comment_separator (l' :: ls')).
      now rewrite !string_app_assoc.
Qed.

(** With the limit 3.5 the word [abc] does not pass the test. *)
Lemma fractional_limit_comment :
  (length_le (S (String.length "abc")) (Finite (QArith_base.Qmake 7 2)) = false ->
   exists lines,
     lines <> []
     /\ formatComment "abc" (Finite (QArith_base.Qmake 7 2)) =
        comment_separator +:+ join comment_separator lines)
  /\ (length_le (S (String.length "abc")) (Finite (QArith_base.Qmake 7 2)) = true ->
      exists t, formatComment "abc" (Finite (QArith_base.Qmake 7 2)) = "abc" +:+ t).
Proof.
  apply (comment_start "abc" (Finite (QArith_base.Qmake 7 2)) "abc" []).
  - reflexivity.
  - discriminate.
Defined.

Example fractional_limit_result :
  formatComment "abc" (Finite (QArith_base.Qmake 7 2)) =
    comment_separator +:+ "abc"
  /\ formatComment "abc" (number_of_nat 4) = "abc"
  /\ formatComment "abcdefghij kl" (number_of_nat 10) =
     comment_separator +:+ "abcdefghij" +:+ comment_separator +:+ "kl".
Proof. repeat split. Qed.

(** ** [getToolsFromOpenApi] *)

Lemma exclude_operations_Some excluded tools :
  exclude_operations (Some excluded) tools =
  List.filter (fun tool => negb (bool_decide (operationId tool ∈ excluded))) tools.
Proof.
  destruct excluded as [|id ids]; [|reflexivity]. cbn [exclude_operations].
  induction tools as [|t tools IH]; [reflexivity|]. cbn [List.filter].
  rewrite bool_decide_eq_false_2 by apply not_elem_of_nil.
  cbn [negb]. now rewrite <- IH.
Qed.

Lemma elem_of_exclude_operations ids tools t :
  t ∈ exclude_operations ids tools <->
  t ∈ tools /\ (forall excluded, ids = Some excluded -> (operationId t ∉ excluded)).
Proof.
  destruct ids as [excluded|].
  - rewrite exclude_operations_Some, elem_of_List_filter. split.
    + intros [Ht Hex]. split; [exact Ht|]. intros l [= <-].
      apply negb_true_iff, bool_decide_eq_false in Hex. exact Hex.
    + intros [Ht Hex]. split; [exact Ht|].
      apply negb_true_iff, bool_decide_eq_false. now apply Hex.
  - cbn. split; [intros Ht; split; [exact Ht|discriminate]|now intros [Ht _]].
Qed.

Lemma elem_of_apply_filterFn fn tools t :
  t ∈ apply_filterFn fn tools <->
  t ∈ tools /\ (forall f, fn = Some f -> f t = true).
Proof.
  destruct fn as [f|]; cbn [apply_filterFn].
  - rewrite elem_of_List_filter. split.
    + intros [Ht Hf]. split; [exact Ht|]. now intros f' [= <-].
    + intros [Ht Hf]. split; [exact Ht|]. now apply Hf.
  - split; [intros Ht; split; [exact Ht|discriminate]|now intros [Ht _]].
Qed.

Lemma selection_sublist ids fn tools :
  apply_filterFn fn (exclude_operations ids tools) `sublist_of` tools.
Proof.
  transitivity (exclude_operations ids tools).
  - destruct fn as [f|]; [apply List_filter_sublist|reflexivity].
  - destruct ids as [excluded|]; [|reflexivity].
    rewrite exclude_operations_Some. apply List_filter_sublist.
Qed.

Lemma map_api_tool base tools :
  map api_tool (map (fun tool => {| api_tool := tool; baseUrl := base |}) tools) = tools.
Proof. induction tools as [|t tools IH]; [reflexivity|]. cbn. now rewrite IH. Qed.

(** X19.  Called with a document, [getToolsFromOpenApi] returns the
    extracted tools that pass its two filters, in the order of extraction
    and still with pairwise distinct names: a tool is returned exactly when
    it was extracted, its (sanitized) [operationId] is not listed in
    [excludeOperationIds] and [filterFn], when given, accepts it.  Every
    returned tool carries the same base URL, the determined one or the
    empty string. *)
Theorem api_returns_the_selected_tools
    (generateOperationId : string -> string -> string)
    (determineBaseUrl : Document -> option string -> option string)
    (api : Document) (options : GetToolsOptions) (h : heap) :
  exists x tools,
    extractToolsFromApi generateOperationId api
      (default true (opt_defaultInclude options)) h = Some x
    /\ getToolsFromOpenApi generateOperationId determineBaseUrl api options h =
       Some (tools, x_heap x, x_log x)
    /\ map api_tool tools `sublist_of` x_tools x
    /\ NoDup (map (fun t => name (api_tool t)) tools)
    /\ (forall t,
          t ∈ map api_tool tools <->
          t ∈ x_tools x
          /\ (forall excluded, excludeOperationIds options = Some excluded ->
                (operationId t ∉ excluded))
          /\ (forall f, filterFn options = Some f -> f t = true))
    /\ Forall (fun t => baseUrl t =
                        str_or (determineBaseUrl api (opt_baseUrl options)) "")
         tools.
Proof.
  destruct (extraction_spec generateOperationId mcp_filter api
              (default true (opt_defaultInclude options)) h)
    as (x & Hx & _ & Hturn).
  unfold getToolsFromOpenApi, extractToolsFromApi. rewrite Hx.
  eexists x, _. split; [reflexivity|]. split; [reflexivity|].
  rewrite map_api_tool. split; [apply selection_sublist|]. split; [|split].
  - rewrite map_map. cbn [api_tool].
    eapply sublist_NoDup; [apply (named_in_turn_NoDup _ Hturn)|].
    apply (fmap_sublist name), selection_sublist.
  - intros t. rewrite elem_of_apply_filterFn, elem_of_exclude_operations. tauto.
  - apply Forall_forall. intros t Ht.
    apply list_elem_of_fmap in Ht as (tool & -> & _). reflexivity.
Qed.

Lemma exclude_operations_sanitized ids tools :
  Forall (fun t => is_sanitized (operationId t) = true) tools ->
  exclude_operations (option_map (List.filter is_sanitized) ids) tools =
  exclude_operations ids tools.
Proof.
  intros Htools. destruct ids as [excluded|]; [|reflexivity].
  cbn [option_map]. rewrite !exclude_operations_Some.
  apply List.filter_ext_in. intros t Ht. f_equal. apply bool_decide_ext.
  rewrite elem_of_List_filter.
  apply list_elem_of_In in Ht.
  pose proof (proj1 (Forall_forall _ _) Htools t Ht). tauto.
Qed.

(** X20.  The identifiers of [excludeOperationIds] are compared with the
    sanitized identifiers of the tools: an entry that sanitizing would
    change (one with a dot, a space or another character outside
    [[A-Za-z0-9_-]]) excludes nothing, and leaving such entries out of the
    list gives the same result. *)
Theorem exclusion_is_by_sanitized_id
    (generateOperationId : string -> string -> string)
    (determineBaseUrl : Document -> option string -> option string)
    (api : Document) (options : GetToolsOptions) (h : heap) :
  getToolsFromOpenApi generateOperationId determineBaseUrl api
    (with_excluded
       (option_map (List.filter is_sanitized) (excludeOperationIds options))
       options) h =
  getToolsFromOpenApi generateOperationId determineBaseUrl api options h.
Proof.
  destruct (extraction_spec generateOperationId mcp_filter api
              (default true (opt_defaultInclude options)) h)
    as (x & Hx & Hbuilt & _).
  unfold getToolsFromOpenApi, extractToolsFromApi, with_excluded.
  cbn [opt_defaultInclude excludeOperationIds filterFn opt_baseUrl].
  rewrite Hx. rewrite exclude_operations_sanitized; [reflexivity|].
  eapply Forall2_Forall_r; [exact Hbuilt|].
  apply Forall_forall. intros [[[path pathItem] m] operation] _ t (Hid & _).
  unfold is_sanitized. apply bool_decide_eq_true. rewrite Hid.
  apply sanitize_fixes, sanitize_name_chars.
Qed.
